(** * Verification of [staircase/walk.py]

    The walking-pattern demo of the multi-contact MPC repository: the
    staircase generator, the handle-dashing helpers, the IK task-retarget
    callback and the drawing processes.

    Numbers.  The script computes with IEEE doubles through numpy.  The
    embedding reads every double as the real number it denotes, and the
    operations on angles and coordinates ([cos], [sin], [+], [*]) as the
    exact operations on reals: their rounding is not part of the model,
    and [pi] in a yaw is read as the number pi.  Rounding is modelled in
    the one place where it decides what the script does, the number of
    turns of the loop of [generate_staircase]: [arange] takes the ceiling
    of a quotient of doubles, and a quotient that rounds to an integer
    loses a turn.  That quotient is computed as numpy computes it, from
    the double [pi], with the division rounded to the nearest double and
    the length checked against the range of [intp].  Memory is taken to
    be there when an array or a list is built.

    Effects.  Module-level mutable state of the Python process (numpy's
    global random generator, what was printed, what was sent to the
    viewer) is one record, [world], threaded through every function that
    the script runs for its effect. *)

From Stdlib Require Import Reals Lra Lia ZArith List.
From Stdlib Require DecimalString DecimalNat ClassicalEpsilon.
From stdpp Require Import gmap strings list.

Open Scope R_scope.

(* ================================================================= *)
(** ** Python values shared by the whole script *)

(** Exceptions that the modelled code can raise. *)
Inductive exn : Type :=
| ZeroDivisionError            (* division of a float by zero *)
| ValueError (msg : string)    (* numpy.arange with a length out of range *)
| IndexError                   (* list index out of range *)
| DrawError (msg : string).    (* raised inside a pymanoid drawing call *)

(** [str(e)] as used by the [print] statements of the script. *)
Definition str_exn (e : exn) : string :=
  match e with
  | ZeroDivisionError => "float division by zero"
  | ValueError msg => msg
  | IndexError => "list index out of range"
  | DrawError msg => msg
  end.

(** State of numpy's global generator: the sequence of doubles it will
    deliver and how many have been consumed. *)
Record rng : Type := { samples : nat -> R; cursor : nat }.

(** What the outside can see of a run. *)
Inductive event : Type :=
| EPrint (line : string)                  (* print "..." *)
| ESetBkgndColor (rgb : list R)           (* viewer.SetBkgndColor(rgb) *)
| EDraw (primitive : string).             (* a pymanoid draw_* call *)

Record world : Type := { np_random : rng; trace : list event }.

Definition emit (e : event) (w : world) : world :=
  {| np_random := np_random w; trace := trace w ++ [e] |}.

(* ================================================================= *)
(** ** The part of numpy the script uses *)

Module Numpy.

(** Ceiling of a real, as an integer. *)
Definition ceil (x : R) : Z := (- Int_part (- x))%Z.

(** Elementwise operations on one-dimensional arrays. *)
Definition sub_scalar (v : list R) (a : R) : list R := List.map (fun x => x - a) v.
Definition scale (a : R) (v : list R) : list R := List.map (fun x => a * x) v.

Fixpoint add (u v : list R) : list R :=
  match u, v with
  | x :: u', y :: v' => (x + y) :: add u' v'
  | _, _ => []
  end.

Fixpoint sub (u v : list R) : list R :=
  match u, v with
  | x :: u', y :: v' => (x - y) :: sub u' v'
  | _, _ => []
  end.

(** The finite doubles (IEEE binary64), as the reals they denote:
    [m * 2^e] with a mantissa of 53 bits, subnormal numbers included. *)
Definition is_double (x : R) : Prop :=
  exists m e : Z,
    (Z.abs m < 2 ^ 53)%Z /\ (-1074 <= e <= 971)%Z /\ x = IZR m * powerRZ 2 e.

(** The largest of them. *)
Definition max_double : R := IZR ((2 ^ 53 - 1) * 2 ^ 971).

(** [y] is a double nearest to [x]. *)
Definition nearest (x y : R) : Prop :=
  is_double y /\ forall z, is_double z -> Rabs (y - x) <= Rabs (z - x).

(** The mantissa of [y], written in normal form (53 bits, or fewer at the
    least exponent), is even. *)
Definition even_double (y : R) : Prop :=
  exists m e : Z,
    (Z.abs m < 2 ^ 53)%Z /\ (-1074 <= e <= 971)%Z /\
    y = IZR m * powerRZ 2 e /\
    (e = -1074 \/ 2 ^ 52 <= Z.abs m)%Z /\ Z.even m = true.

(** [y] is the double nearest to [x], the one with the even mantissa
    where two are equally near. *)
Definition nearest_even (x y : R) : Prop :=
  nearest x y /\ forall z, nearest x z -> z = y \/ even_double y.

(** Rounding to nearest, ties to even, the rounding of IEEE arithmetic.
    Beyond [max_double] IEEE rounds to an infinity; [round] stays at
    [max_double], a length that [arange] rejects just as it rejects an
    infinite one. *)
Definition round (x : R) : R :=
  ClassicalEpsilon.epsilon (inhabits 0) (nearest_even x).

(** [numpy.pi], the double nearest to pi: [884279719003555 * 2^-48]. *)
Definition pi : R := 884279719003555 / 281474976710656.

(** Subtraction and division of doubles. *)
Definition fsub (x y : R) : R := round (x - y).
Definition fdiv (x y : R) : R := round (x / y).

(** Length of [arange(start, stop, step)] as numpy computes it
    ([_calc_length]): the ceiling of the double quotient
    [(stop - start) / step], converted to [intp].  The division of the
    two Python floats raises when [step] is zero; a ceiling outside the
    range of [intp] is an OverflowError that [arange] turns into a
    ValueError.  The range check is made on doubles, where the largest
    [intp] is read as [2^63]: a ceiling of exactly [2^63] passes it, and
    its conversion (undefined in C) gives the least [intp] on x86-64.
    The arguments are meant to be doubles; steps that are infinite or
    not a number are not reals and are outside the model. *)
Definition calc_length (start stop step : R) : exn + Z :=
  if Req_dec_T step 0 then inl ZeroDivisionError
  else
    let value := ceil (fdiv (fsub stop start) step) in
    if ((value <? - 2 ^ 63) || (2 ^ 63 <? value))%Z
    then inl (ValueError "Maximum allowed size exceeded")
    else if (value =? 2 ^ 63)%Z then inr (- 2 ^ 63)%Z
    else inr value.

(** [arange(start, stop, step)]: no value when the length is not
    positive; otherwise an array of that many doubles, whose size in
    bytes, eight times the length, must fit an [intp], filled with the
    values [start + i * step] (read as reals).  The array is taken to
    find the memory it needs. *)
Definition arange (start stop step : R) : exn + list R :=
  match calc_length start stop step with
  | inl e => inl e
  | inr len =>
      if (len <=? 0)%Z then inr []
      else if (2 ^ 60 <=? len)%Z
      then inl (ValueError "array is too big; `arr.size * arr.dtype.itemsize` is larger than the maximum possible size.")
      else inr (List.map (fun i => start + INR i * step)
                         (seq 0 (Z.to_nat len)))
  end.

(** How many values [arange] delivers: none when it raises. *)
Definition arange_len (start stop step : R) : nat :=
  match arange start stop step with
  | inr thetas => length thetas
  | inl _ => 0%nat
  end.

(** The [i]-th double that a generator in state [g] will deliver next. *)
Definition peek (g : rng) (i : nat) : R := samples g (cursor g + i).

Definition advance (k : nat) (g : rng) : rng :=
  {| samples := samples g; cursor := cursor g + k |}.

(** The process after its generator has delivered [k] more doubles. *)
Definition skip (k : nat) (w : world) : world :=
  {| np_random := advance k (np_random w); trace := trace w |}.

(** [numpy.random.random(k)]: the next [k] doubles of the global
    generator, which moves on by [k]. *)
Definition random (k : nat) (w : world) : list R * world :=
  (List.map (peek (np_random w)) (seq 0 k), skip k w).

(** [numpy.random.seed(n)]: the global generator restarts on the sequence
    that the seed [n] determines, whatever its state was.  [mt] stands
    for the Mersenne Twister: seed to sequence of doubles. *)
Definition seed (mt : Z -> nat -> R) (n : Z) (w : world) : world :=
  {| np_random := {| samples := mt n; cursor := 0 |}; trace := trace w |}.

End Numpy.

(* ================================================================= *)
(** ** generate_staircase *)

(** [pymanoid.Contact], with the fields the script gives it. *)
Record Contact : Type := mkContact {
  X : R;
  Y : R;
  pos : list R;
  rpy : list R;
  friction : R;
  visible : bool
}.

Module Staircase.
Import Numpy.

Section Generator.

Variables (radius angular_step height roughness friction step_dim_x step_dim_y : R).

(** Body of the [for theta in arange(...)] loop: builds [left_foot], then
    [right_foot] (each drawing [random(3)] in that order). *)
Definition loop_body (theta : R) (w : world) : (Contact * Contact) * world :=
  let (u, w1) := random 3 w in
  let left_foot :=
    mkContact step_dim_x step_dim_y
      [radius * cos theta;
       radius * sin theta;
       radius + 0.5 * height * sin theta]
      (add (scale roughness (sub_scalar u 0.5)) [0; 0; theta + 0.5 * PI])
      friction true in
  let (v, w2) := random 3 w1 in
  let right_foot :=
    mkContact step_dim_x step_dim_y
      [1.3 * radius * cos (theta + 0.5 * angular_step);
       1.3 * radius * sin (theta + 0.5 * angular_step);
       radius + 0.5 * height * sin (theta + 0.5 * angular_step)]
      (add (scale roughness (sub_scalar v 0.5)) [0; 0; theta + 0.5 * PI])
      friction true in
  ((left_foot, right_foot), w2).

(** The loop itself; [steps] is the list being appended to. *)
Fixpoint loop (thetas : list R) (steps : list Contact) (w : world)
  : list Contact * world :=
  match thetas with
  | [] => (steps, w)
  | theta :: rest =>
      let '((left_foot, right_foot), w') := loop_body theta w in
      loop rest ((steps ++ [left_foot]) ++ [right_foot]) w'
  end.

Definition generate_staircase (w : world) : (exn + list Contact) * world :=
  match arange 0 (2 * pi) angular_step with
  | inl e => (inl e, w)
  | inr thetas =>
      let (steps, w') := loop thetas [] w in (inr steps, w')
  end.

End Generator.

End Staircase.

(* ================================================================= *)
(** ** dash_graph_handles *)

Module Handles.

(** A Python list of graph handles; an entry is a handle or [None].  The
    function updates the list it is given in place: the result is the new
    content of that same list. *)
Definition dash_graph_handles {H : Type} (handles : list (option H))
  : list (option H) :=
  fold_left
    (fun hs i => if (i mod 2 =? 0)%nat then <[i := None]> hs else hs)
    (seq 0 (length handles)) handles.

(** [TrajectoryDrawer]; [body] is a reference to a pymanoid object and is
    kept as that object's name. *)
Record TrajectoryDrawer (H : Type) : Type := mkTrajectoryDrawer {
  body : string;
  color : string;
  handles : list (option H);
  last_pos : list R;
  linestyle : string;
  linewidth : Z;
  lr : option Z
}.
Arguments mkTrajectoryDrawer {H}.
Arguments body {H}.
Arguments color {H}.
Arguments handles {H}.
Arguments last_pos {H}.
Arguments linestyle {H}.
Arguments linewidth {H}.
Arguments lr {H}.

(** The method [TrajectoryDrawer.dash_graph_handles(self)]. *)
Definition method_dash_graph_handles {H : Type} (self : TrajectoryDrawer H)
  : TrajectoryDrawer H :=
  mkTrajectoryDrawer (body self) (color self)
    (fold_left
       (fun hs i => if (i mod 2 =? 0)%nat then <[i := None]> hs else hs)
       (seq 0 (length (handles self))) (handles self))
    (last_pos self) (linestyle self) (linewidth self) (lr self).

End Handles.

(* ================================================================= *)
(** ** update_robot_ik and the robot lock *)

Module RobotIK.

(** [fsm.cur_stance]: each foot is on a contact or free ([None]). *)
Record Stance : Type := mkStance {
  left_foot : option Contact;
  right_foot : option Contact
}.

(** The state machine as the callback reads it; [free_foot] is the
    free-floating target, kept as its pose. *)
Record StateMachine : Type := mkStateMachine {
  cur_stance : Stance;
  free_foot : list R
}.

(** The two task classes of [pymanoid.tasks] the callback builds.  The
    first field is the name of the robot link the task drives, which is
    also the key of the task in the solver. *)
Inductive task : Type :=
| ContactTask (link : string) (target : Contact)
| LinkPoseTask (link : string) (target : list R).

Definition task_name (t : task) : string :=
  match t with
  | ContactTask link _ => link
  | LinkPoseTask link _ => link
  end.

(** [robot.ik.tasks], a dict from task name to task, with the two calls
    of the solver interface. *)
Definition remove_task (name : string) (tasks : gmap string task)
  : gmap string task := delete name tasks.

Definition add_task (t : task) (tasks : gmap string task)
  : gmap string task := <[task_name t := t]> tasks.

(** One atomic step of a thread.  [Acquire] and [Release] are the entry
    and the exit of a [with robot_lock:] block. *)
Inductive action : Type :=
| Acquire
| Release
| RemoveTask (name : string)
| AddTask (t : task)
| SolveIK.

Section Script.

(** [robot.left_foot.name] and [robot.right_foot.name]. *)
Variables (robot_left_foot robot_right_foot : string).

(** [update_robot_ik()], as the sequence of its steps.  The two tasks
    depend only on [fsm], which no other thread writes, so they are
    computed here once. *)
Definition update_robot_ik (fsm : StateMachine) : list action :=
  let left_foot_task :=
    match left_foot (cur_stance fsm) with
    | Some contact => ContactTask robot_left_foot contact
    | None => LinkPoseTask robot_left_foot (free_foot fsm)
    end in
  let right_foot_task :=
    match right_foot (cur_stance fsm) with
    | Some contact => ContactTask robot_right_foot contact
    | None => LinkPoseTask robot_right_foot (free_foot fsm)
    end in
  [Acquire;
   RemoveTask robot_left_foot;
   RemoveTask robot_right_foot;
   AddTask left_foot_task;
   AddTask right_foot_task;
   Release].

(** Modelled from the spec: the kinematics thread started by
    [robot.start_ik_thread(dt)] belongs to pymanoid and is not among the
    sources.  Section 4.3 gives its critical section: under the same
    mutex, read the current task set, solve, write the configuration. *)
Definition ik_thread_step : list action := [Acquire; SolveIK; Release].

Inductive thread : Type := TickThread | IKThread.

(** Shared state and what is left to run of each thread's current call. *)
Record state : Type := mkState {
  robot_lock : option thread;
  tasks : gmap string task;
  todo_tick : list action;
  todo_ik : list action
}.

(** What a step shows: nothing, or the task set the solver reads. *)
Inductive label : Type :=
| Silent
| Solved (seen : gmap string task).

(** Effect of one action by thread [who]; [None] when the thread has to
    wait (the lock is taken). *)
Definition exec (who : thread) (a : action)
    (lk : option thread) (ts : gmap string task)
  : option (option thread * gmap string task * label) :=
  match a with
  | Acquire =>
      match lk with
      | None => Some (Some who, ts, Silent)
      | Some _ => None
      end
  | Release => Some (None, ts, Silent)
  | RemoveTask name => Some (lk, remove_task name ts, Silent)
  | AddTask t => Some (lk, add_task t ts, Silent)
  | SolveIK => Some (lk, ts, Solved ts)
  end.

(** Interleavings of the tick thread, which calls [update_robot_ik] again
    and again with whatever stance the state machine then has, and of the
    kinematics thread. *)
Inductive step : state -> label -> state -> Prop :=
| step_tick_call s fsm :
    todo_tick s = [] ->
    step s Silent
      (mkState (robot_lock s) (tasks s) (update_robot_ik fsm) (todo_ik s))
| step_tick_run s a rest lk ts l :
    todo_tick s = a :: rest ->
    exec TickThread a (robot_lock s) (tasks s) = Some (lk, ts, l) ->
    step s l (mkState lk ts rest (todo_ik s))
| step_ik_call s :
    todo_ik s = [] ->
    step s Silent
      (mkState (robot_lock s) (tasks s) (todo_tick s) ik_thread_step)
| step_ik_run s a rest lk ts l :
    todo_ik s = a :: rest ->
    exec IKThread a (robot_lock s) (tasks s) = Some (lk, ts, l) ->
    step s l (mkState lk ts (todo_tick s) rest).

(** Both foot tasks are in the task set. *)
Definition both_feet (ts : gmap string task) : Prop :=
  is_Some (ts !! robot_left_foot) /\ is_Some (ts !! robot_right_foot).

(** Number of foot tasks in a task set. *)
Definition foot_tasks (ts : gmap string task) : nat :=
  length (List.filter (fun name => bool_decide (is_Some (ts !! name)))
                      (remove_dups [robot_left_foot; robot_right_foot])).

(** Before the first tick: nobody holds the lock, nothing is running, and
    the posture generation of the start-up code has set both foot tasks. *)
Definition initial (s : state) : Prop :=
  robot_lock s = None /\ todo_tick s = [] /\ todo_ik s = [] /\
  both_feet (tasks s).

Inductive reachable : state -> Prop :=
| reachable_initial s : initial s -> reachable s
| reachable_step s l s' : reachable s -> step s l s' -> reachable s'.

(** A call run alone, start to end, on a task set. *)
Fixpoint run_alone (who : thread) (prog : list action)
    (lk : option thread) (ts : gmap string task)
  : option (option thread * gmap string task) :=
  match prog with
  | [] => Some (lk, ts)
  | a :: rest =>
      match exec who a lk ts with
      | Some (lk', ts', _) => run_alone who rest lk' ts'
      | None => None
      end
  end.

(** What holds between two steps of any interleaving.  While nobody
    holds the lock, or the kinematics thread does, both foot tasks are
    set and the tick thread is between two calls or about to enter one;
    while the tick thread holds it, the callback is somewhere after its
    [Acquire], and the foot tasks it has put back so far are there. *)
Definition tick_idle (todo : list action) : Prop :=
  todo = [] \/ exists fsm, todo = update_robot_ik fsm.

Definition ik_idle (todo : list action) : Prop :=
  todo = [] \/ todo = ik_thread_step.

Definition tick_inside (todo : list action) (ts : gmap string task) : Prop :=
  exists fsm,
    todo = drop 1 (update_robot_ik fsm) \/
    todo = drop 2 (update_robot_ik fsm) \/
    todo = drop 3 (update_robot_ik fsm) \/
    (todo = drop 4 (update_robot_ik fsm) /\ is_Some (ts !! robot_left_foot)) \/
    (todo = drop 5 (update_robot_ik fsm) /\ both_feet ts).

Definition lock_invariant (s : state) : Prop :=
  match robot_lock s with
  | None =>
      tick_idle (todo_tick s) /\ ik_idle (todo_ik s) /\ both_feet (tasks s)
  | Some TickThread =>
      tick_inside (todo_tick s) (tasks s) /\ ik_idle (todo_ik s)
  | Some IKThread =>
      tick_idle (todo_tick s) /\
      (todo_ik s = [SolveIK; Release] \/ todo_ik s = [Release]) /\
      both_feet (tasks s)
  end.

End Script.

End RobotIK.

(* ================================================================= *)
(** ** ForceDrawer *)

Module ForceDrawer.
Import Numpy.

Record t (H : Type) : Type := mk {
  last_bkgnd_switch : option R;
  handles : list H;
  force_scale : R
}.
Arguments mk {H}.
Arguments last_bkgnd_switch {H}.
Arguments handles {H}.
Arguments force_scale {H}.

(** [not support]: [None] and the empty list are false in Python. *)
Definition falsy {A : Type} (support : option (list A)) : bool :=
  match support with
  | None => true
  | Some [] => true
  | Some (_ :: _) => false
  end.

Section OnTick.

Variable H : Type.

(** pymanoid, not part of the script. *)
Variable draw_force : Contact -> list R -> R -> H.
Variable find_supporting_forces :
  RobotIK.Stance -> list R -> list R -> R -> R ->
  option (list (Contact * list R)).

(** Globals read by the tick: [preview_buffer.comdd],
    [pymanoid.get_gravity()], [preview_buffer.com.p], [robot_mass],
    [fsm.cur_stance]. *)
Variables (comdd gravity com_p : list R) (robot_mass : R)
          (cur_stance : RobotIK.Stance).

(** What [time.time()] returns at its first and at its second call site,
    when that call is reached. *)
Variables (now1 now2 : R).

Definition support_of_tick : option (list (Contact * list R)) :=
  let wrench := scale robot_mass (sub comdd gravity) ++ [0; 0; 0] in
  find_supporting_forces cur_stance wrench com_p robot_mass 10.

Definition on_tick (self : t H) (w : world) : t H * world :=
  let support := support_of_tick in
  let '(self1, w1) :=
    if falsy support then
      (mk (Some now1) [] (force_scale self),
       emit (ESetBkgndColor [0.8; 0.4; 0.4]) w)
    else
      let drawn := match support with Some l => l | None => [] end in
      (mk (last_bkgnd_switch self)
          (List.map (fun cf => draw_force (fst cf) (snd cf) (force_scale self))
                    drawn)
          (force_scale self),
       fold_left (fun w' _ => emit (EDraw "force") w') drawn w) in
  match last_bkgnd_switch self1 with
  | Some last =>
      if Rgt_dec (now2 - last) 0.2 then
        (mk None (handles self1) (force_scale self1),
         emit (ESetBkgndColor [0.6; 0.6; 0.8]) w1)
      else (self1, w1)
  | None => (self1, w1)
  end.

End OnTick.

End ForceDrawer.

(* ================================================================= *)
(** ** TubeDrawer *)

Module TubeDrawer.
Import Numpy.

(** Colours are RGBA tuples or matplotlib letters. *)
Inductive colour : Type :=
| RGBA (c : list R)
| Letter (c : string).

Record t (H : Type) : Type := mk {
  comdd_handle : list H;
  cone_handles : list H;
  poly_handles : list H;
  acc_scale : R;
  trans : list R
}.
Arguments mk {H}.
Arguments comdd_handle {H}.
Arguments cone_handles {H}.
Arguments poly_handles {H}.
Arguments acc_scale {H}.
Arguments trans {H}.

(** [mpc.tube], with the attributes the drawer reads. *)
Record Tube : Type := mkTube {
  start_stance_is_single_support : bool;
  primal_vrep : list (list (list R));
  dual_vrep : list (list (list R))
}.

(** Outcome of a method: it returns, or raises; the object and the world
    keep whatever was done before the exception. *)
Definition outcome (H : Type) : Type := ((exn + unit) * t H * world)%type.

Section OnTick.

Variable H : Type.

(** pymanoid's drawing calls; each one returns its handle(s) or raises. *)
Variable draw_point : list R -> colour -> R -> exn + H.
Variable draw_polyhedron : list (list R) -> string -> colour -> exn + list H.
Variable draw_3d_cone :
  list R -> list R -> list (list R) -> string -> colour -> exn + list H.
Variable draw_line : list R -> list R -> colour -> Z -> exn + H.
Variable draw_points : list (list R) -> colour -> R -> exn + H.

(** Globals read by the tick: [com.p] and [preview_buffer.comdd]. *)
Variables (com_p comdd : list R).

Definition colours_of (tube : Tube) : list colour :=
  let colors := [RGBA [0.5; 0.5; 0; 0.3]; RGBA [0; 0.5; 0.5; 0.3]] in
  if start_stance_is_single_support tube then rev colors else colors.

(** [for (i, vertices) in enumerate(tube.primal_vrep)], from index [i]. *)
Fixpoint draw_primal_loop (colors : list colour) (i : nat)
    (vrep : list (list (list R))) (self : t H) (w : world) : outcome H :=
  match vrep with
  | [] => (inr tt, self, w)
  | vertices :: rest =>
      match colors !! i with
      | None => (inl IndexError, self, w)
      | Some color =>
          match vertices with
          | [v] =>
              match draw_point v color 0.01 with
              | inl e => (inl e, self, w)
              | inr h =>
                  draw_primal_loop colors (S i) rest
                    (mk (comdd_handle self) (cone_handles self)
                        (poly_handles self ++ [h])
                        (acc_scale self) (trans self))
                    (emit (EDraw "point") w)
              end
          | _ =>
              match draw_polyhedron vertices "*.-#" color with
              | inl e => (inl e, self, w)
              | inr hs =>
                  draw_primal_loop colors (S i) rest
                    (mk (comdd_handle self) (cone_handles self)
                        (poly_handles self ++ hs)
                        (acc_scale self) (trans self))
                    (emit (EDraw "polyhedron") w)
              end
          end
      end
  end.

Definition draw_primal (tube : Tube) (self : t H) (w : world) : outcome H :=
  draw_primal_loop (colours_of tube) 0 (primal_vrep tube)
    (mk (comdd_handle self) (cone_handles self) []
        (acc_scale self) (trans self))
    w.

(** [for (stance_id, cone_vertices) in enumerate(tube.dual_vrep)]. *)
Fixpoint draw_dual_loop (colors : list colour) (apex : list R)
    (stance_id : nat) (vrep : list (list (list R)))
    (self : t H) (w : world) : outcome H :=
  match vrep with
  | [] => (inr tt, self, w)
  | cone_vertices :: rest =>
      match colors !! stance_id with
      | None => (inl IndexError, self, w)
      | Some color =>
          let vscale :=
            List.map (fun v => add (scale (acc_scale self) v) (trans self))
                     cone_vertices in
          match draw_3d_cone apex [0; 0; 1] (tl vscale) "r-#" color with
          | inl e => (inl e, self, w)
          | inr hs =>
              draw_dual_loop colors apex (S stance_id) rest
                (mk (comdd_handle self) (cone_handles self ++ hs)
                    (poly_handles self) (acc_scale self) (trans self))
                (emit (EDraw "3d_cone") w)
          end
      end
  end.

Definition draw_dual (tube : Tube) (self : t H) (w : world) : outcome H :=
  let self1 :=
    mk (comdd_handle self) [] (poly_handles self) (acc_scale self) com_p in
  let apex := add [0; 0; acc_scale self1 * -9.81] (trans self1) in
  draw_dual_loop (colours_of tube) apex 0 (dual_vrep tube) self1 w.

Definition draw_comdd (self : t H) (w : world) : outcome H :=
  let comdd' := add (scale (acc_scale self) comdd) (trans self) in
  match draw_line (trans self) comdd' (Letter "r") 3 with
  | inl e => (inl e, self, w)
  | inr line =>
      let w1 := emit (EDraw "line") w in
      match draw_points [trans self; comdd'] (Letter "r") 0.005 with
      | inl e => (inl e, self, w1)
      | inr points =>
          (inr tt,
           mk [line; points] (cone_handles self) (poly_handles self)
              (acc_scale self) (trans self),
           emit (EDraw "points") w1)
      end
  end.

(** [try: ... except Exception as e: print "... failed: %s" % str(e)]. *)
Definition try_except (banner : string) (o : outcome H) : t H * world :=
  match o with
  | (inl e, self, w) => (self, emit (EPrint (banner ++ str_exn e)) w)
  | (inr _, self, w) => (self, w)
  end.

Definition on_tick (tube : Tube) (self : t H) (w : world) : outcome H :=
  let (self1, w1) :=
    try_except "Drawing of polytopes failed: " (draw_primal tube self w) in
  let (self2, w2) :=
    try_except "Drawing of dual cones failed: " (draw_dual tube self1 w1) in
  draw_comdd self2 w2.

End OnTick.

End TubeDrawer.

(* ================================================================= *)
(** ** The tick scheduler *)

Module Simulation.

Section Scheduler.

(** The objects the processes work on (state machine, buffers, drawers). *)
Variable A : Type.

(** Modelled from the spec: [wpg.simulation.Process] is not among the
    sources.  Section 9: an interface with one capability, the per-tick
    callback, which returns or fails. *)
Record Process : Type := mkProcess {
  on_tick : A -> world -> (exn + unit) * A * world
}.

(** Modelled from the spec: [wpg.simulation.Simulation] is not among the
    sources.  Section 4.2: an ordered list of core processes, a separate
    list of auxiliary ones, a fixed step [dt] and a tick counter;
    [timed] is the record of which process ran, one entry (the index of
    the process in invocation order) per timed [on_tick] call. *)
Record t : Type := mk {
  processes : list Process;
  extras : list Process;
  dt : R;
  nb_ticks : nat;
  timed : list nat
}.

(** Modelled from the spec: [Simulation.schedule], missing as above.
    Registration order is invocation order. *)
Definition schedule (p : Process) (sim : t) : t :=
  mk (processes sim ++ [p]) (extras sim) (dt sim) (nb_ticks sim) (timed sim).

(** Modelled from the spec: [Simulation.schedule_extra], missing as above. *)
Definition schedule_extra (p : Process) (sim : t) : t :=
  mk (processes sim) (extras sim ++ [p]) (dt sim) (nb_ticks sim) (timed sim).

(** Modelled from the spec: the failure semantics of section 4.2, missing
    as above.  A failing [on_tick] is logged, the rest of that process's
    work is skipped, and the scheduler goes on. *)
Definition run_process (i : nat) (p : Process) (st : list nat * A * world)
  : list nat * A * world :=
  let '(done, a, w) := st in
  match on_tick p a w with
  | (inl e, a', w') =>
      (done ++ [i], a', emit (EPrint ("on_tick failed: " ++ str_exn e)) w')
  | (inr _, a', w') => (done ++ [i], a', w')
  end.

(** Modelled from the spec: one tick of [Simulation.step], missing as
    above.  Every process once, core ones first, in registration order;
    [i] is the index of the first process of [ps]. *)
Fixpoint run_all (i : nat) (ps : list Process) (st : list nat * A * world)
  : list nat * A * world :=
  match ps with
  | [] => st
  | p :: rest => run_all (S i) rest (run_process i p st)
  end.

Definition tick (sim : t) (a : A) (w : world) : t * A * world :=
  let '(done, a', w') :=
    run_all 0 (processes sim ++ extras sim) (timed sim, a, w) in
  (mk (processes sim) (extras sim) (dt sim) (S (nb_ticks sim)) done, a', w').

(** Modelled from the spec: [Simulation.step(n)], missing as above. *)
Fixpoint step (n : nat) (sim : t) (a : A) (w : world) : t * A * world :=
  match n with
  | O => (sim, a, w)
  | S n' => let '(sim', a', w') := tick sim a w in step n' sim' a' w'
  end.

(** Simulated time: the tick counter times the step. *)
Definition clock (sim : t) : R := INR (nb_ticks sim) * dt sim.

End Scheduler.

Arguments mkProcess {A}.
Arguments on_tick {A}.
Arguments mk {A}.
Arguments processes {A}.
Arguments extras {A}.
Arguments dt {A}.
Arguments nb_ticks {A}.
Arguments timed {A}.
Arguments schedule {A}.
Arguments schedule_extra {A}.
Arguments run_process {A}.
Arguments run_all {A}.
Arguments tick {A}.
Arguments step {A}.
Arguments clock {A}.

End Simulation.

(* ================================================================= *)
(** ** The viewer background, as the trace shows it *)

(** The colour of the last [SetBkgndColor] call, if there was one. *)
Definition shown_colour (tr : list event) : option (list R) :=
  fold_left (fun shown e =>
               match e with
               | ESetBkgndColor rgb => Some rgb
               | _ => shown
               end) tr None.

(* ================================================================= *)
(** ** TrajectoryDrawer: construction and tick *)

Module TrajectoryTick.
Import Handles.

(** A pymanoid body as the drawer uses it: its name and where it is. *)
Record Body : Type := mkBody { name : string; p : list R }.

(** What [__init__] can raise. *)
Inductive failure : Type :=
| StringIndexError        (* [combined[0]] or [combined[1]] out of range *)
| AssertionError.         (* [assert linestyle in ['-', '.']] *)

(** [s[i]] on a Python string, for an index that is not negative. *)
Definition char_at (s : string) (i : nat) : option string :=
  match String.get i s with
  | Some c => Some (String c EmptyString)
  | None => None
  end.

(** [TrajectoryDrawer.__init__(self, body, combined, color, linewidth,
    linestyle, lr)]; the defaults of the signature ([combined='b-'],
    [color=None], [linewidth=3], [linestyle=None], [lr=None]) are for the
    caller to pass.  [free_foot] is the global [fsm.free_foot]. *)
Definition init {H : Type} (free_foot : Body) (body : Body)
    (combined : string) (color : option string) (linewidth : Z)
    (linestyle : option string) (lr : option Z)
  : failure + TrajectoryDrawer H :=
  match (match color with
         | Some c => Some c
         | None => char_at combined 0
         end) with
  | None => inl StringIndexError
  | Some color' =>
      match (match linestyle with
             | Some l => Some l
             | None => char_at combined 1
             end) with
      | None => inl StringIndexError
      | Some linestyle' =>
          if ((linestyle' =? "-") || (linestyle' =? "."))%string then
            inr (mkTrajectoryDrawer
                   (name (match lr with
                          | Some _ => free_foot
                          | None => body
                          end))
                   color' [] (p body) linestyle' linewidth lr)
          else inl AssertionError
      end
  end.

(** The condition under which a tick is not skipped:
    [lr is None or lr == 0 and phase == 'SS-R' or lr == 1 and
    phase == 'SS-L']. *)
Definition active (lr : option Z) (cur_phase : string) : bool :=
  match lr with
  | None => true
  | Some n =>
      ((n =? 0)%Z && (cur_phase =? "SS-R")%string)
      || ((n =? 1)%Z && (cur_phase =? "SS-L")%string)
  end.

Section OnTick.

Variable H : Type.

(** pymanoid's [draw_line(p, q, color, linewidth)]. *)
Variable draw_line : list R -> list R -> string -> Z -> H.

(** [on_tick]; [cur_phase] is [fsm.cur_phase] and [body_p] is
    [self.body.p] at the time of the tick. *)
Definition on_tick (cur_phase : string) (body_p : list R)
    (self : TrajectoryDrawer H) (w : world) : TrajectoryDrawer H * world :=
  if negb (active (lr self) cur_phase) then (self, w)
  else
    let '(handles', w') :=
      if (linestyle self =? "-")%string then
        (handles self
           ++ [Some (draw_line (last_pos self) body_p (color self)
                       (linewidth self))],
         emit (EDraw "line") w)
      else (handles self, w) in
    (mkTrajectoryDrawer (body self) (color self) handles' body_p
       (linestyle self) (linewidth self) (lr self),
     w').

(** The drawer over successive ticks, each given by the phase of the
    state machine and the position of the body at that tick. *)
Definition run (ticks : list (string * list R))
    (self : TrajectoryDrawer H) (w : world) : TrajectoryDrawer H * world :=
  fold_left (fun dw tick => on_tick (fst tick) (snd tick) (fst dw) (snd dw))
            ticks (self, w).

End OnTick.

End TrajectoryTick.

(* ================================================================= *)
(** ** SEPDrawer *)

Module SEPDrawer.

(** A stance as this drawer reads it: [is_single_support] and the
    vertices of the static-equilibrium polygon [sep]. *)
Record Stance : Type := mkStance {
  is_single_support : bool;
  sep : list (list R)
}.

Record t (H : Type) : Type := mk {
  ss_handles : option H;
  ds_handles : option H
}.
Arguments mk {H}.
Arguments ss_handles {H}.
Arguments ds_handles {H}.

(** [[(x[0], x[1], sep_height) for x in vertices]]; a vertex with fewer
    than two coordinates raises. *)
Fixpoint lift (sep_height : R) (vertices : list (list R))
  : exn + list (list R) :=
  match vertices with
  | [] => inr []
  | x :: rest =>
      match x !! 0%nat, x !! 1%nat with
      | Some x0, Some x1 =>
          match lift sep_height rest with
          | inr lifted => inr ([x0; x1; sep_height] :: lifted)
          | inl e => inl e
          end
      | _, _ => inl IndexError
      end
  end.

Section OnTick.

Variable H : Type.

(** pymanoid's [draw_polygon(points, normal, color)]. *)
Variable draw_polygon : list (list R) -> list R -> string -> H.

(** Globals read by the tick: [fsm.cur_stance], [fsm.next_stance],
    [preview_buffer.com.z] and [RobotModel.leg_length]. *)
Variables (cur_stance next_stance : Stance) (com_z leg_length : R).

Definition on_tick (self : t H) (w : world) : (exn + unit) * t H * world :=
  let '(ss_stance, ds_stance) :=
    if is_single_support cur_stance then (cur_stance, next_stance)
    else (next_stance, cur_stance) in
  let sep_height := com_z - leg_length in
  match lift sep_height (sep ss_stance) with
  | inl e => (inl e, self, w)
  | inr ss_points =>
      let self1 :=
        mk (Some (draw_polygon ss_points [0; 0; 1] "c")) (ds_handles self) in
      let w1 := emit (EDraw "polygon") w in
      match lift sep_height (sep ds_stance) with
      | inl e => (inl e, self1, w1)
      | inr ds_points =>
          (inr tt,
           mk (ss_handles self1)
              (Some (draw_polygon ds_points [0; 0; 1] "y")),
           emit (EDraw "polygon") w1)
      end
  end.

End OnTick.

End SEPDrawer.

(* ================================================================= *)
(** ** PreviewDrawer *)

Module PreviewDrawer.
Import Numpy.

Record t (H : Type) : Type := mk {
  draw_free_traj : bool;
  handles : list H
}.
Arguments mk {H}.
Arguments draw_free_traj {H}.
Arguments handles {H}.

(** [preview_buffer.preview]: the time step, the stacked accelerations
    [U] and the index [switch_step], which may be [None]. *)
Record Preview : Type := mkPreview {
  timestep : R;
  U : list R;
  switch_step : option Z
}.

(** [preview_index <= switch_step] in Python 2, where [None] is below
    every integer. *)
Definition before_switch (preview_index : nat) (switch_step : option Z)
  : bool :=
  match switch_step with
  | Some s => (Z.of_nat preview_index <=? s)%Z
  | None => false
  end.

(** The variables of the loop. *)
Record vars : Type := mkVars {
  com_pre : list R;
  comd_pre : list R;
  com_free : list R;
  comd_free : list R
}.

Section OnTick.

Variable H : Type.

(** pymanoid's [draw_point(p, color, pointsize)] and
    [draw_line(p, q, color, linewidth)]. *)
Variable draw_point : list R -> string -> R -> H.
Variable draw_line : list R -> list R -> string -> Z -> H.

(** Globals read by the tick: [com.p], [com.pd] and
    [preview_buffer.preview].  [pd_shared] says whether [com.pd] hands
    out the array that the point mass stores (then [comd_pre] and
    [comd_free] are one array, which [+=] updates in place) or a copy. *)
Variables (com_p com_pd : list R) (preview : Preview) (pd_shared : bool).

(** One turn of [for preview_index in xrange(len(U) / 3)]. *)
Definition loop_body (self : t H) (preview_index : nat)
    (st : vars * list H * world) : vars * list H * world :=
  let '(v, hs, w) := st in
  let dT := timestep preview in
  let com_pre0 := com_pre v in
  let j := (3 * preview_index)%nat in
  let comdd := take 3 (drop j (U preview)) in
  let com_pre' :=
    add (add (com_pre v) (scale dT (comd_pre v)))
        (scale (dT ^ 2) (scale 0.5 comdd)) in
  let comd_pre' := add (comd_pre v) (scale dT comdd) in
  let comd_free' := if pd_shared then comd_pre' else comd_free v in
  let color :=
    if before_switch preview_index (switch_step preview) then "b" else "y" in
  let hs1 := hs ++ [draw_point com_pre' color 0.005] in
  let hs2 := hs1 ++ [draw_line com_pre0 com_pre' color 3] in
  let w2 := emit (EDraw "line") (emit (EDraw "point") w) in
  if draw_free_traj self then
    let com_free0 := com_free v in
    let com_free' := add (com_free v) (scale dT comd_free') in
    (mkVars com_pre' comd_pre' com_free' comd_free',
     (hs2 ++ [draw_point com_free' "g" 0.005])
       ++ [draw_line com_free0 com_free' "g" 3],
     emit (EDraw "line") (emit (EDraw "point") w2))
  else (mkVars com_pre' comd_pre' (com_free v) comd_free', hs2, w2).

(** [on_tick]; the last component of the result is the velocity that the
    point mass stores after the tick: what [+=] made of it when the
    array is shared, the velocity it had otherwise. *)
Definition on_tick (self : t H) (w : world) : t H * world * list R :=
  let v0 := mkVars com_p com_pd com_p com_pd in
  let hs0 := [draw_point com_p "m" 0.007] in
  let '(v, hs, w') :=
    fold_left (fun st preview_index => loop_body self preview_index st)
              (seq 0 (length (U preview) / 3))
              (v0, hs0, emit (EDraw "point") w) in
  (mk (draw_free_traj self) hs, w',
   if pd_shared then comd_pre v else com_pd).

End OnTick.

End PreviewDrawer.

(* ================================================================= *)
(** ** ScreenshotTaker *)

Module ScreenshotTaker.
Import Stdlib.Strings.Ascii.

Record t : Type := mk {
  frame_index : nat;
  window_id : string
}.

(** ['%05d' % n] for an integer that is not negative: its decimal digits,
    with zeros in front up to five characters. *)
Definition decimal (n : nat) : string :=
  DecimalString.NilEmpty.string_of_uint (Nat.to_uint n).

Fixpoint zeros (k : nat) : string :=
  match k with
  | O => EmptyString
  | S k' => String "0"%char (zeros k')
  end.

Definition format_05d (n : nat) : string :=
  (zeros (5 - String.length (decimal n)) ++ decimal n)%string.

Definition fname (frame_index : nat) : string :=
  ("./recording/camera/" ++ format_05d frame_index ++ ".png")%string.

(** [on_tick]: the shell command given to [os.system], and the taker
    with its counter moved on. *)
Definition on_tick (self : t) : string * t :=
  let name := fname (frame_index self) in
  (("import -window " ++ window_id self ++ " " ++ name)%string,
   mk (frame_index self + 1) (window_id self)).

(** Reading a frame number back from the digits of a file name. *)
Definition frame_of_digits (digits : string) : option nat :=
  option_map Nat.of_uint (DecimalString.NilEmpty.uint_of_string digits).

(** The commands of [n] successive ticks. *)
Fixpoint commands (n : nat) (self : t) : list string :=
  match n with
  | O => []
  | S n' => let (cmd, self') := on_tick self in cmd :: commands n' self'
  end.

End ScreenshotTaker.

(* ================================================================= *)
(** ** Concrete inputs used as test points *)

(** A fresh process whose generator delivers one half at every draw:
    every perturbation [roughness * (u - 0.5)] is then zero. *)
Definition world_half : world :=
  {| np_random := {| samples := fun _ => 0.5; cursor := 0 |}; trace := [] |}.

(** A generator that delivers 0, 1/8, 2/8, ..., 7/8 and again. *)
Definition world_eighths : world :=
  {| np_random := {| samples := fun i => INR (i mod 8) / 8; cursor := 0 |};
     trace := [EPrint "ready"] |}.

(** A stand-in for pymanoid's force solver: it finds a distribution only
    when the left foot is on a contact, which then carries the weight. *)
Definition solver_on_left_foot
    (stance : RobotIK.Stance) (wrench com_p : list R) (mass margin : R)
  : option (list (Contact * list R)) :=
  match RobotIK.left_foot stance with
  | Some contact => Some [(contact, [0; 0; mass * 9.81])]
  | None => None
  end.

(** A first step of the staircase, flat. *)
Definition flat_step : Contact :=
  mkContact 0.2 0.1 [1.4; 0; 1.4] [0; 0; 0.5 * PI] 0.7 true.

(** A force drawer that still holds two handles from the tick before. *)
Definition force_drawer_busy : ForceDrawer.t nat :=
  ForceDrawer.mk None [7%nat; 8%nat] 0.0025.

(** A tube with three primal polytopes, one more than there are colours,
    and one dual cone. *)
Definition tube_three_polytopes : TubeDrawer.Tube :=
  TubeDrawer.mkTube false
    [[[0; 0; 0]; [1; 0; 0]; [0; 1; 0]; [0; 0; 1]];
     [[0.5; 0.5; 0.5]];
     [[0; 0; 0]; [2; 0; 0]; [0; 2; 0]; [0; 0; 2]]]
    [[[0; 0; 9.81]; [1; 0; 9.81]; [0; 1; 9.81]; [-1; -1; 9.81]]].

(** The drawer as [TubeDrawer.__init__] leaves it. *)
Definition tube_drawer_new : TubeDrawer.t nat :=
  TubeDrawer.mk [] [] [] 0.1 [0; 0; 1.1].

(** Drawing calls that succeed and return numbered handles. *)
Definition draw_point_ok (p : list R) (c : TubeDrawer.colour) (size : R)
  : exn + nat := inr 1%nat.
Definition draw_polyhedron_ok (vertices : list (list R)) (combined : string)
    (c : TubeDrawer.colour) : exn + list nat := inr [2%nat; 3%nat].
Definition draw_3d_cone_ok (apex axis : list R) (section : list (list R))
    (combined : string) (c : TubeDrawer.colour) : exn + list nat :=
  inr [4%nat].
Definition draw_line_ok (p q : list R) (c : TubeDrawer.colour) (width : Z)
  : exn + nat := inr 5%nat.
Definition draw_points_ok (ps : list (list R)) (c : TubeDrawer.colour)
    (size : R) : exn + nat := inr 6%nat.

(** Two processes over a counter: the first always fails after adding
    one, the second adds ten. *)
Definition failing_process : Simulation.Process nat :=
  Simulation.mkProcess
    (fun a w => (inl (DrawError "qhull"), S a, w)).
Definition counting_process : Simulation.Process nat :=
  Simulation.mkProcess (fun a w => (inr tt, (a + 10)%nat, w)).

(** The shared state after the start-up code of the script: both feet of
    JVRC-1 have their contact task, nothing runs yet. *)
Definition ik_start : RobotIK.state :=
  RobotIK.mkState None
    (<["L_ANKLE_P_S" := RobotIK.ContactTask "L_ANKLE_P_S" flat_step]>
       (<["R_ANKLE_P_S" := RobotIK.ContactTask "R_ANKLE_P_S" flat_step]> ∅))
    [] [].

(** A single-support stance on the left foot. *)
Definition fsm_left_support : RobotIK.StateMachine :=
  RobotIK.mkStateMachine (RobotIK.mkStance (Some flat_step) None)
    [1.5; 0.3; 1.6].

(** The same state a little later: the callback of a tick is about to
    start and the kinematics thread, holding the lock, is about to solve. *)
Definition ik_solving : RobotIK.state :=
  RobotIK.mkState (Some RobotIK.IKThread) (RobotIK.tasks ik_start)
    (RobotIK.update_robot_ik "L_ANKLE_P_S" "R_ANKLE_P_S" fsm_left_support)
    [RobotIK.SolveIK; RobotIK.Release].

(** And in the middle of the callback, both foot tasks removed. *)
Definition ik_retargeting : RobotIK.state :=
  RobotIK.mkState (Some RobotIK.TickThread)
    (RobotIK.remove_task "R_ANKLE_P_S"
       (RobotIK.remove_task "L_ANKLE_P_S" (RobotIK.tasks ik_start)))
    (drop 3 (RobotIK.update_robot_ik "L_ANKLE_P_S" "R_ANKLE_P_S"
               fsm_left_support))
    [].

(** The left foot of the robot and the free-foot target of the state
    machine, as bodies. *)
Definition left_foot_body : TrajectoryTick.Body :=
  TrajectoryTick.mkBody "L_ANKLE_P_S" [0; 0.1; 0].
Definition free_foot_body : TrajectoryTick.Body :=
  TrajectoryTick.mkBody "free_foot" [1.5; 0.3; 1.6].

(** The drawer of the script's
    [TrajectoryDrawer(robot.left_foot, 'g-', lr=0)], with segments kept
    as their two end points. *)
Definition left_foot_traj_drawer
  : Handles.TrajectoryDrawer (list R * list R) :=
  Handles.mkTrajectoryDrawer "free_foot" "g" [] [0; 0.1; 0] "-" 3 (Some 0%Z).

(** A single-support stance with a triangular polygon and a
    double-support stance with a square one. *)
Definition sep_single : SEPDrawer.Stance :=
  SEPDrawer.mkStance true [[0; 0]; [0.2; 0]; [0.1; 0.2]].
Definition sep_double : SEPDrawer.Stance :=
  SEPDrawer.mkStance false [[0; 0]; [0.4; 0]; [0.4; 0.3]; [0; 0.3]].

(** A preview of two steps, with two stray entries at the end of [U]. *)
Definition preview_two_steps : PreviewDrawer.Preview :=
  PreviewDrawer.mkPreview 0.1 [1; 0; 0; 0; 1; 0; 7; 7] (Some 0%Z).

(** A line-drawing call that raises, as when the viewer is gone. *)
Definition draw_line_broken (p q : list R) (c : TubeDrawer.colour) (width : Z)
  : exn + nat := inl (DrawError "no viewer").

(** A tube drawer that still shows the acceleration of the tick before. *)
Definition tube_drawer_busy : TubeDrawer.t nat :=
  TubeDrawer.mk [5%nat; 6%nat] [4%nat] [2%nat; 3%nat] 0.1 [0; 0; 0.8].

(* ================================================================= *)
(** * Properties *)

Import Numpy.

(** ** Facts about the numpy model *)

Lemma ceil_spec (x : R) : IZR (ceil x) - 1 < x <= IZR (ceil x).
Proof.
  unfold ceil. destruct (base_Int_part (- x)) as [Hle Hgt].
  rewrite opp_IZR. lra.
Qed.

Lemma ceil_unique (x : R) (z : Z) : IZR z - 1 < x <= IZR z -> ceil x = z.
Proof.
  intros [Hlo Hhi]. destruct (ceil_spec x) as [Clo Chi].
  assert (H1 : (ceil x < z + 1)%Z).
  { apply lt_IZR. rewrite plus_IZR. lra. }
  assert (H2 : (z < ceil x + 1)%Z).
  { apply lt_IZR. rewrite plus_IZR. lra. }
  lia.
Qed.

Lemma ceil_nonpos (x : R) : x <= 0 -> (ceil x <= 0)%Z.
Proof.
  intros Hx. destruct (ceil_spec x) as [Clo _].
  apply Z.lt_succ_r. apply lt_IZR. rewrite succ_IZR. lra.
Qed.

Lemma ceil_pos (x : R) : 0 < x -> (0 < ceil x)%Z.
Proof.
  intros Hx. destruct (ceil_spec x) as [_ Chi].
  apply lt_IZR. lra.
Qed.

Lemma PI_gt_3 : 3 < PI.
Proof. pose proof PI2_3_2. lra. Qed.

Lemma PI_lt_13_4 : PI < 13 / 4.
Proof.
  destruct (PI_2_3_7_ineq 0) as [_ Hup].
  simpl in Hup. unfold tg_alt, PI_2_3_7_tg, Ratan_seq in Hup.
  simpl in Hup. lra.
Qed.

(** ** Doubles and rounding *)

Lemma powerRZ_2_pos (e : Z) : (0 <= e)%Z -> powerRZ 2 e = IZR (2 ^ e).
Proof.
  intros He. destruct e as [| p | p]; [reflexivity | | lia].
  unfold powerRZ. rewrite pow_IZR. rewrite positive_nat_Z. reflexivity.
Qed.

Lemma powerRZ_2_neg (e : Z) : (0 <= e)%Z -> powerRZ 2 (- e) = / IZR (2 ^ e).
Proof.
  intros He. rewrite powerRZ_neg'. rewrite powerRZ_2_pos by exact He.
  reflexivity.
Qed.

Lemma IZR_pow2_pos (e : Z) : (0 <= e)%Z -> 0 < IZR (2 ^ e).
Proof. intros He. apply IZR_lt. apply Z.pow_pos_nonneg; lia. Qed.

(** Every double is a multiple of the smallest one, [2^-1074]. *)
Lemma double_on_grid (x : R) :
  is_double x ->
  exists k : Z, (Z.abs k < 2 ^ 2098)%Z /\ x = IZR k * powerRZ 2 (-1074).
Proof.
  intros (m & e & Hm & He & ->).
  exists (m * 2 ^ (e + 1074))%Z. split.
  - rewrite Z.abs_mul. rewrite (Z.abs_eq (2 ^ (e + 1074))) by (apply Z.pow_nonneg; lia).
    assert (H1 : (2 ^ (e + 1074) <= 2 ^ 2045)%Z) by (apply Z.pow_le_mono_r; lia).
    assert (H2 : (0 < 2 ^ (e + 1074))%Z) by (apply Z.pow_pos_nonneg; lia).
    replace (2 ^ 2098)%Z with (2 ^ 53 * 2 ^ 2045)%Z by (rewrite <- Z.pow_add_r by lia; reflexivity).
    assert (H3 : (0 <= Z.abs m)%Z) by apply Z.abs_nonneg.
    nia.
  - rewrite mult_IZR. rewrite <- powerRZ_2_pos by lia.
    rewrite Rmult_assoc. rewrite <- powerRZ_add by lra.
    f_equal. f_equal. lia.
Qed.

Lemma double_0 : is_double 0.
Proof. exists 0%Z, 0%Z. split; [ | split]; [reflexivity | lia | simpl; lra]. Qed.

Lemma double_opp (x : R) : is_double x -> is_double (- x).
Proof.
  intros (m & e & Hm & He & ->). exists (- m)%Z, e.
  split; [ | split; [exact He | ]].
  - rewrite Z.abs_opp. exact Hm.
  - rewrite opp_IZR. ring.
Qed.

(** A set of integers that is inhabited and bounded below has a least
    element. *)
Lemma Z_least (P : Z -> Prop) (lo : Z) :
  (exists k, P k) -> (forall k, P k -> (lo <= k)%Z) ->
  exists k, P k /\ forall j, P j -> (k <= j)%Z.
Proof.
  intros [k0 Hk0] Hlo.
  assert (H : forall n : nat, forall k, P k -> (k - lo <= Z.of_nat n)%Z ->
              exists k', P k' /\ forall j, P j -> (k' <= j)%Z).
  { induction n as [| n IH]; intros k Hk Hn.
    - exists k. split; [exact Hk | ]. intros j Hj. specialize (Hlo j Hj). lia.
    - destruct (Classical_Prop.classic (exists j, P j /\ (j < k)%Z))
        as [[j [Hj Hlt]] | Hnone].
      + apply (IH j Hj). lia.
      + exists k. split; [exact Hk | ]. intros j Hj.
        destruct (Z_lt_le_dec j k) as [Hlt | Hle]; [ | exact Hle].
        exfalso. apply Hnone. exists j. split; assumption. }
  apply (H (Z.to_nat (k0 - lo)) k0 Hk0).
  specialize (Hlo k0 Hk0). lia.
Qed.

Lemma powerRZ_2_gt_0 (e : Z) : 0 < powerRZ 2 e.
Proof. apply powerRZ_lt. lra. Qed.

(** The least double that is not below [x], when there is one. *)
Lemma double_above (x : R) :
  (exists d, is_double d /\ x <= d) ->
  exists d, is_double d /\ x <= d /\
            forall z, is_double z -> x <= z -> d <= z.
Proof.
  intros (d0 & Hd0 & Hx0).
  pose proof (powerRZ_2_gt_0 (-1074)) as Hu.
  set (u := powerRZ 2 (-1074)) in *.
  set (P := fun k : Z => is_double (IZR k * u) /\ x <= IZR k * u).
  assert (Hgrid : forall z, is_double z -> exists k, z = IZR k * u /\ P k \/ z = IZR k * u /\ z < x).
  { intros z Hz. destruct (double_on_grid z Hz) as (k & _ & Hk).
    exists k. destruct (Rle_lt_dec x z) as [Hle | Hlt].
    - left. split; [exact Hk | ]. unfold P. fold u in Hk. rewrite <- Hk.
      split; assumption.
    - right. split; assumption. }
  assert (Hbound : forall k, P k -> (- 2 ^ 2098 <= k)%Z).
  { intros k [Hk _]. destruct (double_on_grid _ Hk) as (k' & Hk' & Heq).
    fold u in Heq. apply Rmult_eq_reg_r in Heq; [ | lra].
    apply eq_IZR in Heq. lia. }
  assert (Hex : exists k, P k).
  { destruct (Hgrid d0 Hd0) as (k & [[Heq HP] | [_ Hlt]]); [ | lra].
    exists k. exact HP. }
  destruct (Z_least P _ Hex Hbound) as (k & [Hk Hxk] & Hmin).
  exists (IZR k * u). split; [exact Hk | ]. split; [exact Hxk | ].
  intros z Hz Hxz.
  destruct (Hgrid z Hz) as (kz & [[Heq HP] | [_ Hlt]]); [ | lra].
  rewrite Heq. apply Rmult_le_compat_r; [lra | ].
  apply IZR_le. apply Hmin. exact HP.
Qed.

(** The greatest double that is not above [x], when there is one. *)
Lemma double_below (x : R) :
  (exists d, is_double d /\ d <= x) ->
  exists d, is_double d /\ d <= x /\
            forall z, is_double z -> z <= x -> z <= d.
Proof.
  intros (d0 & Hd0 & Hx0).
  destruct (double_above (- x)) as (d & Hd & Hxd & Hmin).
  { exists (- d0). split; [apply double_opp; exact Hd0 | lra]. }
  exists (- d). split; [apply double_opp; exact Hd | ]. split; [lra | ].
  intros z Hz Hzx.
  specialize (Hmin (- z) (double_opp _ Hz)). lra.
Qed.

Lemma powerRZ_2_split (e e' : Z) :
  (e' <= e)%Z -> powerRZ 2 e = IZR (2 ^ (e - e')) * powerRZ 2 e'.
Proof.
  intros He. rewrite <- powerRZ_2_pos by lia.
  rewrite <- powerRZ_add by lra. f_equal. lia.
Qed.

(** Every double has a normal form: a mantissa of full width, or the
    least exponent. *)
Lemma double_normal (y : R) :
  is_double y ->
  exists m e : Z,
    (Z.abs m < 2 ^ 53)%Z /\ (-1074 <= e <= 971)%Z /\
    y = IZR m * powerRZ 2 e /\ (e = -1074 \/ 2 ^ 52 <= Z.abs m)%Z.
Proof.
  intros (m & e & Hm & He & ->).
  assert (H : forall n : nat, forall m e,
             Z.of_nat n = (e + 1074)%Z -> (Z.abs m < 2 ^ 53)%Z ->
             (e <= 971)%Z ->
             exists m' e' : Z,
               (Z.abs m' < 2 ^ 53)%Z /\ (-1074 <= e' <= 971)%Z /\
               IZR m * powerRZ 2 e = IZR m' * powerRZ 2 e' /\
               (e' = -1074 \/ 2 ^ 52 <= Z.abs m')%Z).
  { induction n as [| n IH]; intros m0 e0 Hn Hm0 He0.
    - exists m0, e0.
      split; [exact Hm0 | split; [lia | split; [reflexivity | left; lia]]].
    - destruct (Z_le_dec (2 ^ 52) (Z.abs m0)) as [Hbig | Hsmall].
      + exists m0, e0.
        split; [exact Hm0 | split; [lia | split; [reflexivity | right; exact Hbig]]].
      + destruct (IH (2 * m0)%Z (e0 - 1)%Z) as (m' & e' & Hm' & He' & Heq & Hnorm).
        * lia.
        * assert ((2 ^ 53 = 2 * 2 ^ 52)%Z) by reflexivity. lia.
        * lia.
        * exists m', e'.
          split; [exact Hm' | split; [exact He' | split; [ | exact Hnorm]]].
          rewrite <- Heq. rewrite mult_IZR.
          rewrite (powerRZ_2_split e0 (e0 - 1)) by lia.
          replace (e0 - (e0 - 1))%Z with 1%Z by lia.
          change (2 ^ 1)%Z with 2%Z. ring. }
  apply (H (Z.to_nat (e + 1074)) m e); lia.
Qed.

Lemma double_le_max (d : R) : is_double d -> d <= max_double.
Proof.
  intros (m & e & Hm & He & ->). unfold max_double.
  rewrite mult_IZR. rewrite <- (powerRZ_2_pos 971) by lia.
  rewrite (powerRZ_2_split 971 e) by lia.
  pose proof (powerRZ_2_gt_0 e) as Hp.
  assert (H1 : 1 <= IZR (2 ^ (971 - e))).
  { apply IZR_le. assert (0 < 2 ^ (971 - e))%Z by (apply Z.pow_pos_nonneg; lia). lia. }
  assert (H2 : IZR m <= IZR (2 ^ 53 - 1)) by (apply IZR_le; lia).
  assert (H3 : 0 <= IZR (2 ^ 53 - 1)) by (apply IZR_le; lia).
  rewrite <- Rmult_assoc.
  apply Rmult_le_compat_r; [lra | ]. nra.
Qed.

(** No double lies between a double in normal form and the next multiple
    of its unit. *)
Lemma double_gap (m e : Z) (d : R) :
  (0 <= m)%Z -> (-1074 <= e)%Z -> (e = -1074 \/ 2 ^ 52 <= m)%Z ->
  is_double d ->
  IZR m * powerRZ 2 e < d < IZR (m + 1) * powerRZ 2 e -> False.
Proof.
  intros Hm He Hnorm (m' & e' & Hm' & He' & ->) [Hlo Hhi].
  destruct (Z_le_dec e e') as [Hle | Hgt].
  - rewrite (powerRZ_2_split e' e) in Hlo, Hhi by lia.
    rewrite <- Rmult_assoc, <- mult_IZR in Hlo, Hhi.
    pose proof (powerRZ_2_gt_0 e) as Hp.
    apply Rmult_lt_reg_r in Hlo; [ | exact Hp].
    apply Rmult_lt_reg_r in Hhi; [ | exact Hp].
    apply lt_IZR in Hlo. apply lt_IZR in Hhi. lia.
  - destruct Hnorm as [Hmin | Hbig]; [lia | ].
    rewrite (powerRZ_2_split e e') in Hlo by lia.
    rewrite <- Rmult_assoc, <- mult_IZR in Hlo.
    pose proof (powerRZ_2_gt_0 e') as Hp.
    apply Rmult_lt_reg_r in Hlo; [ | exact Hp].
    apply lt_IZR in Hlo.
    assert (H2 : (2 ^ 1 <= 2 ^ (e - e'))%Z) by (apply Z.pow_le_mono_r; lia).
    change (2 ^ 1)%Z with 2%Z in H2.
    assert (H53 : (2 ^ 53 = 2 * 2 ^ 52)%Z) by reflexivity.
    assert (H52 : (0 < 2 ^ 52)%Z) by reflexivity.
    nia.
Qed.

Lemma even_double_opp (y : R) : even_double y -> even_double (- y).
Proof.
  intros (m & e & Hm & He & -> & Hnorm & Hev). exists (- m)%Z, e.
  rewrite Z.abs_opp, Z.even_opp, opp_IZR.
  repeat split; try assumption; try lia. ring.
Qed.

(** Of two neighbouring doubles one has an even mantissa. *)
Lemma neighbours_even_nonneg (lo hi : R) :
  is_double lo -> is_double hi -> 0 <= lo < hi ->
  (forall d, is_double d -> lo < d < hi -> False) ->
  even_double lo \/ even_double hi.
Proof.
  intros Hlo Hhi [H0 Hlt] Hgap.
  destruct (double_normal lo Hlo) as (m & e & Hm & He & Heq & Hnorm).
  pose proof (powerRZ_2_gt_0 e) as Hp.
  assert (Hm0 : (0 <= m)%Z).
  { apply le_IZR. rewrite Heq in H0.
    destruct (Rle_lt_dec 0 (IZR m)) as [H | H]; [exact H | ]. nra. }
  rewrite Z.abs_eq in Hm, Hnorm by exact Hm0.
  destruct (Z.even m) eqn:Hev.
  - left. exists m, e. rewrite Z.abs_eq by exact Hm0. auto.
  - right.
    set (c := IZR (m + 1) * powerRZ 2 e).
    assert (Hc : lo < c).
    { unfold c. rewrite Heq, plus_IZR. lra. }
    assert (Hsucc : Z.even (m + 1) = true).
    { rewrite Z.even_add, Hev. reflexivity. }
    assert (Hhic : c <= hi).
    { destruct (Rle_lt_dec c hi) as [H | H]; [exact H | ]. exfalso.
      apply (double_gap m e hi Hm0 ltac:(lia) Hnorm Hhi).
      rewrite <- Heq. fold c. lra. }
    destruct (Z_lt_dec (m + 1) (2 ^ 53)) as [Hsmall | Hfull].
    + assert (Hcd : is_double c).
      { exists (m + 1)%Z, e. rewrite Z.abs_eq by lia. auto. }
      assert (Hch : hi = c).
      { destruct (Rle_lt_dec hi c) as [H | H]; [lra | ]. exfalso.
        apply (Hgap c Hcd). lra. }
      rewrite Hch. exists (m + 1)%Z, e. rewrite Z.abs_eq by lia.
      repeat split; try assumption; try lia.
    + assert (Hm1 : (m + 1 = 2 ^ 53)%Z) by lia.
      destruct (Z_lt_dec e 971) as [He1 | He1].
      * assert (Hc' : c = IZR (2 ^ 52) * powerRZ 2 (e + 1)).
        { unfold c. rewrite Hm1. rewrite (powerRZ_2_split (e + 1) e) by lia.
          replace (e + 1 - e)%Z with 1%Z by lia.
          rewrite <- Rmult_assoc, <- mult_IZR. reflexivity. }
        assert (Hcd : is_double c).
        { exists (2 ^ 52)%Z, (e + 1)%Z. repeat split; try lia. exact Hc'. }
        assert (Hch : hi = c).
        { destruct (Rle_lt_dec hi c) as [H | H]; [lra | ]. exfalso.
          apply (Hgap c Hcd). lra. }
        rewrite Hch. exists (2 ^ 52)%Z, (e + 1)%Z.
        repeat split; try lia; try reflexivity. exact Hc'.
      * exfalso. pose proof (double_le_max hi Hhi) as Hmax.
        assert (Hlomax : lo = max_double).
        { unfold max_double. rewrite mult_IZR, <- (powerRZ_2_pos 971) by lia.
          rewrite Heq. f_equal; [f_equal; lia | f_equal; lia]. }
        lra.
Qed.

Lemma neighbours_even (lo hi : R) :
  is_double lo -> is_double hi -> lo < hi ->
  (forall d, is_double d -> lo < d < hi -> False) ->
  even_double lo \/ even_double hi.
Proof.
  intros Hlo Hhi Hlt Hgap.
  destruct (Rle_lt_dec 0 lo) as [H0 | H0].
  - apply neighbours_even_nonneg; auto.
  - destruct (Rle_lt_dec hi 0) as [H1 | H1].
    + destruct (neighbours_even_nonneg (- hi) (- lo)) as [H | H].
      * apply double_opp; exact Hhi.
      * apply double_opp; exact Hlo.
      * lra.
      * intros d Hd Hbetween. apply (Hgap (- d)); [apply double_opp; exact Hd | lra].
      * right. rewrite <- (Ropp_involutive hi). apply even_double_opp. exact H.
      * left. rewrite <- (Ropp_involutive lo). apply even_double_opp. exact H.
    + exfalso. apply (Hgap 0 double_0). lra.
Qed.

(** Every real has a nearest double, to even on a tie. *)
Lemma nearest_even_exists (x : R) : exists y, nearest_even x y.
Proof.
  assert (Hdist : forall y z, nearest x y -> nearest x z ->
                              Rabs (z - x) = Rabs (y - x)).
  { intros y z [Hy Hymin] [Hz Hzmin].
    specialize (Hymin z Hz). specialize (Hzmin y Hy). lra. }
  destruct (Classical_Prop.classic (exists d, is_double d /\ x <= d))
    as [Hup | Hnup];
  destruct (Classical_Prop.classic (exists d, is_double d /\ d <= x))
    as [Hdn | Hndn].
  - destruct (double_above x Hup) as (hi & Hhi & Hxhi & Hmin).
    destruct (double_below x Hdn) as (lo & Hlo & Hxlo & Hmax).
    assert (Nhi : hi - x <= x - lo -> nearest x hi).
    { intros Hc. split; [exact Hhi | ]. intros z Hz.
      rewrite (Rabs_pos_eq (hi - x)) by lra.
      destruct (Rle_lt_dec x z) as [Hxz | Hzx].
      * specialize (Hmin z Hz Hxz). rewrite Rabs_pos_eq by lra. lra.
      * specialize (Hmax z Hz (Rlt_le _ _ Hzx)).
        rewrite Rabs_left by lra. lra. }
    assert (Nlo : x - lo <= hi - x -> nearest x lo).
    { intros Hc. split; [exact Hlo | ]. intros z Hz.
      rewrite (Rabs_minus_sym lo x). rewrite (Rabs_pos_eq (x - lo)) by lra.
      destruct (Rle_lt_dec x z) as [Hxz | Hzx].
      * specialize (Hmin z Hz Hxz). rewrite Rabs_pos_eq by lra. lra.
      * specialize (Hmax z Hz (Rlt_le _ _ Hzx)).
        rewrite Rabs_left by lra. lra. }
    assert (Hside : forall z, is_double z ->
              (x <= z /\ hi <= z /\ Rabs (z - x) = z - x) \/
              (z <= x /\ z <= lo /\ Rabs (z - x) = x - z)).
    { intros z Hz. destruct (Rle_lt_dec x z) as [Hxz | Hzx].
      - left. specialize (Hmin z Hz Hxz). rewrite Rabs_pos_eq by lra. auto.
      - right. specialize (Hmax z Hz (Rlt_le _ _ Hzx)).
        rewrite Rabs_left by lra. repeat split; lra. }
    destruct (Rtotal_order (hi - x) (x - lo)) as [Hc | [Hc | Hc]].
    + exists hi. split; [apply Nhi; lra | ].
      intros z Hz. left.
      pose proof (Hdist hi z (Nhi ltac:(lra)) Hz) as Hd.
      rewrite (Rabs_pos_eq (hi - x)) in Hd by lra.
      destruct (Hside z (proj1 Hz)) as [(_ & H1 & H2) | (_ & H1 & H2)]; lra.
    + destruct (Req_dec lo hi) as [Heq | Hneq].
      * exists hi. split; [apply Nhi; lra | ].
        intros z Hz. left.
        pose proof (Hdist hi z (Nhi ltac:(lra)) Hz) as Hd.
        rewrite (Rabs_pos_eq (hi - x)) in Hd by lra.
        destruct (Hside z (proj1 Hz)) as [(_ & H1 & H2) | (_ & H1 & H2)]; lra.
      * assert (Hlt : lo < hi) by lra.
        assert (Hgap : forall d, is_double d -> lo < d < hi -> False).
        { intros d Hd Hbetween.
          destruct (Hside d Hd) as [(_ & H1 & _) | (_ & H1 & _)]; lra. }
        assert (Htwo : forall z, nearest x z -> z = lo \/ z = hi).
        { intros z Hz.
          pose proof (Hdist hi z (Nhi ltac:(lra)) Hz) as Hd.
          rewrite (Rabs_pos_eq (hi - x)) in Hd by lra.
          destruct (Hside z (proj1 Hz)) as [(_ & H1 & H2) | (_ & H1 & H2)].
          - right. lra.
          - left. lra. }
        destruct (neighbours_even lo hi Hlo Hhi Hlt Hgap) as [Hev | Hev].
        -- exists lo. split; [apply Nlo; lra | ].
           intros z Hz. right. exact Hev.
        -- exists hi. split; [apply Nhi; lra | ].
           intros z Hz. right. exact Hev.
    + exists lo. split; [apply Nlo; lra | ].
      intros z Hz. left.
      pose proof (Hdist lo z (Nlo ltac:(lra)) Hz) as Hd.
      rewrite (Rabs_minus_sym lo x), (Rabs_pos_eq (x - lo)) in Hd by lra.
      destruct (Hside z (proj1 Hz)) as [(_ & H1 & H2) | (_ & H1 & H2)]; lra.
  - destruct (double_above x Hup) as (hi & Hhi & Hxhi & Hmin).
    assert (Hall : forall z, is_double z -> hi <= z /\ Rabs (z - x) = z - x).
    { intros z Hz. destruct (Rle_lt_dec x z) as [Hxz | Hzx].
      - specialize (Hmin z Hz Hxz). rewrite Rabs_pos_eq by lra. auto.
      - exfalso. apply Hndn. exists z. split; [exact Hz | lra]. }
    assert (Nhi : nearest x hi).
    { split; [exact Hhi | ]. intros z Hz.
      destruct (Hall z Hz) as [H1 H2]. destruct (Hall hi Hhi) as [_ H3]. lra. }
    exists hi. split; [exact Nhi | ]. intros z Hz. left.
    pose proof (Hdist hi z Nhi Hz) as Hd.
    destruct (Hall z (proj1 Hz)) as [H1 H2]. destruct (Hall hi Hhi) as [_ H3]. lra.
  - destruct (double_below x Hdn) as (lo & Hlo & Hxlo & Hmax).
    assert (Hall : forall z, is_double z -> z <= lo /\ Rabs (z - x) = x - z).
    { intros z Hz. destruct (Rle_lt_dec x z) as [Hxz | Hzx].
      - exfalso. apply Hnup. exists z. split; [exact Hz | lra].
      - specialize (Hmax z Hz (Rlt_le _ _ Hzx)).
        rewrite Rabs_left by lra. split; lra. }
    assert (Nlo : nearest x lo).
    { split; [exact Hlo | ]. intros z Hz.
      destruct (Hall z Hz) as [H1 H2]. destruct (Hall lo Hlo) as [_ H3]. lra. }
    exists lo. split; [exact Nlo | ]. intros z Hz. left.
    pose proof (Hdist lo z Nlo Hz) as Hd.
    destruct (Hall z (proj1 Hz)) as [H1 H2]. destruct (Hall lo Hlo) as [_ H3]. lra.
  - exfalso. destruct (Rle_lt_dec x 0) as [H | H].
    + apply Hnup. exists 0. split; [exact double_0 | exact H].
    + apply Hndn. exists 0. split; [exact double_0 | lra].
Qed.

Lemma round_nearest_even (x : R) : nearest_even x (round x).
Proof.
  unfold round. apply ClassicalEpsilon.epsilon_spec. apply nearest_even_exists.
Qed.

Lemma round_nearest (x : R) : nearest x (round x).
Proof. apply round_nearest_even. Qed.

Lemma round_is_double (x : R) : is_double (round x).
Proof. apply round_nearest. Qed.

(** A double is its own rounding. *)
Lemma round_double (x : R) : is_double x -> round x = x.
Proof.
  intros Hx. destruct (round_nearest x) as [_ Hmin].
  specialize (Hmin x Hx). rewrite Rminus_diag, Rabs_R0 in Hmin.
  pose proof (Rabs_pos (round x - x)) as Hpos.
  assert (H0 : Rabs (round x - x) = 0) by lra.
  destruct (Req_dec (round x - x) 0) as [E | N]; [lra | ].
  apply Rabs_no_R0 in N. contradiction.
Qed.

(** Rounding does not cross a double. *)
Lemma round_le (x d : R) : is_double d -> x <= d -> round x <= d.
Proof.
  intros Hd Hxd. destruct (round_nearest x) as [_ Hmin].
  specialize (Hmin d Hd). rewrite (Rabs_pos_eq (d - x)) in Hmin by lra.
  destruct (Rle_lt_dec (round x) d) as [H | H]; [exact H | ].
  rewrite Rabs_pos_eq in Hmin by lra. lra.
Qed.

Lemma round_ge (x d : R) : is_double d -> d <= x -> d <= round x.
Proof.
  intros Hd Hdx. destruct (round_nearest x) as [_ Hmin].
  specialize (Hmin d Hd). rewrite (Rabs_left1 (d - x)) in Hmin by lra.
  destruct (Rle_lt_dec d (round x)) as [H | H]; [exact H | ].
  rewrite Rabs_left in Hmin by lra. lra.
Qed.

(** ** Facts about the numpy model, continued *)

Lemma ceil_le (x : R) (z : Z) : x <= IZR z -> (ceil x <= z)%Z.
Proof.
  intros Hx. destruct (ceil_spec x) as [Clo _].
  apply Z.lt_succ_r. apply lt_IZR. rewrite succ_IZR. lra.
Qed.

Lemma ceil_ge (x : R) (z : Z) : IZR z <= x -> (z <= ceil x)%Z.
Proof.
  intros Hx. destruct (ceil_spec x) as [_ Chi].
  apply le_IZR. lra.
Qed.

Lemma ceil_gt (x : R) (z : Z) : IZR z < x -> (z < ceil x)%Z.
Proof.
  intros Hx. destruct (ceil_spec x) as [_ Chi].
  apply lt_IZR. lra.
Qed.

(** Doubles met below. *)
Lemma double_intro (m e : Z) (x : R) :
  (Z.abs m < 2 ^ 53)%Z -> (-1074 <= e <= 971)%Z ->
  x = IZR m * powerRZ 2 e -> is_double x.
Proof. intros Hm He Hx. exists m, e. auto. Qed.

Lemma double_IZR (n : Z) : (Z.abs n < 2 ^ 53)%Z -> is_double (IZR n).
Proof.
  intros Hn. apply (double_intro n 0); [exact Hn | lia | simpl; lra].
Qed.

Lemma double_scaled (m e : Z) :
  (Z.abs m < 2 ^ 53)%Z -> (0 <= e <= 971)%Z -> is_double (IZR (m * 2 ^ e)).
Proof.
  intros Hm He. apply (double_intro m e); [exact Hm | lia | ].
  rewrite mult_IZR, powerRZ_2_pos by lia. reflexivity.
Qed.

Lemma double_ratio (m e : Z) :
  (Z.abs m < 2 ^ 53)%Z -> (0 <= e <= 1074)%Z -> is_double (IZR m / IZR (2 ^ e)).
Proof.
  intros Hm He. apply (double_intro m (- e)); [exact Hm | lia | ].
  rewrite powerRZ_2_neg by lia. reflexivity.
Qed.

(** A tie: [1 + 2^-53] lies midway between the doubles [1] and
    [1 + 2^-52], and goes to [1], whose mantissa [2^52] is even. *)
Example round_tie_to_even : round (1 + / 2 ^ 53) = 1.
Proof.
  assert (H53 : 2 ^ 53 = 9007199254740992) by (rewrite pow_IZR; reflexivity).
  rewrite H53.
  assert (Hp : powerRZ 2 (-52) = / 4503599627370496).
  { exact (powerRZ_2_neg 52 ltac:(lia)). }
  assert (Hone : 1 = IZR (2 ^ 52) * powerRZ 2 (-52)).
  { rewrite Hp. change (2 ^ 52)%Z with 4503599627370496%Z. lra. }
  assert (Hnext : 1 + / 4503599627370496 = IZR (2 ^ 52 + 1) * powerRZ 2 (-52)).
  { rewrite Hp. change (2 ^ 52 + 1)%Z with 4503599627370497%Z. lra. }
  assert (Hgap : forall z, is_double z -> z <= 1 \/ 1 + / 4503599627370496 <= z).
  { intros z Hz. destruct (Rle_lt_dec z 1) as [H | H]; [left; exact H | ].
    destruct (Rle_lt_dec (1 + / 4503599627370496) z) as [H' | H'];
      [right; exact H' | ].
    exfalso. apply (double_gap (2 ^ 52) (-52) z); try lia; [exact Hz | ].
    rewrite <- Hone, <- Hnext. lra. }
  assert (Hd1 : is_double 1) by (apply (double_IZR 1); reflexivity).
  assert (N1 : nearest (1 + / 9007199254740992) 1).
  { split; [exact Hd1 | ]. intros z Hz.
    rewrite (Rabs_left (1 - _)) by lra.
    destruct (Hgap z Hz) as [H | H].
    - rewrite Rabs_left by lra. lra.
    - rewrite Rabs_pos_eq by lra. lra. }
  destruct (round_nearest_even (1 + / 9007199254740992)) as [[Hy Hymin] Htie].
  set (y := round (1 + / 9007199254740992)) in *.
  destruct (Htie 1 N1) as [Heq | Hev]; [symmetry; exact Heq | ].
  (* the rounding is one of the two neighbours *)
  specialize (Hymin 1 Hd1).
  rewrite (Rabs_left (1 - _)) in Hymin by lra.
  destruct (Hgap _ Hy) as [H | H].
  - rewrite Rabs_left in Hymin by lra. lra.
  - rewrite Rabs_pos_eq in Hymin by lra.
    assert (Hhi : y = 1 + / 4503599627370496) by lra.
    exfalso. rewrite Hhi, Hnext in Hev.
    destruct Hev as (m & e & Hm & He & Heq & Hnorm & Heven).
    pose proof (powerRZ_2_gt_0 e) as Hpe. pose proof (powerRZ_2_gt_0 (-52)) as Hp52.
    destruct (Z_le_dec (-52) e) as [Hle | Hgt].
    + rewrite (powerRZ_2_split e (-52)) in Heq by lia.
      rewrite <- Rmult_assoc, <- mult_IZR in Heq.
      apply Rmult_eq_reg_r in Heq; [ | lra]. apply eq_IZR in Heq.
      assert (Hodd : Z.even (2 ^ 52 + 1) = false) by reflexivity.
      rewrite Heq, Z.even_mul, Heven in Hodd. discriminate.
    + rewrite (powerRZ_2_split (-52) e) in Heq by lia.
      rewrite <- Rmult_assoc, <- mult_IZR in Heq.
      apply Rmult_eq_reg_r in Heq; [ | lra]. apply eq_IZR in Heq.
      assert (H2 : (2 ^ 1 <= 2 ^ (-52 - e))%Z) by (apply Z.pow_le_mono_r; lia).
      change (2 ^ 1)%Z with 2%Z in H2.
      assert (Hc : (2 ^ 52 = 4503599627370496)%Z) by reflexivity.
      assert (Hc' : (2 ^ 53 = 9007199254740992)%Z) by reflexivity.
      nia.
Qed.

Lemma double_pi : is_double pi.
Proof. apply (double_ratio 884279719003555 48); [reflexivity | lia]. Qed.

Lemma double_2pi : is_double (2 * pi).
Proof.
  replace (2 * pi) with (IZR 884279719003555 / IZR (2 ^ 47)).
  - apply double_ratio; [reflexivity | lia].
  - unfold pi. change (2 ^ 47)%Z with 140737488355328%Z. lra.
Qed.

Lemma fsub_2pi_0 : fsub (2 * pi) 0 = 2 * pi.
Proof. unfold fsub. rewrite Rminus_0_r. apply round_double, double_2pi. Qed.

Lemma pi_bounds : 3141592653589793 / 1000000000000000 < pi < 3141592653589794 / 1000000000000000.
Proof. unfold pi. lra. Qed.

Lemma PI_above_pi : pi < PI.
Proof.
  destruct (PI_2_3_7_ineq 7) as [Hlo _].
  unfold sum_f_R0, tg_alt, PI_2_3_7_tg, Ratan_seq in Hlo.
  simpl in Hlo. unfold pi. lra.
Qed.

Lemma PI_near_pi : PI < pi + / 1000000000000000.
Proof.
  destruct (PI_2_3_7_ineq 8) as [_ Hup].
  unfold sum_f_R0, tg_alt, PI_2_3_7_tg, Ratan_seq in Hup.
  simpl in Hup. unfold pi. lra.
Qed.

Lemma arange_zero (start stop : R) :
  arange start stop 0 = inl ZeroDivisionError.
Proof.
  unfold arange, calc_length. destruct (Req_dec_T 0 0) as [_ | N]; [reflexivity | ].
  exfalso. apply N. reflexivity.
Qed.

Lemma arange_revolution (step : R) :
  step <> 0 ->
  (0 < ceil (fdiv (2 * pi) step) < 2 ^ 60)%Z ->
  arange 0 (2 * pi) step
  = inr (List.map (fun i => 0 + INR i * step)
                  (seq 0 (Z.to_nat (ceil (fdiv (2 * pi) step))))).
Proof.
  intros Hstep Hn. unfold arange, calc_length. rewrite fsub_2pi_0.
  destruct (Req_dec_T step 0) as [E | _]; [contradiction | ]. cbv zeta.
  destruct (Z.ltb_spec (ceil (fdiv (2 * pi) step)) (- 2 ^ 63)) as [H1 | H1]; [lia | ].
  destruct (Z.ltb_spec (2 ^ 63) (ceil (fdiv (2 * pi) step))) as [H2 | H2]; [lia | ].
  cbn [orb].
  destruct (Z.eqb_spec (ceil (fdiv (2 * pi) step)) (2 ^ 63)) as [H3 | H3]; [lia | ].
  destruct (Z.leb_spec (ceil (fdiv (2 * pi) step)) 0) as [H4 | H4]; [lia | ].
  destruct (Z.leb_spec (2 ^ 60) (ceil (fdiv (2 * pi) step))) as [H5 | H5]; [lia | ].
  reflexivity.
Qed.

Lemma arange_revolution_empty (step : R) :
  step <> 0 ->
  (- 2 ^ 63 <= ceil (fdiv (2 * pi) step) <= 0)%Z ->
  arange 0 (2 * pi) step = inr [].
Proof.
  intros Hstep Hn. unfold arange, calc_length. rewrite fsub_2pi_0.
  destruct (Req_dec_T step 0) as [E | _]; [contradiction | ]. cbv zeta.
  destruct (Z.ltb_spec (ceil (fdiv (2 * pi) step)) (- 2 ^ 63)) as [H1 | H1]; [lia | ].
  destruct (Z.ltb_spec (2 ^ 63) (ceil (fdiv (2 * pi) step))) as [H2 | H2]; [lia | ].
  cbn [orb].
  destruct (Z.eqb_spec (ceil (fdiv (2 * pi) step)) (2 ^ 63)) as [H3 | H3]; [lia | ].
  destruct (Z.leb_spec (ceil (fdiv (2 * pi) step)) 0) as [H4 | H4]; [reflexivity | lia].
Qed.

Lemma arange_revolution_overflow (step : R) :
  step <> 0 ->
  (ceil (fdiv (2 * pi) step) < - 2 ^ 63 \/
   2 ^ 60 <= ceil (fdiv (2 * pi) step) /\ ceil (fdiv (2 * pi) step) <> 2 ^ 63)%Z ->
  exists msg, arange 0 (2 * pi) step = inl (ValueError msg).
Proof.
  intros Hstep Hn. unfold arange, calc_length. rewrite fsub_2pi_0.
  destruct (Req_dec_T step 0) as [E | _]; [contradiction | ]. cbv zeta.
  destruct (Z.ltb_spec (ceil (fdiv (2 * pi) step)) (- 2 ^ 63)) as [H1 | H1];
    [eexists; reflexivity | ].
  destruct (Z.ltb_spec (2 ^ 63) (ceil (fdiv (2 * pi) step))) as [H2 | H2];
    [eexists; reflexivity | ].
  cbn [orb].
  destruct (Z.eqb_spec (ceil (fdiv (2 * pi) step)) (2 ^ 63)) as [H3 | H3]; [lia | ].
  destruct (Z.leb_spec (ceil (fdiv (2 * pi) step)) 0) as [H4 | H4]; [lia | ].
  destruct (Z.leb_spec (2 ^ 60) (ceil (fdiv (2 * pi) step))) as [H5 | H5]; [ | lia].
  eexists; reflexivity.
Qed.

Lemma quotient_step (x step : R) : step <> 0 -> x / step * step = x.
Proof. intros H. field. exact H. Qed.

(** Number of turns for a step between a millionth and a revolution. *)
Lemma turns_moderate (step : R) :
  / 1000000 <= step < 2 * PI ->
  (1 <= ceil (fdiv (2 * pi) step) <= 7000000)%Z.
Proof.
  intros [Hlo Hhi].
  pose proof pi_bounds as [Hp1 Hp2]. pose proof PI_near_pi as HP.
  assert (Hq : 2 * pi / step * step = 2 * pi) by (apply quotient_step; lra).
  set (q := 2 * pi / step) in *.
  assert (Hq1 : 1 / 2 <= q) by nra.
  assert (Hq2 : q <= 7000000) by nra.
  unfold fdiv. fold q. split.
  - assert (Hr : IZR 1 / IZR (2 ^ 1) <= round q).
    { apply round_ge; [apply double_ratio; [reflexivity | lia] | ].
      change (2 ^ 1)%Z with 2%Z. lra. }
    change (2 ^ 1)%Z with 2%Z in Hr.
    assert (H0 : (0 < ceil (round q))%Z) by (apply ceil_gt; lra). lia.
  - apply ceil_le. apply round_le; [apply double_IZR; reflexivity | exact Hq2].
Qed.

(** The double quotient against the quotient of the reals: the same number
    of turns, or one less. *)
Lemma turns_vs_real (step : R) :
  / 1000000 <= step < 2 * PI ->
  (ceil (2 * PI / step) - 1 <= ceil (fdiv (2 * pi) step)
     <= ceil (2 * PI / step))%Z.
Proof.
  intros [Hlo Hhi].
  pose proof pi_bounds as [Hp1 Hp2]. pose proof PI_near_pi as HP.
  pose proof PI_above_pi as HP'.
  pose proof (turns_moderate step (conj Hlo Hhi)) as [Hn1 Hn2].
  assert (Hq : 2 * pi / step * step = 2 * pi) by (apply quotient_step; lra).
  assert (HQ : 2 * PI / step * step = 2 * PI) by (apply quotient_step; lra).
  unfold fdiv in *.
  set (q := 2 * pi / step) in *. set (Q := 2 * PI / step) in *.
  assert (Hq0 : 0 < q) by (unfold q; apply Rdiv_lt_0_compat; lra).
  assert (HqQ : q < Q) by nra.
  assert (HQq : Q < q + / 4) by nra.
  assert (HQ2 : Q <= 7000000) by nra.
  pose proof (ceil_spec Q) as [CQ1 CQ2].
  pose proof (ceil_spec (round q)) as [Cr1 Cr2].
  assert (HM : (ceil Q <= 7000000)%Z) by (apply ceil_le; exact HQ2).
  assert (HM0 : (0 < ceil Q)%Z) by (apply ceil_gt; lra).
  split.
  - (* q is below n + 1/2, a double *)
    assert (Hhalf : q < IZR (ceil (round q)) + / 2).
    { destruct (Rlt_le_dec q (IZR (ceil (round q)) + / 2)) as [H | H]; [exact H | ].
      exfalso.
      assert (Hd : is_double (IZR (2 * ceil (round q) + 1) / IZR (2 ^ 1))).
      { apply double_ratio; [ | lia].
        assert ((2 ^ 53 = 9007199254740992)%Z) by reflexivity. lia. }
      change (2 ^ 1)%Z with 2%Z in Hd.
      pose proof (round_ge q _ Hd) as Hge.
      rewrite plus_IZR, mult_IZR in Hge. lra. }
    assert (HZ : (ceil Q < ceil (round q) + 2)%Z).
    { apply lt_IZR. rewrite plus_IZR. lra. }
    lia.
  - apply ceil_le. apply round_le.
    + apply double_IZR.
      assert ((2 ^ 53 = 9007199254740992)%Z) by reflexivity. lia.
    + lra.
Qed.

Lemma max_double_pos : 1 <= max_double.
Proof. unfold max_double. apply IZR_le. vm_compute. discriminate. Qed.

(** A finite step of a revolution or more: one turn. *)
Lemma turns_wide (step : R) :
  2 * pi <= step <= max_double ->
  ceil (fdiv (2 * pi) step) = 1%Z.
Proof.
  intros [Hlo Hhi]. pose proof pi_bounds as [Hp1 Hp2].
  assert (Hq : 2 * pi / step * step = 2 * pi) by (apply quotient_step; lra).
  unfold fdiv. set (q := 2 * pi / step) in *.
  assert (Hq1 : q <= 1) by nra.
  assert (Hu : IZR 1 / IZR (2 ^ 1074) <= q).
  { assert (H2 : 0 < IZR (2 ^ 1074)) by (apply IZR_pow2_pos; lia).
    assert (Hm : max_double <= IZR (2 ^ 1074)).
    { unfold max_double. apply IZR_le. vm_compute. discriminate. }
    apply Rmult_le_reg_r with (r := IZR (2 ^ 1074)); [exact H2 | ].
    unfold Rdiv. rewrite Rmult_assoc, Rinv_l by lra.
    assert (Hqpos : 0 < q).
    { unfold q. apply Rdiv_lt_0_compat; lra. }
    nra. }
  apply ceil_unique. split.
  - assert (Hr : IZR 1 / IZR (2 ^ 1074) <= round q).
    { apply round_ge; [apply double_ratio; [reflexivity | lia] | exact Hu ]. }
    assert (H2 : 0 < IZR (2 ^ 1074)) by (apply IZR_pow2_pos; lia).
    assert (0 < IZR 1 / IZR (2 ^ 1074)) by (apply Rdiv_lt_0_compat; lra).
    lra.
  - apply round_le; [apply double_IZR; reflexivity | exact Hq1].
Qed.

(** Steps backwards: no turn, unless the step is so small that the length
    leaves the range of [intp]. *)
Lemma turns_negative (step : R) :
  step <= - / 2 ^ 60 ->
  (- 2 ^ 63 <= ceil (fdiv (2 * pi) step) <= 0)%Z.
Proof.
  intros Hstep. pose proof pi_bounds as [Hp1 Hp2].
  assert (H60 : 2 ^ 60 = 1152921504606846976) by (rewrite pow_IZR; reflexivity).
  rewrite H60 in Hstep.
  assert (Hq : 2 * pi / step * step = 2 * pi) by (apply quotient_step; lra).
  unfold fdiv. set (q := 2 * pi / step) in *.
  assert (Hq0 : q <= 0) by nra.
  assert (Hq1 : IZR (- 2 ^ 63) <= q).
  { change (- 2 ^ 63)%Z with (-9223372036854775808)%Z. nra. }
  split.
  - apply ceil_ge. apply round_ge; [ | exact Hq1].
    replace (- 2 ^ 63)%Z with ((-1) * 2 ^ 63)%Z by reflexivity.
    apply double_scaled; [reflexivity | lia].
  - apply ceil_le. apply round_le; [exact double_0 | exact Hq0].
Qed.

Lemma turns_tiny_positive (step : R) :
  0 < step <= / 2 ^ 61 ->
  (3 * 2 ^ 62 <= ceil (fdiv (2 * pi) step))%Z.
Proof.
  intros [Hpos Hstep]. pose proof pi_bounds as [Hp1 Hp2].
  assert (H61 : 2 ^ 61 = 2305843009213693952) by (rewrite pow_IZR; reflexivity).
  rewrite H61 in Hstep.
  assert (Hq : 2 * pi / step * step = 2 * pi) by (apply quotient_step; lra).
  unfold fdiv. set (q := 2 * pi / step) in *.
  assert (Hq1 : IZR (3 * 2 ^ 62) <= q).
  { change (3 * 2 ^ 62)%Z with 13835058055282163712%Z.
    assert (0 < q) by (unfold q; apply Rdiv_lt_0_compat; lra). nra. }
  apply ceil_ge. apply round_ge; [ | exact Hq1].
  apply double_scaled; [reflexivity | lia].
Qed.

Lemma turns_tiny_negative (step : R) :
  - / 2 ^ 61 <= step < 0 ->
  (ceil (fdiv (2 * pi) step) <= - (3 * 2 ^ 62))%Z.
Proof.
  intros [Hstep Hneg]. pose proof pi_bounds as [Hp1 Hp2].
  assert (H61 : 2 ^ 61 = 2305843009213693952) by (rewrite pow_IZR; reflexivity).
  rewrite H61 in Hstep.
  assert (Hq : 2 * pi / step * step = 2 * pi) by (apply quotient_step; lra).
  unfold fdiv. set (q := 2 * pi / step) in *.
  assert (Hq1 : q <= IZR (- 3 * 2 ^ 62)).
  { change (- 3 * 2 ^ 62)%Z with (-13835058055282163712)%Z.
    assert (q < 0).
    { unfold q. unfold Rdiv. apply Rmult_pos_neg; [lra | ].
      apply Rinv_lt_0_compat. exact Hneg. }
    nra. }
  replace (- (3 * 2 ^ 62))%Z with (- 3 * 2 ^ 62)%Z by reflexivity.
  apply ceil_le. apply round_le; [ | exact Hq1].
  apply double_scaled; [reflexivity | lia].
Qed.

(** What [arange] returns, when it returns. *)
Lemma arange_values (start stop step : R) (thetas : list R) :
  arange start stop step = inr thetas ->
  thetas = List.map (fun i => start + INR i * step) (seq 0 (length thetas)).
Proof.
  unfold arange. destruct (calc_length start stop step) as [e | len];
    [discriminate | ].
  destruct (len <=? 0)%Z.
  - intros Heq. injection Heq as <-. reflexivity.
  - destruct (2 ^ 60 <=? len)%Z; [discriminate | ].
    intros Heq. injection Heq as <-.
    rewrite length_map, length_seq. reflexivity.
Qed.

Lemma arange_lookup (start stop step : R) (thetas : list R) (k : nat) :
  arange start stop step = inr thetas ->
  (k < arange_len start stop step)%nat ->
  thetas !! k = Some (start + INR k * step).
Proof.
  intros Heq Hk. unfold arange_len in Hk. rewrite Heq in Hk.
  rewrite (arange_values _ _ _ _ Heq).
  rewrite list_lookup_fmap. rewrite lookup_seq_lt by exact Hk.
  reflexivity.
Qed.

Lemma arange_length (start stop step : R) (thetas : list R) :
  arange start stop step = inr thetas ->
  length thetas = arange_len start stop step.
Proof. intros Heq. unfold arange_len. rewrite Heq. reflexivity. Qed.

(** A call that delivers a value does not raise. *)
Lemma arange_len_pos (start stop step : R) (k : nat) :
  (k < arange_len start stop step)%nat ->
  exists thetas, arange start stop step = inr thetas.
Proof.
  unfold arange_len. destruct (arange start stop step) as [e | thetas].
  - intros Hk. lia.
  - intros _. exists thetas. reflexivity.
Qed.

Lemma arange_len_revolution (step : R) :
  step <> 0 ->
  (0 < ceil (fdiv (2 * pi) step) < 2 ^ 60)%Z ->
  arange_len 0 (2 * pi) step = Z.to_nat (ceil (fdiv (2 * pi) step)).
Proof.
  intros Hstep Hn. unfold arange_len.
  rewrite (arange_revolution step Hstep Hn).
  rewrite length_map. apply length_seq.
Qed.

(** With the step of the script the quotient is [4 pi], a double. *)
Lemma turns_scenario : ceil (fdiv (2 * pi) 0.5) = 13%Z.
Proof.
  unfold fdiv.
  replace (2 * pi / 0.5) with (IZR 884279719003555 / IZR (2 ^ 46)).
  - rewrite round_double by (apply double_ratio; [reflexivity | lia]).
    apply ceil_unique. change (2 ^ 46)%Z with 70368744177664%Z. lra.
  - unfold pi. change (2 ^ 46)%Z with 70368744177664%Z. lra.
Qed.

Lemma arange_len_scenario : arange_len 0 (2 * pi) 0.5 = 13%nat.
Proof.
  rewrite arange_len_revolution.
  - rewrite turns_scenario. reflexivity.
  - lra.
  - rewrite turns_scenario. lia.
Qed.

(** With a step of a quarter of the double [2 pi] the quotient is 4. *)
Lemma turns_quarter : ceil (fdiv (2 * pi) (pi / 2)) = 4%Z.
Proof.
  unfold fdiv.
  replace (2 * pi / (pi / 2)) with (IZR 4) by (unfold pi; lra).
  rewrite round_double by (apply double_IZR; reflexivity).
  apply ceil_unique. lra.
Qed.


(** ** The loop of generate_staircase *)

Section StaircaseLoop.

Variables (radius angular_step height roughness mu step_dim_x step_dim_y : R).

Local Abbreviation loop_body :=
  (Staircase.loop_body radius angular_step height roughness mu
                       step_dim_x step_dim_y).
Local Abbreviation loop :=
  (Staircase.loop radius angular_step height roughness mu
                  step_dim_x step_dim_y).

Lemma skip_skip (a b : nat) (w : world) : skip a (skip b w) = skip (b + a) w.
Proof.
  unfold skip, advance. simpl. do 2 f_equal. lia.
Qed.

Lemma skip_0 (w : world) : skip 0 w = w.
Proof.
  destruct w as [[smp cur] tr]. unfold skip, advance. simpl.
  do 2 f_equal. lia.
Qed.

Lemma loop_body_world (theta : R) (w : world) :
  snd (loop_body theta w) = skip 6 w.
Proof.
  unfold Staircase.loop_body. simpl. apply (skip_skip 3 3).
Qed.

Lemma loop_world (thetas : list R) :
  forall steps w,
    snd (loop thetas steps w) = skip (6 * length thetas) w.
Proof.
  induction thetas as [| theta rest IH]; intros steps w.
  - simpl. symmetry. apply skip_0.
  - cbn [Staircase.loop].
    pose proof (loop_body_world theta w) as Hw.
    destruct (loop_body theta w) as [[l r] w'] eqn:Hb. simpl in Hw. subst w'.
    rewrite IH. rewrite skip_skip. f_equal. simpl. lia.
Qed.

Lemma loop_length (thetas : list R) :
  forall steps w,
    length (fst (loop thetas steps w)) = (length steps + 2 * length thetas)%nat.
Proof.
  induction thetas as [| theta rest IH]; intros steps w.
  - simpl. lia.
  - cbn [Staircase.loop].
    destruct (loop_body theta w) as [[l r] w'].
    rewrite IH. rewrite !length_app. simpl. lia.
Qed.

(** What is already in [steps] stays where it is. *)
Lemma loop_prefix (thetas : list R) :
  forall steps w i,
    (i < length steps)%nat ->
    fst (loop thetas steps w) !! i = steps !! i.
Proof.
  induction thetas as [| theta rest IH]; intros steps w i Hi.
  - reflexivity.
  - cbn [Staircase.loop].
    destruct (loop_body theta w) as [[l r] w'].
    rewrite IH by (rewrite !length_app; simpl; lia).
    rewrite !lookup_app_l by (rewrite ?length_app; simpl; lia).
    reflexivity.
Qed.

(** The [k]-th turn of the loop appends its left contact at [2k] and its
    right contact at [2k+1], built from the generator as it is after the
    [6k] doubles of the turns before. *)
Lemma loop_lookup (thetas : list R) :
  forall steps w k theta,
    thetas !! k = Some theta ->
    fst (loop thetas steps w) !! (length steps + 2 * k)%nat
      = Some (fst (fst (loop_body theta (skip (6 * k) w)))) /\
    fst (loop thetas steps w) !! (length steps + 2 * k + 1)%nat
      = Some (snd (fst (loop_body theta (skip (6 * k) w)))).
Proof.
  induction thetas as [| theta0 rest IH]; intros steps w k theta Hk.
  - discriminate.
  - cbn [Staircase.loop].
    pose proof (loop_body_world theta0 w) as Hw.
    destruct (loop_body theta0 w) as [[l r] w'] eqn:Hb. simpl in Hw. subst w'.
    destruct k as [| k'].
    + injection Hk as ->. rewrite skip_0, Hb. simpl.
      rewrite !loop_prefix by (rewrite !length_app; simpl; lia).
      split.
      * rewrite lookup_app_l by (rewrite length_app; simpl; lia).
        replace (length steps + 0)%nat with (length steps) by lia.
        apply list_lookup_middle. reflexivity.
      * replace (length steps + 0 + 1)%nat with (length (steps ++ [l]))
          by (rewrite length_app; simpl; lia).
        apply list_lookup_middle. reflexivity.
    + simpl in Hk.
      destruct (IH ((steps ++ [l]) ++ [r]) (skip 6 w) k' theta Hk) as [HL HR].
      rewrite skip_skip in HL, HR.
      replace (6 + 6 * k')%nat with (6 * S k')%nat in HL, HR by lia.
      rewrite !length_app in HL, HR. simpl in HL, HR.
      replace (length steps + 2 * S k')%nat
        with (length steps + 1 + 1 + (k' + (k' + 0)))%nat by lia.
      split; [exact HL | exact HR].
Qed.

Lemma loop_Forall (P : Contact -> Prop) (thetas : list R) :
  (forall theta w, P (fst (fst (loop_body theta w))) /\
                   P (snd (fst (loop_body theta w)))) ->
  forall steps w, Forall P steps -> Forall P (fst (loop thetas steps w)).
Proof.
  intros Hbody. induction thetas as [| theta rest IH]; intros steps w Hsteps.
  - exact Hsteps.
  - cbn [Staircase.loop].
    destruct (Hbody theta w) as [Hl Hr].
    destruct (loop_body theta w) as [[l r] w']. simpl in Hl, Hr.
    apply IH. apply Forall_app. split.
    + apply Forall_app. split; [exact Hsteps | constructor; [exact Hl | constructor]].
    + constructor; [exact Hr | constructor].
Qed.

End StaircaseLoop.

(** ** generate_staircase: what it returns *)

Section StaircaseResult.

Variables (radius angular_step height roughness mu step_dim_x step_dim_y : R).

Local Abbreviation loop_body :=
  (Staircase.loop_body radius angular_step height roughness mu
                       step_dim_x step_dim_y).
Local Abbreviation loop :=
  (Staircase.loop radius angular_step height roughness mu
                  step_dim_x step_dim_y).
Local Abbreviation generate_staircase :=
  (Staircase.generate_staircase radius angular_step height roughness mu
                                step_dim_x step_dim_y).

(** When [arange] delivers its angles the call returns what the loop
    built over them; when [arange] raises, so does the call, and the
    process is left as it was. *)
Lemma generate_staircase_unfold (w : world) (thetas : list R) :
  arange 0 (2 * pi) angular_step = inr thetas ->
  generate_staircase w
    = (inr (fst (loop thetas [] w)), snd (loop thetas [] w)).
Proof.
  intros Har. unfold Staircase.generate_staircase. rewrite Har.
  destruct (loop _ [] w) as [steps w']. reflexivity.
Qed.

Lemma generate_staircase_raises (w : world) (e : exn) :
  arange 0 (2 * pi) angular_step = inl e ->
  generate_staircase w = (inl e, w).
Proof.
  intros Har. unfold Staircase.generate_staircase. rewrite Har. reflexivity.
Qed.

Lemma generate_staircase_zero_step (w : world) :
  angular_step = 0 ->
  generate_staircase w = (inl ZeroDivisionError, w).
Proof.
  intros Hstep. apply generate_staircase_raises. rewrite Hstep.
  apply arange_zero.
Qed.

Lemma loop_body_uniform (theta : R) (w : world) :
  let P := fun c => friction c = mu /\ X c = step_dim_x /\ Y c = step_dim_y in
  P (fst (fst (loop_body theta w))) /\ P (snd (fst (loop_body theta w))).
Proof. simpl. repeat split. Qed.

(** Number of contacts, and what they all share, when [arange] delivers
    its angles. *)
Lemma generate_staircase_shape (w : world) (thetas : list R) :
  arange 0 (2 * pi) angular_step = inr thetas ->
  exists steps,
    fst (generate_staircase w) = inr steps /\
    length steps = (2 * length thetas)%nat /\
    Forall (fun c => friction c = mu /\ X c = step_dim_x /\ Y c = step_dim_y)
           steps.
Proof.
  intros Har. rewrite (generate_staircase_unfold w thetas Har).
  exists (fst (loop thetas [] w)). split; [reflexivity | ].
  split.
  - rewrite loop_length. simpl. lia.
  - apply loop_Forall; [ | constructor ].
    intros theta w0. apply loop_body_uniform.
Qed.

(** The same for a number of turns that [arange] accepts. *)
Lemma generate_staircase_turns (w : world) :
  angular_step <> 0 ->
  (0 < ceil (fdiv (2 * pi) angular_step) < 2 ^ 60)%Z ->
  exists steps,
    fst (generate_staircase w) = inr steps /\
    length steps = (2 * Z.to_nat (ceil (fdiv (2 * pi) angular_step)))%nat /\
    Forall (fun c => friction c = mu /\ X c = step_dim_x /\ Y c = step_dim_y)
           steps.
Proof.
  intros Hstep Hn.
  destruct (generate_staircase_shape w _ (arange_revolution _ Hstep Hn))
    as (steps & Hret & Hlen & Hall).
  exists steps. split; [exact Hret | ]. split; [ | exact Hall].
  rewrite Hlen, length_map, length_seq. reflexivity.
Qed.

End StaircaseResult.

(** C1, as the code has it.  For every parameter tuple with an
    [angular_step] from a millionth up to [2 pi], [generate_staircase]
    returns exactly [2 * ceil(q)] contacts, where [q] is the quotient of
    the doubles [2 * numpy.pi] and [angular_step], itself rounded to a
    double.  That is [2 * ceil(2 pi / angular_step)] contacts or two less
    (two less when [q] is at or below an integer that the quotient of the
    reals exceeds, as for the step [numpy.pi / 2]).  Each contact has the
    given friction and half-extents.  With the parameters of the script ([radius=1.4],
    [angular_step=0.5], [height=1.4], [roughness=0.5], [friction=0.7],
    [step_dim_x=0.2], [step_dim_y=0.1]) that is exactly 26 contacts with
    friction 0.7 and half-extents (0.2, 0.1). *)
Theorem generate_staircase_count :
  (forall radius angular_step height roughness mu step_dim_x step_dim_y w,
      / 1000000 <= angular_step < 2 * PI ->
      exists steps,
        fst (Staircase.generate_staircase radius angular_step height
               roughness mu step_dim_x step_dim_y w) = inr steps /\
        length steps
          = (2 * Z.to_nat (ceil (fdiv (2 * pi) angular_step)))%nat /\
        (ceil (2 * PI / angular_step) - 1
           <= ceil (fdiv (2 * pi) angular_step)
           <= ceil (2 * PI / angular_step))%Z /\
        Forall (fun c => friction c = mu /\ X c = step_dim_x /\
                         Y c = step_dim_y) steps) /\
  (forall w,
      exists steps,
        fst (Staircase.generate_staircase 1.4 0.5 1.4 0.5 0.7 0.2 0.1 w)
          = inr steps /\
        length steps = 26%nat /\
        Forall (fun c => friction c = 0.7 /\ X c = 0.2 /\ Y c = 0.1) steps).
Proof.
  split.
  - intros radius angular_step height roughness mu dx dy w Hrange.
    pose proof (turns_moderate angular_step Hrange) as Hn.
    assert (Hnz : angular_step <> 0) by lra.
    destruct (generate_staircase_turns radius angular_step height roughness
                mu dx dy w Hnz) as (steps & Hret & Hlen & Hall); [lia | ].
    exists steps. split; [exact Hret | ]. split; [exact Hlen | ].
    split; [apply turns_vs_real; exact Hrange | exact Hall].
  - intros w.
    destruct (generate_staircase_turns 1.4 0.5 1.4 0.5 0.7 0.2 0.1 w)
      as (steps & Hret & Hlen & Hall).
    + lra.
    + rewrite turns_scenario. lia.
    + exists steps. rewrite turns_scenario in Hlen. auto.
Qed.

Lemma generate_staircase_count_witness :
  / 1000000 <= 0.5 < 2 * PI /\
  exists steps,
    fst (Staircase.generate_staircase 1.4 0.5 1.4 0.5 0.7 0.2 0.1 world_half)
      = inr steps /\
    length steps = (2 * Z.to_nat (ceil (fdiv (2 * pi) 0.5)))%nat /\
    Forall (fun c => friction c = 0.7 /\ X c = 0.2 /\ Y c = 0.1) steps.
Proof.
  assert (H : / 1000000 <= 0.5 < 2 * PI) by (pose proof PI_gt_3; lra).
  split; [exact H | ].
  destruct (proj1 generate_staircase_count 1.4 0.5 1.4 0.5 0.7 0.2 0.1
              world_half H) as (steps & Hret & Hlen & _ & Hall).
  exists steps. auto.
Defined.

(** C1, as stated, fails.  A step of [numpy.pi / 2] lies in [(0, 2 pi)]
    and [ceil(2 pi / step)] is 5, but the double quotient is exactly 4 and
    the call returns 8 contacts, not 10.  A step of [2^-70] lies in
    [(0, 2 pi)] as well, and the call returns nothing: [arange] raises a
    ValueError, the length being outside the range of [intp]. *)
Lemma staircase_count_misses_turns :
  (0 < pi / 2 < 2 * PI /\
   ceil (2 * PI / (pi / 2)) = 5%Z /\
   exists steps,
     fst (Staircase.generate_staircase 1.4 (pi / 2) 1.4 0.5 0.7 0.2 0.1
            world_half) = inr steps /\
     length steps = 8%nat) /\
  (0 < / 2 ^ 70 < 2 * PI /\
   exists msg,
     Staircase.generate_staircase 1.4 (/ 2 ^ 70) 1.4 0.5 0.7 0.2 0.1
       world_half = (inl (ValueError msg), world_half)).
Proof.
  pose proof pi_bounds as [Hp1 Hp2]. pose proof PI_above_pi as HP.
  pose proof PI_lt_13_4 as HP'.
  assert (H70 : 2 ^ 70 = 1180591620717411303424)
    by (rewrite pow_IZR; reflexivity).
  split.
  - split; [lra | ]. split.
    + assert (HQ : 2 * PI / (pi / 2) * (pi / 2) = 2 * PI)
        by (apply quotient_step; lra).
      apply ceil_unique. split; nra.
    + destruct (generate_staircase_turns 1.4 (pi / 2) 1.4 0.5 0.7 0.2 0.1
                  world_half) as (steps & Hret & Hlen & _).
      * lra.
      * rewrite turns_quarter. lia.
      * exists steps. rewrite turns_quarter in Hlen. auto.
  - rewrite H70. split; [lra | ].
    assert (Htiny : 0 < / 1180591620717411303424 <= / 2 ^ 61).
    { assert (H61 : 2 ^ 61 = 2305843009213693952)
        by (rewrite pow_IZR; reflexivity).
      rewrite H61. lra. }
    pose proof (turns_tiny_positive _ Htiny) as Hn.
    destruct (arange_revolution_overflow (/ 1180591620717411303424))
      as [msg Har].
    + lra.
    + right. lia.
    + exists msg. apply generate_staircase_raises. exact Har.
Qed.

(** ** generate_staircase: the contacts one by one *)

Lemma peek_skip (k i : nat) (w : world) :
  peek (np_random (skip k w)) i = peek (np_random w) (k + i).
Proof. unfold peek, skip, advance. simpl. f_equal. lia. Qed.

Section StaircaseContacts.

Variables (radius angular_step height roughness mu step_dim_x step_dim_y : R).

Local Abbreviation loop_body :=
  (Staircase.loop_body radius angular_step height roughness mu
                       step_dim_x step_dim_y).
Local Abbreviation generate_staircase :=
  (Staircase.generate_staircase radius angular_step height roughness mu
                                step_dim_x step_dim_y).

(** The contacts of turn [k] of the loop, found in the returned list. *)
Lemma generate_staircase_lookup (w : world) (k : nat) :
  angular_step <> 0 ->
  (k < arange_len 0 (2 * pi) angular_step)%nat ->
  exists steps,
    fst (generate_staircase w) = inr steps /\
    steps !! (2 * k)%nat
      = Some (fst (fst (loop_body (0 + INR k * angular_step)
                                  (skip (6 * k) w)))) /\
    steps !! (2 * k + 1)%nat
      = Some (snd (fst (loop_body (0 + INR k * angular_step)
                                  (skip (6 * k) w)))).
Proof.
  intros Hstep Hk.
  destruct (arange_len_pos _ _ _ _ Hk) as [thetas Har].
  pose proof (generate_staircase_unfold radius angular_step height roughness
                mu step_dim_x step_dim_y w thetas Har) as Hgen.
  pose proof (arange_lookup _ _ _ _ _ Har Hk) as Hth.
  destruct (loop_lookup radius angular_step height roughness mu
              step_dim_x step_dim_y thetas [] w k _ Hth) as [HL HR].
  simpl length in HL, HR.
  eexists. rewrite Hgen. split; [reflexivity | ].
  split; [exact HL | exact HR].
Qed.

Lemma loop_body_left (theta : R) (w : world) :
  let u := peek (np_random w) in
  fst (fst (loop_body theta w)) =
  mkContact step_dim_x step_dim_y
    [radius * cos theta; radius * sin theta;
     radius + 0.5 * height * sin theta]
    [roughness * (u 0%nat - 0.5) + 0;
     roughness * (u 1%nat - 0.5) + 0;
     roughness * (u 2%nat - 0.5) + (theta + 0.5 * PI)]
    mu true.
Proof. reflexivity. Qed.

Lemma loop_body_right (theta : R) (w : world) :
  let u := peek (np_random w) in
  snd (fst (loop_body theta w)) =
  mkContact step_dim_x step_dim_y
    [1.3 * radius * cos (theta + 0.5 * angular_step);
     1.3 * radius * sin (theta + 0.5 * angular_step);
     radius + 0.5 * height * sin (theta + 0.5 * angular_step)]
    [roughness * (u 3%nat - 0.5) + 0;
     roughness * (u 4%nat - 0.5) + 0;
     roughness * (u 5%nat - 0.5) + (theta + 0.5 * PI)]
    mu true.
Proof.
  intros u. unfold u, Staircase.loop_body, peek. cbn.
  rewrite <- !Nat.add_assoc. reflexivity.
Qed.

Lemma perturbation_bound (u : R) :
  0 <= u < 1 ->
  - (Rabs roughness / 2) <= roughness * (u - 0.5) <= Rabs roughness / 2.
Proof.
  intros Hu. unfold Rabs. destruct (Rcase_abs roughness); split; nra.
Qed.

End StaircaseContacts.

(** C3.  In every turn [k] of the loop, at the angle [theta = k *
    angular_step], the left contact (entry [2k] of the result) is at
    [(radius cos theta, radius sin theta, radius + 0.5 height sin theta)];
    its roll, pitch and yaw are [0], [0] and [theta + pi/2], each plus its
    own perturbation [roughness * (u - 0.5)], where the three [u] are
    three successive draws of the generator; a draw in [[0,1)] puts the
    perturbation in the interval of width [roughness] centred at zero. *)
Theorem left_contact_formula
    (radius angular_step height roughness mu step_dim_x step_dim_y : R)
    (w : world) (k : nat) :
  angular_step <> 0 ->
  (k < arange_len 0 (2 * pi) angular_step)%nat ->
  let theta := 0 + INR k * angular_step in
  let u := fun j => peek (np_random w) (6 * k + j) in
  exists steps c,
    fst (Staircase.generate_staircase radius angular_step height roughness
           mu step_dim_x step_dim_y w) = inr steps /\
    steps !! (2 * k)%nat = Some c /\
    pos c = [radius * cos theta;
             radius * sin theta;
             radius + 0.5 * height * sin theta] /\
    rpy c = [roughness * (u 0%nat - 0.5) + 0;
             roughness * (u 1%nat - 0.5) + 0;
             roughness * (u 2%nat - 0.5) + (theta + 0.5 * PI)] /\
    (forall j, 0 <= u j < 1 ->
               - (Rabs roughness / 2) <= roughness * (u j - 0.5)
                 <= Rabs roughness / 2).
Proof.
  intros Hstep Hk theta u.
  destruct (generate_staircase_lookup radius angular_step height roughness
              mu step_dim_x step_dim_y w k Hstep Hk) as (steps & Hret & HL & _).
  rewrite loop_body_left in HL.
  exists steps. eexists. split; [exact Hret | ].
  split; [exact HL | ].
  split; [reflexivity | ].
  split.
  - cbn [rpy]. rewrite !peek_skip. reflexivity.
  - intros j Hj. apply perturbation_bound. exact Hj.
Qed.

Lemma left_contact_formula_witness :
  0.5 <> 0 /\ (1 < arange_len 0 (2 * pi) 0.5)%nat /\
  exists steps c,
    fst (Staircase.generate_staircase 1.4 0.5 1.4 0.5 0.7 0.2 0.1
           world_eighths) = inr steps /\
    steps !! 2%nat = Some c /\
    pos c = [1.4 * cos (0 + INR 1 * 0.5);
             1.4 * sin (0 + INR 1 * 0.5);
             1.4 + 0.5 * 1.4 * sin (0 + INR 1 * 0.5)].
Proof.
  assert (H0 : 0.5 <> 0) by lra.
  assert (H1 : (1 < arange_len 0 (2 * pi) 0.5)%nat).
  { rewrite arange_len_scenario. lia. }
  split; [exact H0 | ]. split; [exact H1 | ].
  destruct (left_contact_formula 1.4 0.5 1.4 0.5 0.7 0.2 0.1
              world_eighths 1 H0 H1) as (steps & c & Hret & Hc & Hpos & _).
  exists steps, c. auto.
Defined.

(** C2, as the code has it.  In every turn [k] of the loop, at the angle
    [theta = k * angular_step], the right contact (entry [2k+1] of the
    result) is placed at radius [1.3 radius] and at the height
    [radius + 0.5 height sin(.)], both taken at the offset angle
    [theta + angular_step / 2]; its yaw is [theta + pi/2], taken at
    [theta] itself as for the left contact, and roll, pitch and yaw each
    carry their own perturbation [roughness * (u - 0.5)] from three
    further draws. *)
Theorem right_contact_formula
    (radius angular_step height roughness mu step_dim_x step_dim_y : R)
    (w : world) (k : nat) :
  angular_step <> 0 ->
  (k < arange_len 0 (2 * pi) angular_step)%nat ->
  let theta := 0 + INR k * angular_step in
  let offset := theta + 0.5 * angular_step in
  let u := fun j => peek (np_random w) (6 * k + j) in
  exists steps c,
    fst (Staircase.generate_staircase radius angular_step height roughness
           mu step_dim_x step_dim_y w) = inr steps /\
    steps !! (2 * k + 1)%nat = Some c /\
    pos c = [1.3 * radius * cos offset;
             1.3 * radius * sin offset;
             radius + 0.5 * height * sin offset] /\
    rpy c = [roughness * (u 3%nat - 0.5) + 0;
             roughness * (u 4%nat - 0.5) + 0;
             roughness * (u 5%nat - 0.5) + (theta + 0.5 * PI)].
Proof.
  intros Hstep Hk theta offset u.
  destruct (generate_staircase_lookup radius angular_step height roughness
              mu step_dim_x step_dim_y w k Hstep Hk) as (steps & Hret & _ & HR).
  rewrite loop_body_right in HR.
  exists steps. eexists. split; [exact Hret | ].
  split; [exact HR | ].
  split; [reflexivity | ].
  cbn [rpy]. rewrite !peek_skip. reflexivity.
Qed.

Lemma right_contact_formula_witness :
  0.5 <> 0 /\ (1 < arange_len 0 (2 * pi) 0.5)%nat /\
  exists steps c,
    fst (Staircase.generate_staircase 1.4 0.5 1.4 0.5 0.7 0.2 0.1
           world_eighths) = inr steps /\
    steps !! 3%nat = Some c /\
    rpy c = [0.5 * (INR (9 mod 8) / 8 - 0.5) + 0;
             0.5 * (INR (10 mod 8) / 8 - 0.5) + 0;
             0.5 * (INR (11 mod 8) / 8 - 0.5) + (0 + INR 1 * 0.5 + 0.5 * PI)].
Proof.
  assert (H0 : 0.5 <> 0) by lra.
  assert (H1 : (1 < arange_len 0 (2 * pi) 0.5)%nat).
  { rewrite arange_len_scenario. lia. }
  split; [exact H0 | ]. split; [exact H1 | ].
  destruct (right_contact_formula 1.4 0.5 1.4 0.5 0.7 0.2 0.1
              world_eighths 1 H0 H1) as (steps & c & Hret & Hc & _ & Hrpy).
  exists steps, c. split; [exact Hret | ]. split; [exact Hc | ].
  exact Hrpy.
Defined.

(** C2, as stated, fails: with the parameters of the script and a
    generator that delivers one half, the first right contact sits at the
    offset angle 0.25 but its yaw is [pi/2], the yaw at angle 0, and not
    [0.25 + pi/2]. *)
Lemma right_contact_yaw_not_at_offset :
  exists steps c yaw,
    fst (Staircase.generate_staircase 1.4 0.5 1.4 0.5 0.7 0.2 0.1 world_half)
      = inr steps /\
    steps !! 1%nat = Some c /\
    pos c !! 0%nat = Some (1.3 * 1.4 * cos 0.25) /\
    rpy c !! 2%nat = Some yaw /\
    yaw = PI / 2 /\
    yaw <> 0.25 + PI / 2.
Proof.
  assert (H0 : 0.5 <> 0) by lra.
  destruct (generate_staircase_lookup 1.4 0.5 1.4 0.5 0.7 0.2 0.1
              world_half 0 H0 ltac:(rewrite arange_len_scenario; lia))
    as (steps & Hret & _ & Hc).
  rewrite loop_body_right in Hc.
  exists steps. eexists. eexists.
  split; [exact Hret | ]. split; [exact Hc | ].
  cbn [pos rpy lookup list_lookup].
  split; [ f_equal; f_equal; f_equal; simpl; lra | ].
  split; [reflexivity | ].
  unfold peek. simpl. split; lra.
Qed.

(** ** generate_staircase: steps outside (0, 2 pi) *)

Lemma generate_staircase_wide_step
    (radius angular_step height roughness mu step_dim_x step_dim_y : R)
    (w : world) :
  2 * pi <= angular_step <= max_double ->
  exists steps,
    fst (Staircase.generate_staircase radius angular_step height roughness
           mu step_dim_x step_dim_y w) = inr steps /\
    length steps = 2%nat.
Proof.
  intros Hwide. pose proof pi_bounds as [Hp1 Hp2].
  pose proof (turns_wide _ Hwide) as Hn.
  destruct (generate_staircase_turns radius angular_step height roughness
              mu step_dim_x step_dim_y w) as (steps & Hret & Hlen & _).
  - lra.
  - rewrite Hn. lia.
  - exists steps. rewrite Hn in Hlen. auto.
Qed.

Lemma generate_staircase_negative_step
    (radius angular_step height roughness mu step_dim_x step_dim_y : R)
    (w : world) :
  angular_step <= - / 2 ^ 60 ->
  Staircase.generate_staircase radius angular_step height roughness mu
    step_dim_x step_dim_y w = (inr [], w).
Proof.
  intros Hstep.
  assert (Hnz : angular_step <> 0).
  { assert (H60 : 2 ^ 60 = 1152921504606846976)
      by (rewrite pow_IZR; reflexivity).
    rewrite H60 in Hstep. lra. }
  rewrite (generate_staircase_unfold _ _ _ _ _ _ _ w []).
  - reflexivity.
  - apply arange_revolution_empty; [exact Hnz | ].
    apply turns_negative. exact Hstep.
Qed.

Lemma generate_staircase_tiny_step
    (radius angular_step height roughness mu step_dim_x step_dim_y : R)
    (w : world) :
  angular_step <> 0 ->
  - / 2 ^ 61 <= angular_step <= / 2 ^ 61 ->
  exists msg,
    Staircase.generate_staircase radius angular_step height roughness mu
      step_dim_x step_dim_y w = (inl (ValueError msg), w).
Proof.
  intros Hnz [Hlo Hhi].
  destruct (arange_revolution_overflow angular_step Hnz) as [msg Har].
  - destruct (Rlt_le_dec angular_step 0) as [Hneg | Hpos].
    + left. pose proof (turns_tiny_negative angular_step (conj Hlo Hneg)). lia.
    + right.
      assert (H : 0 < angular_step <= / 2 ^ 61) by (split; [lra | exact Hhi]).
      pose proof (turns_tiny_positive angular_step H). lia.
  - exists msg. apply generate_staircase_raises. exact Har.
Qed.

(** C4, as the code has it.  [generate_staircase] checks nothing and has
    no error of its own; what happens is what [arange] does.  A step from
    a millionth up to the double [2 pi] gives [2 * ceil(q)] contacts, at
    least two, [q] being the double quotient of [2 * numpy.pi] by the
    step.  A finite step of [2 * numpy.pi] or more gives exactly two
    contacts.  A negative step, down from [-2^-60], gives the empty list.
    A zero step fails with the division error of Python.  A step that is
    not zero and of magnitude [2^-61] or less fails with the ValueError of
    [arange], the length being outside the range of [intp].  A call that
    fails leaves the generator as it was. *)
Theorem generate_staircase_step_range
    (radius angular_step height roughness mu step_dim_x step_dim_y : R)
    (w : world) :
  let result :=
    Staircase.generate_staircase radius angular_step height roughness mu
      step_dim_x step_dim_y w in
  (/ 1000000 <= angular_step < 2 * pi ->
     exists steps, fst result = inr steps /\
       length steps
         = (2 * Z.to_nat (ceil (fdiv (2 * pi) angular_step)))%nat /\
       (2 <= length steps)%nat) /\
  (2 * pi <= angular_step <= max_double ->
     exists steps, fst result = inr steps /\ length steps = 2%nat) /\
  (angular_step <= - / 2 ^ 60 -> result = (inr [], w)) /\
  (angular_step = 0 -> result = (inl ZeroDivisionError, w)) /\
  (angular_step <> 0 -> - / 2 ^ 61 <= angular_step <= / 2 ^ 61 ->
     exists msg, result = (inl (ValueError msg), w)).
Proof.
  intros result. unfold result.
  split; [ | split; [ | split; [ | split]]].
  - intros [Hlo Hhi].
    assert (Hrange : / 1000000 <= angular_step < 2 * PI)
      by (pose proof PI_above_pi; lra).
    pose proof (turns_moderate angular_step Hrange) as Hn.
    destruct (generate_staircase_turns radius angular_step height roughness
                mu step_dim_x step_dim_y w) as (steps & Hret & Hlen & _);
      [lra | lia | ].
    exists steps. split; [exact Hret | ]. split; [exact Hlen | ].
    rewrite Hlen. lia.
  - apply generate_staircase_wide_step.
  - apply generate_staircase_negative_step.
  - apply generate_staircase_zero_step.
  - apply generate_staircase_tiny_step.
Qed.

Lemma generate_staircase_step_range_witness :
  2 * pi <= 8 <= max_double /\
  exists steps,
    fst (Staircase.generate_staircase 1.4 8 1.4 0.5 0.7 0.2 0.1 world_half)
      = inr steps /\ length steps = 2%nat.
Proof.
  assert (H : 2 * pi <= 8 <= max_double).
  { split; [unfold pi; lra | ].
    unfold max_double. apply IZR_le. vm_compute. discriminate. }
  split; [exact H | ].
  exact (proj1 (proj2 (generate_staircase_step_range
                         1.4 8 1.4 0.5 0.7 0.2 0.1 world_half)) H).
Defined.

(** C4, as stated, fails: a step of 8, beyond [2 pi], yields two contacts,
    and a step of -1 yields the empty list; neither call raises. *)
Lemma generate_staircase_accepts_out_of_range_steps :
  (8 >= 2 * PI /\
   exists steps,
     fst (Staircase.generate_staircase 1.4 8 1.4 0.5 0.7 0.2 0.1 world_half)
       = inr steps /\ length steps = 2%nat) /\
  (-1 <= 0 /\
   fst (Staircase.generate_staircase 1.4 (-1) 1.4 0.5 0.7 0.2 0.1 world_half)
     = inr []).
Proof.
  split.
  - split; [pose proof PI_lt_13_4; lra | ].
    apply generate_staircase_wide_step.
    split; [unfold pi; lra | ].
    unfold max_double. apply IZR_le. vm_compute. discriminate.
  - split; [lra | ].
    rewrite generate_staircase_negative_step; [reflexivity | ].
    assert (H60 : 2 ^ 60 = 1152921504606846976)
      by (rewrite pow_IZR; reflexivity).
    rewrite H60. lra.
Qed.

(** ** generate_staircase and the random generator *)

Section StaircaseRandom.

Variables (radius angular_step height roughness mu step_dim_x step_dim_y : R).

Local Abbreviation loop_body :=
  (Staircase.loop_body radius angular_step height roughness mu
                       step_dim_x step_dim_y).
Local Abbreviation loop :=
  (Staircase.loop radius angular_step height roughness mu
                  step_dim_x step_dim_y).
Local Abbreviation generate_staircase :=
  (Staircase.generate_staircase radius angular_step height roughness mu
                                step_dim_x step_dim_y).

(** One turn reads the next six doubles and nothing else of the world. *)
Lemma loop_body_agree (theta : R) (w1 w2 : world) :
  (forall i, (i < 6)%nat -> peek (np_random w1) i = peek (np_random w2) i) ->
  fst (loop_body theta w1) = fst (loop_body theta w2).
Proof.
  intros Hagree.
  rewrite (surjective_pairing (fst (loop_body theta w1))).
  rewrite (surjective_pairing (fst (loop_body theta w2))).
  rewrite !loop_body_left, !loop_body_right. cbv zeta.
  rewrite !Hagree by lia. reflexivity.
Qed.

Lemma loop_agree (thetas : list R) :
  forall steps w1 w2,
    (forall i, (i < 6 * length thetas)%nat ->
               peek (np_random w1) i = peek (np_random w2) i) ->
    fst (loop thetas steps w1) = fst (loop thetas steps w2).
Proof.
  induction thetas as [| theta rest IH]; intros steps w1 w2 Hagree.
  - reflexivity.
  - cbn [Staircase.loop].
    assert (Hb : fst (loop_body theta w1) = fst (loop_body theta w2)).
    { apply loop_body_agree. intros i Hi. apply Hagree. simpl. lia. }
    pose proof (loop_body_world radius angular_step height roughness mu
                  step_dim_x step_dim_y theta w1) as H1.
    pose proof (loop_body_world radius angular_step height roughness mu
                  step_dim_x step_dim_y theta w2) as H2.
    destruct (loop_body theta w1) as [[l1 r1] w1'].
    destruct (loop_body theta w2) as [[l2 r2] w2'].
    simpl in Hb, H1, H2. injection Hb as -> ->. subst w1' w2'.
    apply IH. intros i Hi. rewrite !peek_skip. apply Hagree. simpl. lia.
Qed.

Lemma generate_staircase_agree (w1 w2 : world) :
  (forall i, (i < 6 * arange_len 0 (2 * pi) angular_step)%nat ->
             peek (np_random w1) i = peek (np_random w2) i) ->
  fst (generate_staircase w1) = fst (generate_staircase w2).
Proof.
  intros Hagree. unfold Staircase.generate_staircase.
  destruct (arange 0 (2 * pi) angular_step) as [e | thetas] eqn:Har.
  - reflexivity.
  - pose proof (arange_length _ _ _ _ Har) as Hlen.
    pose proof (loop_agree thetas [] w1 w2) as Hloop.
    destruct (loop thetas [] w1) as [s1 w1'].
    destruct (loop thetas [] w2) as [s2 w2'].
    simpl in *. f_equal. apply Hloop. rewrite Hlen. exact Hagree.
Qed.

(** Nothing is printed, drawn or sent to the viewer. *)
Lemma generate_staircase_trace (w : world) :
  trace (snd (generate_staircase w)) = trace w.
Proof.
  unfold Staircase.generate_staircase.
  destruct (arange 0 (2 * pi) angular_step) as [e | thetas].
  - reflexivity.
  - pose proof (loop_world radius angular_step height roughness mu
                  step_dim_x step_dim_y thetas [] w) as Hw.
    destruct (loop thetas [] w) as [steps w']. simpl in *. subst w'.
    reflexivity.
Qed.

End StaircaseRandom.

(** C7.  Two calls of [generate_staircase] with the same parameters and
    an identically seeded random source return equal lists of contacts:
    after [seed(n)] the result does not depend on what the process did
    before, and more generally two generators that deliver the same
    doubles give the same contacts.  The call performs no output: the
    trace of the process is the same before and after. *)
Theorem generate_staircase_reproducible
    (radius angular_step height roughness mu step_dim_x step_dim_y : R) :
  let generate_staircase :=
    Staircase.generate_staircase radius angular_step height roughness mu
      step_dim_x step_dim_y in
  (forall mt n w1 w2,
      fst (generate_staircase (seed mt n w1))
      = fst (generate_staircase (seed mt n w2))) /\
  (forall w1 w2,
      (forall i, (i < 6 * arange_len 0 (2 * pi) angular_step)%nat ->
                 peek (np_random w1) i = peek (np_random w2) i) ->
      fst (generate_staircase w1) = fst (generate_staircase w2)) /\
  (forall w, trace (snd (generate_staircase w)) = trace w).
Proof.
  intros generate_staircase. unfold generate_staircase. repeat split.
  - intros mt n w1 w2. apply generate_staircase_agree.
    intros i _. reflexivity.
  - apply generate_staircase_agree.
  - apply generate_staircase_trace.
Qed.

(** Two processes with different histories whose generators deliver the
    same doubles. *)
Lemma generate_staircase_reproducible_witness :
  (forall i, (i < 6 * arange_len 0 (2 * pi) 0.5)%nat ->
             peek (np_random world_eighths) i
             = peek (np_random (skip 8 world_eighths)) i) /\
  fst (Staircase.generate_staircase 1.4 0.5 1.4 0.5 0.7 0.2 0.1 world_eighths)
  = fst (Staircase.generate_staircase 1.4 0.5 1.4 0.5 0.7 0.2 0.1
           (skip 8 world_eighths)).
Proof.
  assert (H : forall i, (i < 6 * arange_len 0 (2 * pi) 0.5)%nat ->
             peek (np_random world_eighths) i
             = peek (np_random (skip 8 world_eighths)) i).
  { intros i _. unfold peek, world_eighths, skip, advance.
    cbn [samples cursor np_random].
    replace (0 + 8 + i)%nat with (0 + i + 1 * 8)%nat by lia.
    rewrite Nat.Div0.mod_add. reflexivity. }
  split; [exact H | ].
  exact (proj1 (proj2 (generate_staircase_reproducible
                         1.4 0.5 1.4 0.5 0.7 0.2 0.1)) _ _ H).
Defined.

(** ** generate_staircase with zero roughness *)

Lemma loop_body_zero_roughness
    (radius angular_step height mu step_dim_x step_dim_y theta : R)
    (w : world) :
  rpy (fst (fst (Staircase.loop_body radius angular_step height 0 mu
                   step_dim_x step_dim_y theta w)))
    = [0; 0; theta + 0.5 * PI] /\
  rpy (snd (fst (Staircase.loop_body radius angular_step height 0 mu
                   step_dim_x step_dim_y theta w)))
    = [0; 0; theta + 0.5 * PI].
Proof.
  rewrite loop_body_left, loop_body_right. cbn [rpy].
  split; (f_equal; [ring | f_equal; [ring | f_equal; ring]]).
Qed.

Lemma loop_zero_roughness
    (radius angular_step height mu step_dim_x step_dim_y : R)
    (thetas : list R) :
  forall steps w1 w2,
    fst (Staircase.loop radius angular_step height 0 mu step_dim_x
           step_dim_y thetas steps w1)
    = fst (Staircase.loop radius angular_step height 0 mu step_dim_x
             step_dim_y thetas steps w2).
Proof.
  induction thetas as [| theta rest IH]; intros steps w1 w2.
  - reflexivity.
  - cbn [Staircase.loop].
    assert (Hb : fst (Staircase.loop_body radius angular_step height 0 mu
                        step_dim_x step_dim_y theta w1)
                 = fst (Staircase.loop_body radius angular_step height 0 mu
                          step_dim_x step_dim_y theta w2)).
    { rewrite (surjective_pairing (fst (Staircase.loop_body _ _ _ _ _ _ _ _ w1))).
      rewrite (surjective_pairing (fst (Staircase.loop_body _ _ _ _ _ _ _ _ w2))).
      rewrite !loop_body_left, !loop_body_right.
      f_equal; (f_equal; f_equal; [ring | f_equal; [ring | f_equal; ring]]). }
    destruct (Staircase.loop_body _ _ _ _ _ _ _ theta w1) as [[l1 r1] w1'].
    destruct (Staircase.loop_body _ _ _ _ _ _ _ theta w2) as [[l2 r2] w2'].
    simpl in Hb. injection Hb as -> ->. apply IH.
Qed.

(** C9, as the code has it.  With [roughness = 0] every contact has
    orientation exactly [(0, 0, theta + pi/2)], [theta = k * angular_step]
    being the angle of the turn of the loop that built it: the angular
    position of the left contact, and the angular position less
    [angular_step / 2] of the right one.  The returned list is the same
    whatever the state of the random generator. *)
Theorem zero_roughness_orientation
    (radius angular_step height mu step_dim_x step_dim_y : R) :
  let generate_staircase :=
    Staircase.generate_staircase radius angular_step height 0 mu
      step_dim_x step_dim_y in
  (forall w k,
      angular_step <> 0 ->
      (k < arange_len 0 (2 * pi) angular_step)%nat ->
      let theta := 0 + INR k * angular_step in
      exists steps left_foot right_foot,
        fst (generate_staircase w) = inr steps /\
        steps !! (2 * k)%nat = Some left_foot /\
        steps !! (2 * k + 1)%nat = Some right_foot /\
        rpy left_foot = [0; 0; theta + 0.5 * PI] /\
        rpy right_foot = [0; 0; theta + 0.5 * PI]) /\
  (forall w1 w2,
      fst (generate_staircase w1) = fst (generate_staircase w2)).
Proof.
  intros generate_staircase. unfold generate_staircase. split.
  - intros w k Hstep Hk. cbv zeta.
    destruct (generate_staircase_lookup radius angular_step height 0 mu
                step_dim_x step_dim_y w k Hstep Hk)
      as (steps & Hret & HL & HR).
    destruct (loop_body_zero_roughness radius angular_step height mu
                step_dim_x step_dim_y (0 + INR k * angular_step)
                (skip (6 * k) w)) as [Hl Hr].
    exists steps. eexists. eexists.
    split; [exact Hret | ]. split; [exact HL | ]. split; [exact HR | ].
    split; [exact Hl | exact Hr].
  - intros w1 w2. unfold Staircase.generate_staircase.
    destruct (arange 0 (2 * pi) angular_step) as [e | thetas].
    + reflexivity.
    + pose proof (loop_zero_roughness radius angular_step height mu
                    step_dim_x step_dim_y thetas [] w1 w2) as Hloop.
      destruct (Staircase.loop _ _ _ _ _ _ _ thetas [] w1) as [s1 w1'].
      destruct (Staircase.loop _ _ _ _ _ _ _ thetas [] w2) as [s2 w2'].
      simpl in *. f_equal. exact Hloop.
Qed.

Lemma zero_roughness_orientation_witness :
  0.5 <> 0 /\ (1 < arange_len 0 (2 * pi) 0.5)%nat /\
  exists steps left_foot right_foot,
    fst (Staircase.generate_staircase 1.4 0.5 1.4 0 0.7 0.2 0.1
           world_eighths) = inr steps /\
    steps !! 2%nat = Some left_foot /\
    steps !! 3%nat = Some right_foot /\
    rpy left_foot = [0; 0; 0 + INR 1 * 0.5 + 0.5 * PI] /\
    rpy right_foot = [0; 0; 0 + INR 1 * 0.5 + 0.5 * PI].
Proof.
  assert (H0 : 0.5 <> 0) by lra.
  assert (H1 : (1 < arange_len 0 (2 * pi) 0.5)%nat).
  { rewrite arange_len_scenario. lia. }
  split; [exact H0 | ]. split; [exact H1 | ].
  exact (proj1 (zero_roughness_orientation 1.4 0.5 1.4 0.7 0.2 0.1)
           world_eighths 1%nat H0 H1).
Defined.

(** C9, as stated, fails for the right contacts: with zero roughness and
    a step of 0.5 the first right contact sits at the angular position
    0.25, and its orientation is [(0, 0, pi/2)], not
    [(0, 0, 0.25 + pi/2)]. *)
Lemma zero_roughness_right_yaw_not_at_position :
  exists steps c,
    fst (Staircase.generate_staircase 1.4 0.5 1.4 0 0.7 0.2 0.1
           world_eighths) = inr steps /\
    steps !! 1%nat = Some c /\
    pos c = [1.3 * 1.4 * cos 0.25;
             1.3 * 1.4 * sin 0.25;
             1.4 + 0.5 * 1.4 * sin 0.25] /\
    rpy c = [0; 0; PI / 2] /\
    rpy c <> [0; 0; 0.25 + PI / 2].
Proof.
  assert (H0 : 0.5 <> 0) by lra.
  destruct (generate_staircase_lookup 1.4 0.5 1.4 0 0.7 0.2 0.1
              world_eighths 0 H0 ltac:(rewrite arange_len_scenario; lia))
    as (steps & Hret & _ & Hc).
  rewrite loop_body_right in Hc.
  exists steps. eexists.
  split; [exact Hret | ]. split; [exact Hc | ].
  cbn [pos rpy].
  assert (Hangle : 0 + INR 0 * 0.5 + 0.5 * 0.5 = 0.25) by (simpl; lra).
  assert (Hyaw : forall u, 0 * (u - 0.5) + (0 + INR 0 * 0.5 + 0.5 * PI)
                           = PI / 2) by (intros u; simpl; lra).
  rewrite Hangle, Hyaw.
  replace (0 * (peek (np_random (skip (6 * 0) world_eighths)) 3 - 0.5) + 0)
    with 0 by ring.
  replace (0 * (peek (np_random (skip (6 * 0) world_eighths)) 4 - 0.5) + 0)
    with 0 by ring.
  split; [reflexivity | ]. split; [reflexivity | ].
  intros Heq. injection Heq as Heq. lra.
Qed.

(** ** dash_graph_handles *)

Section Dash.

Context {H : Type}.

Local Abbreviation dash_step :=
  (fun (hs : list (option H)) (i : nat) =>
     if (i mod 2 =? 0)%nat then <[i := None]> hs else hs).

Lemma dash_step_length (hs : list (option H)) (i : nat) :
  length (dash_step hs i) = length hs.
Proof.
  cbv beta. destruct (i mod 2 =? 0)%nat; [apply length_insert | reflexivity].
Qed.

Lemma dash_step_other (hs : list (option H)) (i j : nat) :
  i <> j -> dash_step hs i !! j = hs !! j.
Proof.
  intros Hne. cbv beta. destruct (i mod 2 =? 0)%nat; [ | reflexivity].
  apply list_lookup_insert_ne. exact Hne.
Qed.

Lemma dash_fold_length (n : nat) :
  forall start (hs : list (option H)),
    length (fold_left dash_step (seq start n) hs) = length hs.
Proof.
  induction n as [| n IH]; intros start hs; cbn [fold_left seq]; cbv beta.
  - reflexivity.
  - rewrite IH. apply dash_step_length.
Qed.

(** The sweep from [start] on leaves what lies before [start]. *)
Lemma dash_fold_below (n : nat) :
  forall start (hs : list (option H)) i,
    (i < start)%nat ->
    fold_left dash_step (seq start n) hs !! i = hs !! i.
Proof.
  induction n as [| n IH]; intros start hs i Hi; cbn [fold_left seq]; cbv beta.
  - reflexivity.
  - rewrite IH by lia. apply dash_step_other. lia.
Qed.

Lemma dash_fold_odd (n : nat) :
  forall start (hs : list (option H)) i,
    (i mod 2 <> 0)%nat ->
    fold_left dash_step (seq start n) hs !! i = hs !! i.
Proof.
  induction n as [| n IH]; intros start hs i Hi; cbn [fold_left seq]; cbv beta.
  - reflexivity.
  - rewrite IH by exact Hi.
    destruct (Nat.eqb_spec (start mod 2) 0) as [Hev | Hod]; [ | reflexivity].
    apply list_lookup_insert_ne. intros ->. contradiction.
Qed.

Lemma dash_fold_even (n : nat) :
  forall start (hs : list (option H)) i,
    (start <= i < start + n)%nat -> (i < length hs)%nat ->
    (i mod 2 = 0)%nat ->
    fold_left dash_step (seq start n) hs !! i = Some None.
Proof.
  induction n as [| n IH]; intros start hs i Hrange Hlen Hev; cbn [fold_left seq]; cbv beta.
  - lia.
  - destruct (Nat.eq_dec i start) as [-> | Hne].
    + rewrite dash_fold_below by lia.
      rewrite <- Nat.eqb_eq in Hev. rewrite Hev.
      apply list_lookup_insert_eq. exact Hlen.
    + apply IH; [lia | rewrite dash_step_length; exact Hlen | exact Hev].
Qed.

End Dash.

(** C10.  For every list of handles, [dash_graph_handles] (the function,
    and the method of [TrajectoryDrawer] on [self.handles]) puts [None]
    at every even index and leaves the length of the list and every
    entry at an odd index as they were; the method changes no other
    attribute of the drawer. *)
Theorem dash_graph_handles_effect (H : Type) :
  (forall handles : list (option H),
      let dashed := Handles.dash_graph_handles handles in
      length dashed = length handles /\
      (forall i, (i < length handles)%nat -> (i mod 2 = 0)%nat ->
                 dashed !! i = Some None) /\
      (forall i, (i mod 2 <> 0)%nat -> dashed !! i = handles !! i)) /\
  (forall self : Handles.TrajectoryDrawer H,
      let self' := Handles.method_dash_graph_handles self in
      length (Handles.handles self') = length (Handles.handles self) /\
      (forall i, (i < length (Handles.handles self))%nat ->
                 (i mod 2 = 0)%nat ->
                 Handles.handles self' !! i = Some None) /\
      (forall i, (i mod 2 <> 0)%nat ->
                 Handles.handles self' !! i = Handles.handles self !! i) /\
      Handles.body self' = Handles.body self /\
      Handles.color self' = Handles.color self /\
      Handles.last_pos self' = Handles.last_pos self /\
      Handles.linestyle self' = Handles.linestyle self /\
      Handles.linewidth self' = Handles.linewidth self /\
      Handles.lr self' = Handles.lr self).
Proof.
  split.
  - intros handles dashed. unfold dashed, Handles.dash_graph_handles.
    split; [apply dash_fold_length | ]. split.
    + intros i Hi Hev. apply dash_fold_even; [lia | exact Hi | exact Hev].
    + intros i Hod. apply dash_fold_odd. exact Hod.
  - intros self self'. unfold self', Handles.method_dash_graph_handles.
    cbn [Handles.handles Handles.body Handles.color Handles.last_pos
         Handles.linestyle Handles.linewidth Handles.lr].
    split; [apply dash_fold_length | ]. split.
    + intros i Hi Hev. apply dash_fold_even; [lia | exact Hi | exact Hev].
    + split; [ | repeat split].
      intros i Hod. apply dash_fold_odd. exact Hod.
Qed.

Lemma dash_graph_handles_effect_witness :
  (2 < length [Some 10%nat; Some 11%nat; Some 12%nat; Some 13%nat])%nat /\
  (2 mod 2 = 0)%nat /\
  Handles.dash_graph_handles
    [Some 10%nat; Some 11%nat; Some 12%nat; Some 13%nat] !! 2%nat
  = Some None.
Proof.
  assert (H1 : (2 < length [Some 10%nat; Some 11%nat; Some 12%nat;
                            Some 13%nat])%nat) by (simpl; lia).
  assert (H2 : (2 mod 2 = 0)%nat) by reflexivity.
  split; [exact H1 | ]. split; [exact H2 | ].
  exact (proj1 (proj2 (proj1 (dash_graph_handles_effect nat) _)) 2%nat H1 H2).
Defined.

Example dash_graph_handles_run :
  Handles.dash_graph_handles
    [Some 10%nat; Some 11%nat; Some 12%nat; Some 13%nat; Some 14%nat]
  = [None; Some 11%nat; None; Some 13%nat; None].
Proof. reflexivity. Qed.

(** ** ForceDrawer.on_tick *)

Lemma emit_trace (e : event) (w : world) : trace (emit e w) = trace w ++ [e].
Proof. reflexivity. Qed.

(** C6.  On a tick where [find_supporting_forces] reports no support
    ([None] or an empty distribution), [ForceDrawer.on_tick] leaves the
    drawer without any force handle and sends the alarm colour to the
    viewer; the only viewer traffic of the tick is that alarm, possibly
    followed by the reset to the normal colour, and no force is drawn. *)
Theorem force_drawer_alarm_on_no_support
    (H : Type) (draw_force : Contact -> list R -> R -> H)
    (find_supporting_forces :
       RobotIK.Stance -> list R -> list R -> R -> R ->
       option (list (Contact * list R)))
    (comdd gravity com_p : list R) (robot_mass : R)
    (cur_stance : RobotIK.Stance) (now1 now2 : R)
    (self : ForceDrawer.t H) (w : world) :
  ForceDrawer.falsy
    (ForceDrawer.support_of_tick find_supporting_forces comdd gravity com_p
       robot_mass cur_stance) = true ->
  let result :=
    ForceDrawer.on_tick H draw_force find_supporting_forces comdd gravity
      com_p robot_mass cur_stance now1 now2 self w in
  ForceDrawer.handles (fst result) = [] /\
  (trace (snd result) = trace w ++ [ESetBkgndColor [0.8; 0.4; 0.4]] \/
   trace (snd result) = trace w ++ [ESetBkgndColor [0.8; 0.4; 0.4];
                                    ESetBkgndColor [0.6; 0.6; 0.8]]) /\
  (forall primitive, In (EDraw primitive) (trace (snd result)) ->
                     In (EDraw primitive) (trace w)).
Proof.
  intros Hnone result. unfold result, ForceDrawer.on_tick.
  rewrite Hnone. cbn [ForceDrawer.last_bkgnd_switch ForceDrawer.handles
                      ForceDrawer.force_scale].
  destruct (Rgt_dec (now2 - now1) 0.2) as [Hlate | Hsoon];
    cbn [fst snd ForceDrawer.handles]; rewrite ?emit_trace.
  - split; [reflexivity | ]. split.
    + right. rewrite <- app_assoc. reflexivity.
    + intros primitive Hin.
      apply in_app_or in Hin as [Hin | [Hin | []]]; [ | discriminate].
      apply in_app_or in Hin as [Hin | [Hin | []]]; [exact Hin | discriminate].
  - split; [reflexivity | ]. split.
    + left. reflexivity.
    + intros primitive Hin.
      apply in_app_or in Hin as [Hin | [Hin | []]]; [exact Hin | discriminate].
Qed.

Lemma force_drawer_alarm_on_no_support_witness :
  let result :=
    ForceDrawer.on_tick nat (fun _ _ _ => 0%nat) solver_on_left_foot
      [0; 0; 0] [0; 0; -9.81] [0; 0; 0.8] 39
      (RobotIK.mkStance None None) 100 100 force_drawer_busy world_half in
  ForceDrawer.handles (fst result) = [] /\
  (trace (snd result)
     = trace world_half ++ [ESetBkgndColor [0.8; 0.4; 0.4]] \/
   trace (snd result)
     = trace world_half ++ [ESetBkgndColor [0.8; 0.4; 0.4];
                            ESetBkgndColor [0.6; 0.6; 0.8]]) /\
  (forall primitive, In (EDraw primitive) (trace (snd result)) ->
                     In (EDraw primitive) (trace world_half)).
Proof.
  exact (force_drawer_alarm_on_no_support nat (fun _ _ _ => 0%nat)
           solver_on_left_foot [0; 0; 0] [0; 0; -9.81] [0; 0; 0.8] 39
           (RobotIK.mkStance None None) 100 100 force_drawer_busy world_half
           eq_refl).
Defined.

(** With a supported stance the same drawer draws the force and raises no
    alarm. *)
Example force_drawer_supported :
  ForceDrawer.on_tick nat (fun _ _ _ => 5%nat) solver_on_left_foot
    [0; 0; 0] [0; 0; -9.81] [0; 0; 0.8] 39
    (RobotIK.mkStance (Some flat_step) None) 100 100
    force_drawer_busy world_half
  = (ForceDrawer.mk None [5%nat] 0.0025, emit (EDraw "force") world_half).
Proof. reflexivity. Qed.

(** ** TubeDrawer.on_tick *)

Section TubeDrawerStages.

Variable H : Type.
Variable draw_point : list R -> TubeDrawer.colour -> R -> exn + H.
Variable draw_polyhedron :
  list (list R) -> string -> TubeDrawer.colour -> exn + list H.
Variable draw_3d_cone :
  list R -> list R -> list (list R) -> string -> TubeDrawer.colour ->
  exn + list H.
Variable draw_line : list R -> list R -> TubeDrawer.colour -> Z -> exn + H.
Variable draw_points : list (list R) -> TubeDrawer.colour -> R -> exn + H.
Variables (com_p comdd : list R).

Local Abbreviation draw_primal :=
  (TubeDrawer.draw_primal H draw_point draw_polyhedron).
Local Abbreviation draw_dual := (TubeDrawer.draw_dual H draw_3d_cone com_p).
Local Abbreviation draw_comdd :=
  (TubeDrawer.draw_comdd H draw_line draw_points comdd).
Local Abbreviation on_tick :=
  (TubeDrawer.on_tick H draw_point draw_polyhedron draw_3d_cone draw_line
                      draw_points com_p comdd).









End TubeDrawerStages.

(** ** The scheduler *)

Section SchedulerFacts.

Variable A : Type.






End SchedulerFacts.



(** The tick of the tube drawer on a tube with one polytope too many: the
    third polytope raises, the message is printed, the cone and the
    acceleration are drawn all the same. *)
Example tube_drawer_run :
  let result :=
    TubeDrawer.on_tick nat draw_point_ok draw_polyhedron_ok draw_3d_cone_ok
      draw_line_ok draw_points_ok [0; 0; 0.8] [0; 0; 0]
      tube_three_polytopes tube_drawer_new world_half in
  fst (fst result) = inr tt /\
  TubeDrawer.poly_handles (snd (fst result)) = [2%nat; 3%nat; 1%nat] /\
  TubeDrawer.cone_handles (snd (fst result)) = [4%nat] /\
  TubeDrawer.comdd_handle (snd (fst result)) = [5%nat; 6%nat] /\
  trace (snd result)
  = [EDraw "polyhedron"; EDraw "point";
     EPrint "Drawing of polytopes failed: list index out of range";
     EDraw "3d_cone"; EDraw "line"; EDraw "points"].
Proof. repeat split. Qed.

(** Two ticks of a scheduler whose first process always fails: the second
    process has run twice all the same. *)
Example scheduler_run :
  let sim :=
    Simulation.schedule_extra counting_process
      (Simulation.schedule failing_process (Simulation.mk [] [] 0.03 0 [])) in
  let result := Simulation.step 2 sim 0%nat world_half in
  Simulation.timed (fst (fst result)) = [0%nat; 1%nat; 0%nat; 1%nat] /\
  snd (fst result) = 22%nat /\
  trace (snd result)
  = [EPrint "on_tick failed: qhull"; EPrint "on_tick failed: qhull"].
Proof. repeat split. Qed.

(** ** update_robot_ik under the robot lock *)

Section RobotLock.

Import RobotIK.

Variables (robot_left_foot robot_right_foot : string).

Local Abbreviation update_robot_ik :=
  (RobotIK.update_robot_ik robot_left_foot robot_right_foot).
Local Abbreviation step := (RobotIK.step robot_left_foot robot_right_foot).
Local Abbreviation reachable :=
  (RobotIK.reachable robot_left_foot robot_right_foot).
Local Abbreviation both_feet :=
  (RobotIK.both_feet robot_left_foot robot_right_foot).
Local Abbreviation lock_invariant :=
  (RobotIK.lock_invariant robot_left_foot robot_right_foot).

Lemma add_task_keeps (t : task) (ts : gmap string task) (name : string) :
  is_Some (ts !! name) -> is_Some (add_task t ts !! name).
Proof.
  intros Hin. unfold add_task. rewrite lookup_insert_is_Some.
  destruct (decide (task_name t = name)); [left | right]; auto.
Qed.

Lemma lock_invariant_initial (s : state) :
  RobotIK.initial robot_left_foot robot_right_foot s -> lock_invariant s.
Proof.
  intros (Hlock & Htick & Hik & Hfeet).
  unfold RobotIK.lock_invariant. rewrite Hlock.
  split; [left; exact Htick | ]. split; [left; exact Hik | exact Hfeet].
Qed.

(** The tick thread takes one step. *)
Lemma lock_invariant_tick_run (s : state) (a : action) (rest : list action)
    (lk : option thread) (ts : gmap string task) (l : label) :
  lock_invariant s ->
  todo_tick s = a :: rest ->
  exec TickThread a (robot_lock s) (tasks s) = Some (lk, ts, l) ->
  lock_invariant (mkState lk ts rest (todo_ik s)) /\ l = Silent.
Proof.
  unfold RobotIK.lock_invariant. intros Hinv Htodo Hexec.
  destruct (robot_lock s) as [[ | ] | ] eqn:Hlock.
  - (* inside the callback *)
    destruct Hinv as [(fsm & Hcase) Hik].
    destruct Hcase as [H1 | [H2 | [H3 | [[H4 Hleft] | [H5 Hfeet]]]]];
      [ rewrite H1 in Htodo | rewrite H2 in Htodo | rewrite H3 in Htodo
      | rewrite H4 in Htodo | rewrite H5 in Htodo ];
      injection Htodo as <- <-; injection Hexec as <- <- <-;
      (split; [ | reflexivity]); cbn [robot_lock tasks todo_tick todo_ik].
    + split; [ | exact Hik]. exists fsm. right. left. reflexivity.
    + split; [ | exact Hik]. exists fsm. right. right. left. reflexivity.
    + split; [ | exact Hik]. exists fsm. right. right. right. left.
      split; [reflexivity | ].
      destruct (left_foot (cur_stance fsm));
        unfold add_task; cbn [task_name]; rewrite lookup_insert_eq;
        eexists; reflexivity.
    + split; [ | exact Hik]. exists fsm. right. right. right. right.
      split; [reflexivity | ]. split.
      * apply add_task_keeps. exact Hleft.
      * destruct (right_foot (cur_stance fsm));
          unfold add_task; cbn [task_name]; rewrite lookup_insert_eq;
          eexists; reflexivity.
    + split; [left; reflexivity | ]. split; [exact Hik | exact Hfeet].
  - (* the kinematics thread holds the lock: the callback waits *)
    destruct Hinv as ([Hnil | (fsm & Hprog)] & _ & _).
    + rewrite Hnil in Htodo. discriminate.
    + rewrite Hprog in Htodo. injection Htodo as <- <-. discriminate.
  - (* the lock is free: the callback enters *)
    destruct Hinv as ([Hnil | (fsm & Hprog)] & Hik & Hfeet).
    + rewrite Hnil in Htodo. discriminate.
    + rewrite Hprog in Htodo. injection Htodo as <- <-.
      injection Hexec as <- <- <-. split; [ | reflexivity].
      cbn [robot_lock tasks todo_tick todo_ik].
      split; [ | exact Hik]. exists fsm. left. reflexivity.
Qed.

(** The kinematics thread takes one step; what it reads has both feet. *)
Lemma lock_invariant_ik_run (s : state) (a : action) (rest : list action)
    (lk : option thread) (ts : gmap string task) (l : label) :
  lock_invariant s ->
  todo_ik s = a :: rest ->
  exec IKThread a (robot_lock s) (tasks s) = Some (lk, ts, l) ->
  lock_invariant (mkState lk ts (todo_tick s) rest) /\
  (forall seen, l = Solved seen -> both_feet seen).
Proof.
  unfold RobotIK.lock_invariant. intros Hinv Htodo Hexec.
  destruct (robot_lock s) as [[ | ] | ] eqn:Hlock.
  - destruct Hinv as [_ [Hnil | Hprog]].
    + rewrite Hnil in Htodo. discriminate.
    + rewrite Hprog in Htodo. injection Htodo as <- <-. discriminate.
  - destruct Hinv as (Htick & [Hsolve | Hrelease] & Hfeet).
    + rewrite Hsolve in Htodo. injection Htodo as <- <-.
      injection Hexec as <- <- <-. cbn [robot_lock tasks todo_tick todo_ik].
      split.
      * split; [exact Htick | ]. split; [right; reflexivity | exact Hfeet].
      * intros seen Hseen. injection Hseen as <-. exact Hfeet.
    + rewrite Hrelease in Htodo. injection Htodo as <- <-.
      injection Hexec as <- <- <-. cbn [robot_lock tasks todo_tick todo_ik].
      split; [ | discriminate].
      split; [exact Htick | ]. split; [left; reflexivity | exact Hfeet].
  - destruct Hinv as (Htick & [Hnil | Hprog] & Hfeet).
    + rewrite Hnil in Htodo. discriminate.
    + rewrite Hprog in Htodo. injection Htodo as <- <-.
      injection Hexec as <- <- <-. cbn [robot_lock tasks todo_tick todo_ik].
      split; [ | discriminate].
      split; [exact Htick | ]. split; [left; reflexivity | exact Hfeet].
Qed.

Lemma lock_invariant_step (s s' : state) (l : label) :
  lock_invariant s -> step s l s' ->
  lock_invariant s' /\ (forall seen, l = Solved seen -> both_feet seen).
Proof.
  intros Hinv Hstep.
  destruct Hstep as [s fsm Hnil | s a rest lk ts l Htodo Hexec
                    | s Hnil | s a rest lk ts l Htodo Hexec].
  - split; [ | discriminate].
    unfold RobotIK.lock_invariant in *. cbn [robot_lock tasks todo_tick todo_ik].
    destruct (robot_lock s) as [[ | ] | ].
    + destruct Hinv as [(fsm' & Hcase) _]. rewrite Hnil in Hcase.
      destruct Hcase as [H | [H | [H | [[H _] | [H _]]]]]; discriminate.
    + destruct Hinv as (_ & Hik & Hfeet).
      split; [right; exists fsm; reflexivity | ]. split; assumption.
    + destruct Hinv as (_ & Hik & Hfeet).
      split; [right; exists fsm; reflexivity | ]. split; assumption.
  - destruct (lock_invariant_tick_run s a rest lk ts l Hinv Htodo Hexec)
      as [Hinv' ->].
    split; [exact Hinv' | discriminate].
  - split; [ | discriminate].
    unfold RobotIK.lock_invariant in *. cbn [robot_lock tasks todo_tick todo_ik].
    destruct (robot_lock s) as [[ | ] | ].
    + destruct Hinv as [Htick _]. split; [exact Htick | right; reflexivity].
    + destruct Hinv as (_ & [H | H] & _); rewrite Hnil in H; discriminate.
    + destruct Hinv as (Htick & _ & Hfeet).
      split; [exact Htick | ]. split; [right; reflexivity | exact Hfeet].
  - apply (lock_invariant_ik_run s a rest lk ts l Hinv Htodo Hexec).
Qed.

Lemma reachable_lock_invariant (s : state) : reachable s -> lock_invariant s.
Proof.
  induction 1 as [s Hinit | s l s' Hreach IH Hstep].
  - apply lock_invariant_initial. exact Hinit.
  - apply (lock_invariant_step s s' l IH Hstep).
Qed.

Lemma both_feet_count (ts : gmap string task) :
  robot_left_foot <> robot_right_foot ->
  both_feet ts ->
  RobotIK.foot_tasks robot_left_foot robot_right_foot ts = 2%nat.
Proof.
  intros Hne [Hl Hr]. unfold RobotIK.foot_tasks.
  assert (Hdup : remove_dups [robot_left_foot; robot_right_foot]
                 = [robot_left_foot; robot_right_foot]).
  { cbn [remove_dups]. case_decide as Hin; [ | reflexivity].
    apply list_elem_of_singleton in Hin. contradiction. }
  rewrite Hdup. cbn [List.filter].
  rewrite !bool_decide_eq_true_2 by assumption. reflexivity.
Qed.

End RobotLock.

(** C5.  [update_robot_ik] does all its work on the task set inside one
    [with robot_lock:] block: it takes the lock once, removes the two
    foot tasks, puts back a contact task for a foot that has a contact
    and a link-pose task towards the free foot otherwise, and only then
    releases the lock.  In every interleaving with a kinematics thread
    that solves under the same lock, the task set the solver reads has
    both foot tasks. *)
Theorem update_robot_ik_atomic (robot_left_foot robot_right_foot : string) :
  robot_left_foot <> robot_right_foot ->
  (forall fsm,
      exists body,
        RobotIK.update_robot_ik robot_left_foot robot_right_foot fsm
        = RobotIK.Acquire :: body ++ [RobotIK.Release] /\
        Forall (fun a => a <> RobotIK.Acquire /\ a <> RobotIK.Release) body) /\
  (forall fsm ts,
      exists ts',
        RobotIK.run_alone RobotIK.TickThread
          (RobotIK.update_robot_ik robot_left_foot robot_right_foot fsm)
          None ts = Some (None, ts') /\
        ts' !! robot_left_foot
        = Some match RobotIK.left_foot (RobotIK.cur_stance fsm) with
               | Some contact => RobotIK.ContactTask robot_left_foot contact
               | None =>
                   RobotIK.LinkPoseTask robot_left_foot (RobotIK.free_foot fsm)
               end /\
        ts' !! robot_right_foot
        = Some match RobotIK.right_foot (RobotIK.cur_stance fsm) with
               | Some contact => RobotIK.ContactTask robot_right_foot contact
               | None =>
                   RobotIK.LinkPoseTask robot_right_foot (RobotIK.free_foot fsm)
               end /\
        (forall name, name <> robot_left_foot -> name <> robot_right_foot ->
                      ts' !! name = ts !! name)) /\
  (forall s seen s',
      RobotIK.reachable robot_left_foot robot_right_foot s ->
      RobotIK.step robot_left_foot robot_right_foot s (RobotIK.Solved seen) s' ->
      RobotIK.both_feet robot_left_foot robot_right_foot seen /\
      RobotIK.foot_tasks robot_left_foot robot_right_foot seen = 2%nat).
Proof.
  intros Hne. split; [ | split].
  - intros fsm. eexists [_; _; _; _]. split; [reflexivity | ].
    repeat constructor; discriminate.
  - intros fsm ts. eexists. split; [reflexivity | ].
    unfold RobotIK.add_task, RobotIK.remove_task.
    split; [ | split].
    + destruct (RobotIK.left_foot (RobotIK.cur_stance fsm)),
               (RobotIK.right_foot (RobotIK.cur_stance fsm));
        cbn [RobotIK.task_name];
        rewrite lookup_insert_ne by (intros E; apply Hne; symmetry; exact E);
        apply lookup_insert_eq.
    + destruct (RobotIK.left_foot (RobotIK.cur_stance fsm)),
               (RobotIK.right_foot (RobotIK.cur_stance fsm));
        cbn [RobotIK.task_name]; apply lookup_insert_eq.
    + intros name Hl Hr.
      destruct (RobotIK.left_foot (RobotIK.cur_stance fsm)),
               (RobotIK.right_foot (RobotIK.cur_stance fsm));
        cbn [RobotIK.task_name];
        rewrite !lookup_insert_ne, !lookup_delete_ne by congruence;
        reflexivity.
  - intros s seen s' Hreach Hstep.
    pose proof (reachable_lock_invariant _ _ s Hreach) as Hinv.
    destruct (lock_invariant_step _ _ s s' _ Hinv Hstep) as [_ Hseen].
    pose proof (Hseen seen eq_refl) as Hfeet.
    split; [exact Hfeet | ]. apply both_feet_count; assumption.
Qed.

Lemma ik_start_reachable :
  RobotIK.reachable "L_ANKLE_P_S" "R_ANKLE_P_S" ik_start.
Proof.
  apply RobotIK.reachable_initial. repeat split.
  - eexists. reflexivity.
  - eexists. reflexivity.
Qed.

Lemma ik_solving_reachable :
  RobotIK.reachable "L_ANKLE_P_S" "R_ANKLE_P_S" ik_solving.
Proof.
  pose (prog := RobotIK.update_robot_ik "L_ANKLE_P_S" "R_ANKLE_P_S"
                  fsm_left_support).
  pose (ts := RobotIK.tasks ik_start).
  pose (s1 := RobotIK.mkState None ts prog []).
  pose (s2 := RobotIK.mkState None ts prog RobotIK.ik_thread_step).
  assert (R1 : RobotIK.reachable "L_ANKLE_P_S" "R_ANKLE_P_S" s1).
  { exact (RobotIK.reachable_step _ _ ik_start RobotIK.Silent s1
             ik_start_reachable
             (RobotIK.step_tick_call _ _ ik_start fsm_left_support eq_refl)). }
  assert (R2 : RobotIK.reachable "L_ANKLE_P_S" "R_ANKLE_P_S" s2).
  { exact (RobotIK.reachable_step _ _ s1 RobotIK.Silent s2 R1
             (RobotIK.step_ik_call _ _ s1 eq_refl)). }
  exact (RobotIK.reachable_step _ _ s2 RobotIK.Silent ik_solving R2
           (RobotIK.step_ik_run _ _ s2
              RobotIK.Acquire [RobotIK.SolveIK; RobotIK.Release]
              (Some RobotIK.IKThread) ts RobotIK.Silent eq_refl eq_refl)).
Qed.

Lemma update_robot_ik_atomic_witness :
  "L_ANKLE_P_S" <> "R_ANKLE_P_S" /\
  RobotIK.reachable "L_ANKLE_P_S" "R_ANKLE_P_S" ik_solving /\
  RobotIK.foot_tasks "L_ANKLE_P_S" "R_ANKLE_P_S" (RobotIK.tasks ik_start)
    = 2%nat.
Proof.
  assert (Hne : "L_ANKLE_P_S" <> "R_ANKLE_P_S") by discriminate.
  split; [exact Hne | ]. split; [exact ik_solving_reachable | ].
  exact (proj2 (proj2 (proj2 (update_robot_ik_atomic
                                "L_ANKLE_P_S" "R_ANKLE_P_S" Hne))
                  ik_solving (RobotIK.tasks ik_start)
                  (RobotIK.mkState (Some RobotIK.IKThread)
                     (RobotIK.tasks ik_start)
                     (RobotIK.todo_tick ik_solving) [RobotIK.Release])
                  ik_solving_reachable
                  (RobotIK.step_ik_run "L_ANKLE_P_S" "R_ANKLE_P_S" ik_solving
                     RobotIK.SolveIK [RobotIK.Release]
                     (Some RobotIK.IKThread) (RobotIK.tasks ik_start)
                     (RobotIK.Solved (RobotIK.tasks ik_start))
                     eq_refl eq_refl))).
Defined.

(** Inside the callback the task set does pass through a state without
    any foot task; that state is reachable, with the lock held by the
    tick thread. *)
Example retargeting_has_no_foot_task :
  RobotIK.reachable "L_ANKLE_P_S" "R_ANKLE_P_S" ik_retargeting /\
  RobotIK.robot_lock ik_retargeting = Some RobotIK.TickThread /\
  RobotIK.foot_tasks "L_ANKLE_P_S" "R_ANKLE_P_S"
    (RobotIK.tasks ik_retargeting) = 0%nat.
Proof.
  split; [ | split; [reflexivity | vm_compute; reflexivity]].
  pose (prog := RobotIK.update_robot_ik "L_ANKLE_P_S" "R_ANKLE_P_S"
                  fsm_left_support).
  pose (ts := RobotIK.tasks ik_start).
  pose (s1 := RobotIK.mkState None ts prog []).
  pose (s2 := RobotIK.mkState (Some RobotIK.TickThread) ts (drop 1 prog) []).
  pose (s3 := RobotIK.mkState (Some RobotIK.TickThread)
                (RobotIK.remove_task "L_ANKLE_P_S" ts) (drop 2 prog) []).
  assert (R1 : RobotIK.reachable "L_ANKLE_P_S" "R_ANKLE_P_S" s1).
  { exact (RobotIK.reachable_step _ _ ik_start RobotIK.Silent s1
             ik_start_reachable
             (RobotIK.step_tick_call _ _ ik_start fsm_left_support eq_refl)). }
  assert (R2 : RobotIK.reachable "L_ANKLE_P_S" "R_ANKLE_P_S" s2).
  { exact (RobotIK.reachable_step _ _ s1 RobotIK.Silent s2 R1
             (RobotIK.step_tick_run _ _ s1 RobotIK.Acquire (drop 1 prog)
                (Some RobotIK.TickThread) ts RobotIK.Silent
                eq_refl eq_refl)). }
  assert (R3 : RobotIK.reachable "L_ANKLE_P_S" "R_ANKLE_P_S" s3).
  { exact (RobotIK.reachable_step _ _ s2 RobotIK.Silent s3 R2
             (RobotIK.step_tick_run _ _ s2
                (RobotIK.RemoveTask "L_ANKLE_P_S") (drop 2 prog)
                (Some RobotIK.TickThread)
                (RobotIK.remove_task "L_ANKLE_P_S" ts) RobotIK.Silent
                eq_refl eq_refl)). }
  exact (RobotIK.reachable_step _ _ s3 RobotIK.Silent ik_retargeting R3
           (RobotIK.step_tick_run _ _ s3
              (RobotIK.RemoveTask "R_ANKLE_P_S") (drop 3 prog)
              (Some RobotIK.TickThread)
              (RobotIK.remove_task "R_ANKLE_P_S"
                 (RobotIK.remove_task "L_ANKLE_P_S" ts)) RobotIK.Silent
              eq_refl eq_refl)).
Qed.

(* ================================================================= *)
(** * Further properties of the script *)

(** ** generate_staircase: geometry of the contacts *)

Section StaircaseGeometry.

Variables (radius angular_step height roughness mu step_dim_x step_dim_y : R).

Local Abbreviation loop_body :=
  (Staircase.loop_body radius angular_step height roughness mu
                       step_dim_x step_dim_y).
Local Abbreviation generate_staircase :=
  (Staircase.generate_staircase radius angular_step height roughness mu
                                step_dim_x step_dim_y).

Lemma height_band (theta : R) :
  radius - Rabs height / 2 <= radius + 0.5 * height * sin theta
    <= radius + Rabs height / 2.
Proof.
  pose proof (SIN_bound theta) as [Hlo Hhi].
  unfold Rabs. destruct (Rcase_abs height); split; nra.
Qed.

Lemma loop_body_well_formed (theta : R) (w : world) :
  let P := fun c =>
    visible c = true /\ length (pos c) = 3%nat /\ length (rpy c) = 3%nat /\
    exists z, pos c !! 2%nat = Some z /\
              radius - Rabs height / 2 <= z <= radius + Rabs height / 2 in
  P (fst (fst (loop_body theta w))) /\ P (snd (fst (loop_body theta w))).
Proof.
  cbv zeta. rewrite loop_body_left, loop_body_right. cbv zeta.
  cbn [visible pos rpy length lookup list_lookup].
  split; (split; [reflexivity | ]; split; [reflexivity | ];
          split; [reflexivity | ]; eexists; split; [reflexivity | ];
          apply height_band).
Qed.

End StaircaseGeometry.

(** X1.  Every contact that [generate_staircase] returns is visible, has
    a three-component position and a three-component orientation, and
    lies in the height band [radius - |height|/2, radius + |height|/2]. *)
Theorem staircase_contacts_well_formed
    (radius angular_step height roughness mu step_dim_x step_dim_y : R)
    (w : world) :
  match fst (Staircase.generate_staircase radius angular_step height
               roughness mu step_dim_x step_dim_y w) with
  | inr steps =>
      Forall (fun c =>
                visible c = true /\ length (pos c) = 3%nat /\
                length (rpy c) = 3%nat /\
                exists z, pos c !! 2%nat = Some z /\
                          radius - Rabs height / 2 <= z
                            <= radius + Rabs height / 2) steps
  | inl _ => True
  end.
Proof.
  unfold Staircase.generate_staircase.
  destruct (arange 0 (2 * pi) angular_step) as [e | thetas]; [exact I | ].
  pose proof (loop_Forall radius angular_step height roughness mu step_dim_x
                step_dim_y _ thetas
                (loop_body_well_formed radius angular_step height roughness
                   mu step_dim_x step_dim_y) [] w (List.Forall_nil _)) as Hall.
  destruct (Staircase.loop _ _ _ _ _ _ _ thetas [] w) as [steps w'].
  exact Hall.
Qed.



(** X3.  A successful call consumes exactly three doubles of the global
    generator per contact returned and leaves the rest of the sequence
    as it was; a failing call consumes none. *)
Theorem generate_staircase_draws
    (radius angular_step height roughness mu step_dim_x step_dim_y : R)
    (w : world) :
  let result :=
    Staircase.generate_staircase radius angular_step height roughness mu
      step_dim_x step_dim_y w in
  match fst result with
  | inr steps => snd result = skip (3 * length steps) w
  | inl _ => snd result = w
  end.
Proof.
  cbv zeta. unfold Staircase.generate_staircase.
  destruct (arange 0 (2 * pi) angular_step) as [e | thetas]; [reflexivity | ].
  pose proof (loop_world radius angular_step height roughness mu step_dim_x
                step_dim_y thetas [] w) as Hw.
  pose proof (loop_length radius angular_step height roughness mu step_dim_x
                step_dim_y thetas [] w) as Hlen.
  destruct (Staircase.loop _ _ _ _ _ _ _ thetas [] w) as [steps w'].
  cbn [fst snd] in *. rewrite Hw, Hlen. f_equal. simpl. lia.
Qed.



(** X5.  When the generator delivers doubles in [[0, 1)], as
    [numpy.random.random] does, the left and the right contact of every
    turn have roll and pitch within [roughness / 2] of zero and yaw
    within [roughness / 2] of [theta + pi/2]. *)
Theorem staircase_orientation_bounds
    (radius angular_step height roughness mu step_dim_x step_dim_y : R)
    (w : world) (k : nat) :
  (forall i, 0 <= peek (np_random w) i < 1) ->
  angular_step <> 0 ->
  (k < arange_len 0 (2 * pi) angular_step)%nat ->
  let theta := 0 + INR k * angular_step in
  let tilted := fun c =>
    exists roll pitch yaw,
      rpy c = [roll; pitch; yaw] /\
      - (Rabs roughness / 2) <= roll <= Rabs roughness / 2 /\
      - (Rabs roughness / 2) <= pitch <= Rabs roughness / 2 /\
      - (Rabs roughness / 2) <= yaw - (theta + 0.5 * PI)
        <= Rabs roughness / 2 in
  exists steps left_foot right_foot,
    fst (Staircase.generate_staircase radius angular_step height roughness
           mu step_dim_x step_dim_y w) = inr steps /\
    steps !! (2 * k)%nat = Some left_foot /\
    steps !! (2 * k + 1)%nat = Some right_foot /\
    tilted left_foot /\ tilted right_foot.
Proof.
  intros Hdraws Hstep Hk theta tilted.
  destruct (generate_staircase_lookup radius angular_step height roughness
              mu step_dim_x step_dim_y w k Hstep Hk)
    as (steps & Hret & HL & HR).
  rewrite loop_body_left in HL. rewrite loop_body_right in HR.
  exists steps. do 2 eexists.
  split; [exact Hret | ]. split; [exact HL | ]. split; [exact HR | ].
  assert (Hb : forall j,
             - (Rabs roughness / 2)
             <= roughness * (peek (np_random (skip (6 * k) w)) j - 0.5)
             <= Rabs roughness / 2).
  { intros j. apply perturbation_bound. rewrite peek_skip. apply Hdraws. }
  unfold tilted, theta. cbn [rpy].
  split; do 3 eexists; (split; [reflexivity | ]).
  - pose proof (Hb 0%nat). pose proof (Hb 1%nat). pose proof (Hb 2%nat).
    repeat split; lra.
  - pose proof (Hb 3%nat). pose proof (Hb 4%nat). pose proof (Hb 5%nat).
    repeat split; lra.
Qed.

Lemma world_eighths_unit_draws (i : nat) :
  0 <= peek (np_random world_eighths) i < 1.
Proof.
  unfold peek, world_eighths. cbn [np_random samples cursor].
  assert (Hlt : (((0 + i) mod 8) < 8)%nat) by (apply Nat.mod_upper_bound; lia).
  apply lt_INR in Hlt. pose proof (pos_INR ((0 + i) mod 8)).
  change (INR 8) with (1 + 1 + 1 + 1 + 1 + 1 + 1 + 1) in Hlt.
  split; lra.
Qed.

Lemma staircase_orientation_bounds_witness :
  (forall i, 0 <= peek (np_random world_eighths) i < 1) /\
  0.5 <> 0 /\ (1 < arange_len 0 (2 * pi) 0.5)%nat /\
  exists steps left_foot right_foot,
    fst (Staircase.generate_staircase 1.4 0.5 1.4 0.5 0.7 0.2 0.1
           world_eighths) = inr steps /\
    steps !! 2%nat = Some left_foot /\
    steps !! 3%nat = Some right_foot.
Proof.
  assert (H0 : 0.5 <> 0) by lra.
  assert (H1 : (1 < arange_len 0 (2 * pi) 0.5)%nat).
  { rewrite arange_len_scenario. lia. }
  split; [exact world_eighths_unit_draws | ].
  split; [exact H0 | ]. split; [exact H1 | ].
  destruct (staircase_orientation_bounds 1.4 0.5 1.4 0.5 0.7 0.2 0.1
              world_eighths 1 world_eighths_unit_draws H0 H1)
    as (steps & l & r & Hret & HL & HR & _).
  exists steps, l, r. auto.
Defined.

(** ** dash_graph_handles: used twice, and what it leaves *)

(** X6.  Dashing is idempotent: a second call changes nothing. *)
Theorem dash_graph_handles_idempotent (H : Type)
    (handles : list (option H)) :
  Handles.dash_graph_handles (Handles.dash_graph_handles handles)
  = Handles.dash_graph_handles handles.
Proof.
  apply list_eq. intros i. unfold Handles.dash_graph_handles at 1.
  assert (Hlen : length (Handles.dash_graph_handles handles) = length handles)
    by apply dash_fold_length.
  destruct (Nat.eq_dec (i mod 2) 0%nat) as [Hev | Hod].
  - destruct (Nat.lt_ge_cases i (length handles)) as [Hin | Hout].
    + rewrite dash_fold_even by (rewrite ?Hlen; lia || assumption).
      symmetry. apply dash_fold_even; [lia | exact Hin | exact Hev].
    + rewrite !lookup_ge_None_2; [reflexivity | lia | ].
      rewrite dash_fold_length. lia.
  - apply dash_fold_odd. exact Hod.
Qed.

(** X7.  After dashing no two neighbouring entries both hold a handle:
    of any two consecutive segments at most one stays drawn. *)
Theorem dash_graph_handles_no_neighbours (H : Type)
    (handles : list (option H)) (i : nat) (h1 h2 : H) :
  Handles.dash_graph_handles handles !! i = Some (Some h1) ->
  Handles.dash_graph_handles handles !! S i <> Some (Some h2).
Proof.
  intros Hi HSi.
  assert (Hlen : length (Handles.dash_graph_handles handles) = length handles)
    by apply dash_fold_length.
  pose proof (lookup_lt_Some _ _ _ Hi) as Li.
  pose proof (lookup_lt_Some _ _ _ HSi) as LSi.
  rewrite Hlen in Li, LSi.
  unfold Handles.dash_graph_handles in Hi, HSi.
  destruct (Nat.eq_dec (i mod 2) 0%nat) as [Hev | Hod].
  - rewrite dash_fold_even in Hi by (lia || assumption). discriminate.
  - assert (HevS : (S i mod 2 = 0)%nat).
    { pose proof (Nat.mod_upper_bound i 2 ltac:(lia)).
      replace (S i) with (i + 1)%nat by lia.
      rewrite Nat.Div0.add_mod by lia.
      replace (i mod 2)%nat with 1%nat by lia. reflexivity. }
    rewrite dash_fold_even in HSi by (lia || assumption). discriminate.
Qed.

Lemma dash_graph_handles_no_neighbours_witness :
  Handles.dash_graph_handles [Some 10%nat; Some 11%nat; Some 12%nat] !! 1%nat
    = Some (Some 11%nat) /\
  Handles.dash_graph_handles [Some 10%nat; Some 11%nat; Some 12%nat] !! 2%nat
    <> Some (Some 12%nat).
Proof.
  assert (H1 : Handles.dash_graph_handles
                 [Some 10%nat; Some 11%nat; Some 12%nat] !! 1%nat
               = Some (Some 11%nat)) by reflexivity.
  split; [exact H1 | ].
  exact (dash_graph_handles_no_neighbours nat _ 1%nat 11%nat 12%nat H1).
Defined.

(** ** update_robot_ik: what it overwrites, and the lock *)

Lemma update_robot_ik_result (robot_left_foot robot_right_foot : string)
    (fsm : RobotIK.StateMachine) :
  exists left_task right_task,
    RobotIK.task_name left_task = robot_left_foot /\
    RobotIK.task_name right_task = robot_right_foot /\
    forall ts0,
      RobotIK.run_alone RobotIK.TickThread
        (RobotIK.update_robot_ik robot_left_foot robot_right_foot fsm)
        None ts0
      = Some (None,
              <[robot_right_foot := right_task]>
                (<[robot_left_foot := left_task]>
                   (delete robot_right_foot (delete robot_left_foot ts0)))).
Proof.
  destruct fsm as [[[l | ] [r | ]] free]; do 2 eexists;
    (split; [ | split]); try (intros ts0; reflexivity); reflexivity.
Qed.

(** X8.  The task set that [update_robot_ik] leaves does not depend on
    the foot tasks it found: two task sets that agree on every other
    task give the same result.  In particular the callback is idempotent:
    run again on its own result, with the same stance, it changes
    nothing. *)
Theorem update_robot_ik_overwrites
    (robot_left_foot robot_right_foot : string)
    (fsm : RobotIK.StateMachine) :
  let call :=
    RobotIK.run_alone RobotIK.TickThread
      (RobotIK.update_robot_ik robot_left_foot robot_right_foot fsm) None in
  (forall ts1 ts2 : gmap string RobotIK.task,
      (forall name, name <> robot_left_foot -> name <> robot_right_foot ->
                    ts1 !! name = ts2 !! name) ->
      call ts1 = call ts2) /\
  (forall ts : gmap string RobotIK.task,
      exists ts', call ts = Some (None, ts') /\ call ts' = Some (None, ts')).
Proof.
  cbv zeta.
  destruct (update_robot_ik_result robot_left_foot robot_right_foot fsm)
    as (lt & rt & _ & _ & Hrun).
  assert (Hsame : forall ts1 ts2 : gmap string RobotIK.task,
             (forall name, name <> robot_left_foot ->
                           name <> robot_right_foot ->
                           ts1 !! name = ts2 !! name) ->
             <[robot_right_foot := rt]>
               (<[robot_left_foot := lt]>
                  (delete robot_right_foot (delete robot_left_foot ts1)))
             = <[robot_right_foot := rt]>
                 (<[robot_left_foot := lt]>
                    (delete robot_right_foot (delete robot_left_foot ts2)))).
  { intros ts1 ts2 Hagree. apply map_eq. intros name.
    destruct (decide (robot_right_foot = name)) as [-> | Hr].
    - rewrite !lookup_insert_eq. reflexivity.
    - rewrite !(lookup_insert_ne _ robot_right_foot) by exact Hr.
      destruct (decide (robot_left_foot = name)) as [-> | Hl].
      + rewrite !lookup_insert_eq. reflexivity.
      + rewrite !lookup_insert_ne, !lookup_delete_ne by assumption.
        apply Hagree; congruence. }
  split.
  - intros ts1 ts2 Hagree. rewrite !Hrun. do 2 f_equal.
    apply Hsame. exact Hagree.
  - intros ts. eexists. split; [apply Hrun | ].
    rewrite Hrun. do 2 f_equal. apply Hsame.
    intros name Hl Hr.
    rewrite !lookup_insert_ne, !lookup_delete_ne by congruence.
    reflexivity.
Qed.

Lemma update_robot_ik_overwrites_witness :
  (forall name, name <> "L_ANKLE_P_S" -> name <> "R_ANKLE_P_S" ->
                (∅ : gmap string RobotIK.task) !! name
                = RobotIK.tasks ik_start !! name) /\
  RobotIK.run_alone RobotIK.TickThread
    (RobotIK.update_robot_ik "L_ANKLE_P_S" "R_ANKLE_P_S" fsm_left_support)
    None ∅
  = RobotIK.run_alone RobotIK.TickThread
      (RobotIK.update_robot_ik "L_ANKLE_P_S" "R_ANKLE_P_S" fsm_left_support)
      None (RobotIK.tasks ik_start).
Proof.
  assert (H : forall name, name <> "L_ANKLE_P_S" -> name <> "R_ANKLE_P_S" ->
                (∅ : gmap string RobotIK.task) !! name
                = RobotIK.tasks ik_start !! name).
  { intros name Hl Hr. unfold ik_start. cbn [RobotIK.tasks].
    rewrite !lookup_insert_ne by congruence. reflexivity. }
  split; [exact H | ].
  exact (proj1 (update_robot_ik_overwrites "L_ANKLE_P_S" "R_ANKLE_P_S"
                  fsm_left_support) _ _ H).
Defined.

(** X9.  In every interleaving of the callback with the kinematics thread
    a thread touches or reads the task set only while it holds the lock,
    and no reachable state is stuck: some thread can always take a
    step. *)
Theorem robot_lock_discipline
    (robot_left_foot robot_right_foot : string) (s : RobotIK.state) :
  RobotIK.reachable robot_left_foot robot_right_foot s ->
  (forall a rest, RobotIK.todo_tick s = a :: rest -> a <> RobotIK.Acquire ->
                  RobotIK.robot_lock s = Some RobotIK.TickThread) /\
  (forall a rest, RobotIK.todo_ik s = a :: rest -> a <> RobotIK.Acquire ->
                  RobotIK.robot_lock s = Some RobotIK.IKThread) /\
  (exists l s', RobotIK.step robot_left_foot robot_right_foot s l s').
Proof.
  intros Hreach.
  pose proof (reachable_lock_invariant _ _ s Hreach) as Hinv.
  unfold RobotIK.lock_invariant in Hinv.
  destruct (RobotIK.robot_lock s) as [[ | ] | ] eqn:Hlock.
  - (* the tick thread holds the lock *)
    destruct Hinv as [(fsm & Hcase) Hik].
    split; [reflexivity | ]. split.
    + intros a rest Htodo Ha.
      destruct Hik as [H | H]; rewrite H in Htodo;
        [discriminate | injection Htodo as <- <-; contradiction].
    + destruct Hcase as [H | [H | [H | [[H _] | [H _]]]]];
        do 2 eexists;
        (eapply RobotIK.step_tick_run; [exact H | rewrite Hlock; reflexivity]).
  - (* the kinematics thread holds the lock *)
    destruct Hinv as (Htick & Hik & _).
    split; [ | split; [reflexivity | ]].
    + intros a rest Htodo Ha.
      destruct Htick as [H | (fsm & H)]; rewrite H in Htodo;
        [discriminate | injection Htodo as <- <-; contradiction].
    + destruct Hik as [H | H]; do 2 eexists;
        (eapply RobotIK.step_ik_run; [exact H | rewrite Hlock; reflexivity]).
  - (* the lock is free *)
    destruct Hinv as (Htick & Hik & _).
    split; [ | split].
    + intros a rest Htodo Ha.
      destruct Htick as [H | (fsm & H)]; rewrite H in Htodo;
        [discriminate | injection Htodo as <- <-; contradiction].
    + intros a rest Htodo Ha.
      destruct Hik as [H | H]; rewrite H in Htodo;
        [discriminate | injection Htodo as <- <-; contradiction].
    + destruct Hik as [H | H]; do 2 eexists.
      * apply RobotIK.step_ik_call. exact H.
      * eapply RobotIK.step_ik_run; [exact H | rewrite Hlock; reflexivity].
Qed.

Lemma robot_lock_discipline_witness :
  RobotIK.reachable "L_ANKLE_P_S" "R_ANKLE_P_S" ik_retargeting /\
  RobotIK.robot_lock ik_retargeting = Some RobotIK.TickThread /\
  exists l s', RobotIK.step "L_ANKLE_P_S" "R_ANKLE_P_S" ik_retargeting l s'.
Proof.
  destruct retargeting_has_no_foot_task as [Hreach _].
  split; [exact Hreach | ].
  destruct (robot_lock_discipline "L_ANKLE_P_S" "R_ANKLE_P_S" ik_retargeting
              Hreach) as (Htick & _ & Hstep).
  split; [ | exact Hstep].
  apply (Htick (RobotIK.AddTask
                  (RobotIK.ContactTask "L_ANKLE_P_S" flat_step))
               (drop 4 (RobotIK.update_robot_ik "L_ANKLE_P_S" "R_ANKLE_P_S"
                          fsm_left_support)));
    [reflexivity | discriminate].
Defined.

(** ** ForceDrawer.on_tick: supported ticks and the alarm colour *)

Lemma emit_draws_trace {A : Type} (what : string) (l : list A) :
  forall w,
    trace (fold_left (fun w' _ => emit (EDraw what) w') l w)
    = trace w ++ repeat (EDraw what) (length l).
Proof.
  induction l as [| x rest IH]; intros w; simpl.
  - rewrite app_nil_r. reflexivity.
  - rewrite IH, emit_trace, <- app_assoc. reflexivity.
Qed.

Lemma shown_colour_app (tr1 tr2 : list event) :
  shown_colour (tr1 ++ tr2)
  = fold_left (fun shown e =>
                 match e with
                 | ESetBkgndColor rgb => Some rgb
                 | _ => shown
                 end) tr2 (shown_colour tr1).
Proof. unfold shown_colour. apply fold_left_app. Qed.

Lemma shown_colour_draws (tr : list event) (what : string) (n : nat) :
  shown_colour (tr ++ repeat (EDraw what) n) = shown_colour tr.
Proof.
  rewrite shown_colour_app. induction n as [| n IH]; [reflexivity | exact IH].
Qed.

Lemma shown_colour_set (tr : list event) (rgb : list R) :
  shown_colour (tr ++ [ESetBkgndColor rgb]) = Some rgb.
Proof. rewrite shown_colour_app. reflexivity. Qed.

Lemma alarm_is_not_normal : [0.6; 0.6; 0.8] <> [0.8; 0.4; 0.4].
Proof. intros Heq. injection Heq as Heq _ _. lra. Qed.

Section ForceDrawerTicks.

Variable H : Type.
Variable draw_force : Contact -> list R -> R -> H.
Variable find_supporting_forces :
  RobotIK.Stance -> list R -> list R -> R -> R ->
  option (list (Contact * list R)).

(** X10.  On a tick with a non-empty force distribution the drawer holds
    exactly one handle per supporting contact, each drawn with the
    drawer's own scale, and the alarm colour is not sent: the viewer
    gets at most the reset to the normal colour. *)
Theorem force_drawer_supported_tick
    (comdd gravity com_p : list R) (robot_mass : R)
    (cur_stance : RobotIK.Stance) (now1 now2 : R)
    (self : ForceDrawer.t H) (w : world) :
  ForceDrawer.falsy
    (ForceDrawer.support_of_tick find_supporting_forces comdd gravity com_p
       robot_mass cur_stance) = false ->
  let result :=
    ForceDrawer.on_tick H draw_force find_supporting_forces comdd gravity
      com_p robot_mass cur_stance now1 now2 self w in
  exists support,
    ForceDrawer.support_of_tick find_supporting_forces comdd gravity com_p
      robot_mass cur_stance = Some support /\
    ForceDrawer.handles (fst result)
    = List.map (fun cf => draw_force (fst cf) (snd cf)
                            (ForceDrawer.force_scale self)) support /\
    ForceDrawer.force_scale (fst result) = ForceDrawer.force_scale self /\
    (trace (snd result)
     = trace w ++ repeat (EDraw "force") (length support) \/
     trace (snd result)
     = trace w ++ repeat (EDraw "force") (length support)
       ++ [ESetBkgndColor [0.6; 0.6; 0.8]]).
Proof.
  intros Hsome result. unfold result, ForceDrawer.on_tick.
  destruct (ForceDrawer.support_of_tick _ _ _ _ _ _) as [support | ];
    [ | discriminate].
  exists support. split; [reflexivity | ].
  rewrite Hsome.
  cbn [ForceDrawer.last_bkgnd_switch ForceDrawer.handles
       ForceDrawer.force_scale].
  destruct (ForceDrawer.last_bkgnd_switch self) as [last | ].
  - destruct (Rgt_dec (now2 - last) 0.2);
      cbn [fst snd ForceDrawer.handles ForceDrawer.force_scale];
      (split; [reflexivity | ]; split; [reflexivity | ]).
    + right. rewrite emit_trace, emit_draws_trace, <- app_assoc. reflexivity.
    + left. apply emit_draws_trace.
  - cbn [fst snd ForceDrawer.handles ForceDrawer.force_scale].
    split; [reflexivity | ]. split; [reflexivity | ].
    left. apply emit_draws_trace.
Qed.

(** X11.  The drawer and the viewer stay in step: if, before a tick, an
    alarm time is pending exactly when the viewer shows the alarm colour,
    then the same holds after the tick, whatever the support and the
    clock. *)
Theorem force_drawer_alarm_consistent
    (comdd gravity com_p : list R) (robot_mass : R)
    (cur_stance : RobotIK.Stance) (now1 now2 : R)
    (self : ForceDrawer.t H) (w : world) :
  (ForceDrawer.last_bkgnd_switch self = None <->
   shown_colour (trace w) <> Some [0.8; 0.4; 0.4]) ->
  let result :=
    ForceDrawer.on_tick H draw_force find_supporting_forces comdd gravity
      com_p robot_mass cur_stance now1 now2 self w in
  ForceDrawer.last_bkgnd_switch (fst result) = None <->
  shown_colour (trace (snd result)) <> Some [0.8; 0.4; 0.4].
Proof.
  intros Hinv result. unfold result, ForceDrawer.on_tick.
  destruct (ForceDrawer.falsy _) eqn:Hfalsy.
  - cbn [ForceDrawer.last_bkgnd_switch].
    destruct (Rgt_dec (now2 - now1) 0.2);
      cbn [fst snd ForceDrawer.last_bkgnd_switch];
      rewrite ?emit_trace, ?shown_colour_set.
    + split; [intros _ | reflexivity].
      intros Heq. apply alarm_is_not_normal. congruence.
    + split; [discriminate | intros Hne; contradiction].
  - cbn [ForceDrawer.last_bkgnd_switch].
    destruct (ForceDrawer.last_bkgnd_switch self) as [last | ] eqn:Hlast.
    + destruct (Rgt_dec (now2 - last) 0.2);
        cbn [fst snd ForceDrawer.last_bkgnd_switch];
        rewrite ?emit_trace, ?emit_draws_trace.
      * rewrite shown_colour_set.
        split; [intros _ | reflexivity].
        intros Heq. apply alarm_is_not_normal. congruence.
      * rewrite shown_colour_draws. exact Hinv.
    + cbn [fst snd ForceDrawer.last_bkgnd_switch].
      rewrite emit_draws_trace, shown_colour_draws. exact Hinv.
Qed.

End ForceDrawerTicks.

Lemma force_drawer_supported_tick_witness :
  let result :=
    ForceDrawer.on_tick nat (fun _ _ _ => 5%nat) solver_on_left_foot
      [0; 0; 0] [0; 0; -9.81] [0; 0; 0.8] 39
      (RobotIK.mkStance (Some flat_step) None) 100 100
      force_drawer_busy world_half in
  exists support,
    ForceDrawer.support_of_tick solver_on_left_foot [0; 0; 0] [0; 0; -9.81]
      [0; 0; 0.8] 39 (RobotIK.mkStance (Some flat_step) None) = Some support /\
    ForceDrawer.handles (fst result)
    = List.map (fun cf => 5%nat) support.
Proof.
  destruct (force_drawer_supported_tick nat (fun _ _ _ => 5%nat)
              solver_on_left_foot [0; 0; 0] [0; 0; -9.81] [0; 0; 0.8] 39
              (RobotIK.mkStance (Some flat_step) None) 100 100
              force_drawer_busy world_half eq_refl)
    as (support & Hs & Hh & _).
  exists support. split; [exact Hs | exact Hh].
Defined.

Lemma force_drawer_alarm_consistent_witness :
  (ForceDrawer.last_bkgnd_switch force_drawer_busy = None <->
   shown_colour (trace world_half) <> Some [0.8; 0.4; 0.4]) /\
  let result :=
    ForceDrawer.on_tick nat (fun _ _ _ => 5%nat) solver_on_left_foot
      [0; 0; 0] [0; 0; -9.81] [0; 0; 0.8] 39
      (RobotIK.mkStance None None) 100 100 force_drawer_busy world_half in
  (ForceDrawer.last_bkgnd_switch (fst result) = None <->
   shown_colour (trace (snd result)) <> Some [0.8; 0.4; 0.4]).
Proof.
  assert (H0 : ForceDrawer.last_bkgnd_switch force_drawer_busy = None <->
               shown_colour (trace world_half) <> Some [0.8; 0.4; 0.4]).
  { split; [intros _; discriminate | reflexivity]. }
  split; [exact H0 | ].
  exact (force_drawer_alarm_consistent nat (fun _ _ _ => 5%nat)
           solver_on_left_foot [0; 0; 0] [0; 0; -9.81] [0; 0; 0.8] 39
           (RobotIK.mkStance None None) 100 100 force_drawer_busy world_half
           H0).
Defined.

(** ** TrajectoryDrawer: the trajectory over many ticks *)

Lemma last_cons {A : Type} (l : list A) :
  forall a d, List.last (a :: l) d = List.last l a.
Proof.
  induction l as [| b rest IH]; intros a d.
  - reflexivity.
  - change (List.last (a :: b :: rest) d) with (List.last (b :: rest) d).
    rewrite !IH. reflexivity.
Qed.

Section TrajectoryTicks.

Variable H : Type.
Variable draw_line : list R -> list R -> string -> Z -> H.

Local Abbreviation on_tick := (TrajectoryTick.on_tick H draw_line).
Local Abbreviation run := (TrajectoryTick.run H draw_line).

Lemma trajectory_run_cons (tick : string * list R)
    (ticks : list (string * list R))
    (self : Handles.TrajectoryDrawer H) (w : world) :
  run (tick :: ticks) self w
  = run ticks (fst (on_tick (fst tick) (snd tick) self w))
              (snd (on_tick (fst tick) (snd tick) self w)).
Proof.
  unfold TrajectoryTick.run. cbn [fold_left fst snd].
  destruct (on_tick (fst tick) (snd tick) self w). reflexivity.
Qed.

(** X12.  The handles of a trajectory drawer form the connected polyline
    through the positions of the body at the ticks on which the drawer
    was active: handles already there are kept, each active tick adds
    the segment from the previous active position to the current one
    (for the style ['-']; none for any other style), and inactive ticks
    change nothing, so that the first segment after a pause bridges the
    pause. *)
Theorem trajectory_is_polyline (ticks : list (string * list R)) :
  forall (self : Handles.TrajectoryDrawer H) (w : world),
    let visited :=
      List.map snd
        (List.filter
           (fun tick => TrajectoryTick.active (Handles.lr self) (fst tick))
           ticks) in
    let segment := fun a b =>
      Some (draw_line a b (Handles.color self) (Handles.linewidth self)) in
    let self' := fst (run ticks self w) in
    Handles.last_pos self' = List.last visited (Handles.last_pos self) /\
    Handles.handles self'
    = Handles.handles self
      ++ (if (Handles.linestyle self =? "-")%string
          then zip_with segment (Handles.last_pos self :: visited) visited
          else []) /\
    Handles.body self' = Handles.body self /\
    Handles.color self' = Handles.color self /\
    Handles.linestyle self' = Handles.linestyle self /\
    Handles.linewidth self' = Handles.linewidth self /\
    Handles.lr self' = Handles.lr self.
Proof.
  induction ticks as [| tick rest IH]; intros self w; cbv zeta.
  - cbn. destruct (Handles.linestyle self =? "-")%string;
      rewrite ?app_nil_r; repeat split.
  - rewrite trajectory_run_cons. cbn [List.filter].
    specialize (IH (fst (on_tick (fst tick) (snd tick) self w))
                   (snd (on_tick (fst tick) (snd tick) self w))).
    cbv zeta in IH. unfold TrajectoryTick.on_tick in IH |- *.
    destruct (TrajectoryTick.active (Handles.lr self) (fst tick)) eqn:Hact;
      cbn [negb] in IH |- *.
    + destruct (Handles.linestyle self =? "-")%string eqn:Hstyle;
        cbn [fst snd Handles.last_pos Handles.handles Handles.body
             Handles.color Handles.linestyle Handles.linewidth Handles.lr]
          in IH |- *;
        rewrite ?Hstyle in IH;
        destruct IH as (Hlast & Hhandles & Hrest);
        cbn [List.map]; rewrite last_cons;
        (split; [exact Hlast | ]); (split; [ | exact Hrest]);
        rewrite Hhandles.
      * cbn [zip_with]. rewrite <- app_assoc. reflexivity.
      * reflexivity.
    + cbn [fst snd] in IH. exact IH.
Qed.

End TrajectoryTicks.

(** X13.  A drawer that [__init__] returns has the style ['-'] or ['.'],
    no handle, and starts from the position of the body it was given,
    also when [lr] makes it follow the free foot; after any number of
    ticks it still has that style and holds at most one handle per
    tick. *)
Theorem trajectory_drawer_init_then_run (H : Type)
    (draw_line : list R -> list R -> string -> Z -> H)
    (free_foot body : TrajectoryTick.Body) (combined : string)
    (color : option string) (linewidth : Z) (linestyle : option string)
    (lr : option Z) (self : Handles.TrajectoryDrawer H) :
  TrajectoryTick.init free_foot body combined color linewidth linestyle lr
    = inr self ->
  (Handles.linestyle self = "-" \/ Handles.linestyle self = ".") /\
  Handles.handles self = [] /\
  Handles.last_pos self = TrajectoryTick.p body /\
  Handles.body self
  = TrajectoryTick.name (match lr with
                         | Some _ => free_foot
                         | None => body
                         end) /\
  forall ticks w,
    let self' := fst (TrajectoryTick.run H draw_line ticks self w) in
    Handles.linestyle self' = Handles.linestyle self /\
    (length (Handles.handles self') <= length ticks)%nat.
Proof.
  unfold TrajectoryTick.init. intros Hinit.
  destruct (match color with
            | Some c => Some c
            | None => TrajectoryTick.char_at combined 0
            end) as [color' | ]; [ | discriminate].
  destruct (match linestyle with
            | Some l => Some l
            | None => TrajectoryTick.char_at combined 1
            end) as [linestyle' | ]; [ | discriminate].
  destruct ((linestyle' =? "-") || (linestyle' =? "."))%string eqn:Hstyle;
    [ | discriminate].
  injection Hinit as <-.
  cbn [Handles.linestyle Handles.handles Handles.last_pos Handles.body].
  split.
  { apply orb_true_iff in Hstyle as [Hs | Hs];
      apply String.eqb_eq in Hs; auto. }
  split; [reflexivity | ]. split; [reflexivity | ]. split; [reflexivity | ].
  intros ticks w.
  destruct (trajectory_is_polyline H draw_line ticks
              (Handles.mkTrajectoryDrawer
                 (TrajectoryTick.name (match lr with
                                       | Some _ => free_foot
                                       | None => body
                                       end))
                 color' [] (TrajectoryTick.p body) linestyle' linewidth lr) w)
    as (_ & Hhandles & _ & _ & Hline & _).
  cbv zeta. split; [exact Hline | ].
  rewrite Hhandles. cbn [Handles.handles Handles.linestyle app].
  destruct (linestyle' =? "-")%string; [ | simpl; lia].
  rewrite length_zip_with, length_map.
  pose proof (List.filter_length_le
                (fun tick => TrajectoryTick.active lr (fst tick)) ticks).
  cbn [Handles.lr length]. lia.
Qed.

Lemma trajectory_drawer_init_then_run_witness :
  TrajectoryTick.init free_foot_body left_foot_body "g-" None 3 None
    (Some 0%Z) = inr left_foot_traj_drawer /\
  (Handles.linestyle left_foot_traj_drawer = "-" \/
   Handles.linestyle left_foot_traj_drawer = ".") /\
  Handles.last_pos left_foot_traj_drawer = TrajectoryTick.p left_foot_body /\
  Handles.body left_foot_traj_drawer = TrajectoryTick.name free_foot_body.
Proof.
  assert (H0 : TrajectoryTick.init free_foot_body left_foot_body "g-" None 3
                 None (Some 0%Z) = inr left_foot_traj_drawer) by reflexivity.
  split; [exact H0 | ].
  destruct (trajectory_drawer_init_then_run (list R * list R)
              (fun a b _ _ => (a, b)) free_foot_body left_foot_body "g-"
              None 3 None (Some 0%Z) left_foot_traj_drawer H0)
    as (Hstyle & _ & Hpos & Hbody & _).
  split; [exact Hstyle | ]. split; [exact Hpos | exact Hbody].
Defined.

(** The left-foot drawer over a swing, a double support and a second
    swing of that foot: two segments, the second one across the pause. *)
Example left_foot_trajectory_run :
  Handles.handles
    (fst (TrajectoryTick.run (list R * list R) (fun a b _ _ => (a, b))
            [("SS-R", [0.1; 0.1; 0.2]); ("DS-L", [0.2; 0.1; 0]);
             ("SS-L", [0.2; 0.1; 0]); ("SS-R", [0.3; 0.1; 0.2])]
            left_foot_traj_drawer world_half))
  = [Some ([0; 0.1; 0], [0.1; 0.1; 0.2]);
     Some ([0.1; 0.1; 0.2], [0.3; 0.1; 0.2])].
Proof. reflexivity. Qed.

(** ** TubeDrawer: what each stage touches, and when it raises *)

Section TubeDrawerFrames.

Variable H : Type.
Variable draw_point : list R -> TubeDrawer.colour -> R -> exn + H.
Variable draw_polyhedron :
  list (list R) -> string -> TubeDrawer.colour -> exn + list H.
Variable draw_3d_cone :
  list R -> list R -> list (list R) -> string -> TubeDrawer.colour ->
  exn + list H.
Variable draw_line : list R -> list R -> TubeDrawer.colour -> Z -> exn + H.
Variable draw_points : list (list R) -> TubeDrawer.colour -> R -> exn + H.
Variables (com_p comdd : list R).

Local Abbreviation primal_loop :=
  (TubeDrawer.draw_primal_loop H draw_point draw_polyhedron).
Local Abbreviation dual_loop := (TubeDrawer.draw_dual_loop H draw_3d_cone).

Lemma draw_primal_loop_frame (vrep : list (list (list R))) :
  forall colors i self w,
    let self' := snd (fst (primal_loop colors i vrep self w)) in
    TubeDrawer.comdd_handle self' = TubeDrawer.comdd_handle self /\
    TubeDrawer.cone_handles self' = TubeDrawer.cone_handles self /\
    TubeDrawer.acc_scale self' = TubeDrawer.acc_scale self /\
    TubeDrawer.trans self' = TubeDrawer.trans self.
Proof.
  induction vrep as [| vertices rest IH]; intros colors i self w;
    cbn [TubeDrawer.draw_primal_loop]; cbv zeta.
  - repeat split.
  - assert (Next : forall hs x,
               let self' :=
                 snd (fst (primal_loop colors (S i) rest
                             (TubeDrawer.mk (TubeDrawer.comdd_handle self)
                                (TubeDrawer.cone_handles self) hs
                                (TubeDrawer.acc_scale self)
                                (TubeDrawer.trans self)) x)) in
               TubeDrawer.comdd_handle self' = TubeDrawer.comdd_handle self /\
               TubeDrawer.cone_handles self' = TubeDrawer.cone_handles self /\
               TubeDrawer.acc_scale self' = TubeDrawer.acc_scale self /\
               TubeDrawer.trans self' = TubeDrawer.trans self).
    { intros hs x. apply (IH colors (S i) (TubeDrawer.mk _ _ hs _ _) x). }
    destruct (colors !! i) as [color | ]; [ | repeat split].
    destruct vertices as [| v [| v' vs]].
    + destruct (draw_polyhedron _ _ _) as [e | hs]; [repeat split | ].
      apply Next.
    + destruct (draw_point _ _ _) as [e | h]; [repeat split | ].
      apply Next.
    + destruct (draw_polyhedron _ _ _) as [e | hs]; [repeat split | ].
      apply Next.
Qed.

Lemma draw_dual_loop_frame (vrep : list (list (list R))) :
  forall colors apex i self w,
    let self' := snd (fst (dual_loop colors apex i vrep self w)) in
    TubeDrawer.comdd_handle self' = TubeDrawer.comdd_handle self /\
    TubeDrawer.poly_handles self' = TubeDrawer.poly_handles self /\
    TubeDrawer.acc_scale self' = TubeDrawer.acc_scale self.
Proof.
  induction vrep as [| cone_vertices rest IH]; intros colors apex i self w;
    cbn [TubeDrawer.draw_dual_loop]; cbv zeta.
  - repeat split.
  - destruct (colors !! i) as [color | ]; [ | repeat split].
    destruct (draw_3d_cone _ _ _ _ _) as [e | hs]; [repeat split | ].
    apply (IH colors apex (S i)
              (TubeDrawer.mk _ (TubeDrawer.cone_handles self ++ hs) _ _ _)).
Qed.

(** X14.  Each drawing stage owns one attribute of the drawer and leaves
    the others alone, whether it returns or raises: [draw_primal] only
    replaces [poly_handles], [draw_dual] only replaces [cone_handles] and
    moves [trans] to the COM, [draw_comdd] only replaces [comdd_handle],
    and that only when both of its drawing calls succeed. *)
Theorem tube_drawer_stage_frames (tube : TubeDrawer.Tube)
    (self : TubeDrawer.t H) (w : world) :
  (let self' := snd (fst (TubeDrawer.draw_primal H draw_point draw_polyhedron
                            tube self w)) in
   TubeDrawer.comdd_handle self' = TubeDrawer.comdd_handle self /\
   TubeDrawer.cone_handles self' = TubeDrawer.cone_handles self /\
   TubeDrawer.acc_scale self' = TubeDrawer.acc_scale self /\
   TubeDrawer.trans self' = TubeDrawer.trans self) /\
  (let self' := snd (fst (TubeDrawer.draw_dual H draw_3d_cone com_p
                            tube self w)) in
   TubeDrawer.comdd_handle self' = TubeDrawer.comdd_handle self /\
   TubeDrawer.poly_handles self' = TubeDrawer.poly_handles self /\
   TubeDrawer.acc_scale self' = TubeDrawer.acc_scale self) /\
  (let result := TubeDrawer.draw_comdd H draw_line draw_points comdd self w in
   TubeDrawer.cone_handles (snd (fst result)) = TubeDrawer.cone_handles self /\
   TubeDrawer.poly_handles (snd (fst result)) = TubeDrawer.poly_handles self /\
   TubeDrawer.acc_scale (snd (fst result)) = TubeDrawer.acc_scale self /\
   TubeDrawer.trans (snd (fst result)) = TubeDrawer.trans self /\
   (forall e, fst (fst result) = inl e ->
              TubeDrawer.comdd_handle (snd (fst result))
              = TubeDrawer.comdd_handle self)).
Proof.
  split; [ | split].
  - unfold TubeDrawer.draw_primal.
    match goal with
    | |- context [TubeDrawer.draw_primal_loop _ _ _ ?c ?i ?v ?s ?x] =>
        pose proof (draw_primal_loop_frame v c i s x) as Hframe
    end.
    exact Hframe.
  - unfold TubeDrawer.draw_dual. cbv zeta.
    match goal with
    | |- context [TubeDrawer.draw_dual_loop _ _ ?c ?a ?i ?v ?s ?x] =>
        pose proof (draw_dual_loop_frame v c a i s x) as Hframe
    end.
    exact Hframe.
  - unfold TubeDrawer.draw_comdd. cbv zeta.
    destruct (draw_line _ _ _ _) as [e | line]; [repeat split | ].
    destruct (draw_points _ _ _) as [e | points]; repeat split.
    intros e He. discriminate.
Qed.

(** With drawing calls that succeed, the only way for the loop over the
    polytopes to stop early is to run out of colours. *)
Lemma draw_primal_loop_outcome (vrep : list (list (list R))) :
  (forall p c sz, exists h, draw_point p c sz = inr h) ->
  (forall vs cb c, exists hs, draw_polyhedron vs cb c = inr hs) ->
  forall colors i self w,
    (i <= length colors)%nat ->
    let result := primal_loop colors i vrep self w in
    fst (fst result)
    = (if (i + length vrep <=? length colors)%nat
       then inr tt else inl IndexError) /\
    exists log,
      trace (snd result) = trace w ++ log /\
      length log = Nat.min (length vrep) (length colors - i).
Proof.
  intros Hpoint Hpoly.
  induction vrep as [| vertices rest IH]; intros colors i self w Hi;
    cbn [TubeDrawer.draw_primal_loop]; cbv zeta.
  - split.
    + cbn [length]. rewrite Nat.add_0_r.
      apply Nat.leb_le in Hi. rewrite Hi. reflexivity.
    + exists []. rewrite app_nil_r. split; reflexivity.
  - cbn [length].
    destruct (colors !! i) as [color | ] eqn:Hcol.
    + pose proof (lookup_lt_Some _ _ _ Hcol) as Hlt.
      assert (Next : forall self1 what,
                 fst (fst (primal_loop colors (S i) rest self1
                             (emit (EDraw what) w)))
                 = (if (i + S (length rest) <=? length colors)%nat
                    then inr tt else inl IndexError) /\
                 exists log,
                   trace (snd (primal_loop colors (S i) rest self1
                                 (emit (EDraw what) w)))
                   = trace w ++ log /\
                   length log
                   = Nat.min (S (length rest)) (length colors - i)).
      { intros self1 what.
        destruct (IH colors (S i) self1 (emit (EDraw what) w) Hlt)
          as (Hres & log & Hlog & Hlen).
        split.
        - rewrite Hres. replace (i + S (length rest))%nat
            with (S i + length rest)%nat by lia. reflexivity.
        - exists (EDraw what :: log). split.
          + rewrite Hlog, emit_trace, <- app_assoc. reflexivity.
          + cbn [length]. rewrite Hlen. lia. }
      destruct vertices as [| v [| v' vs]].
      * destruct (Hpoly [] "*.-#"%string color) as [hs ->]. apply Next.
      * destruct (Hpoint v color 0.01) as [h ->]. apply Next.
      * destruct (Hpoly (v :: v' :: vs) "*.-#"%string color) as [hs ->].
        apply Next.
    + pose proof (lookup_ge_None_1 _ _ Hcol) as Hge.
      split.
      * assert (Hleb : (i + S (length rest) <=? length colors)%nat = false)
          by (apply Nat.leb_gt; lia).
        rewrite Hleb. reflexivity.
      * exists []. rewrite app_nil_r. split; [reflexivity | ].
        cbn [length]. lia.
Qed.

Lemma draw_dual_loop_outcome (vrep : list (list (list R))) :
  (forall a x sec cb c, exists hs, draw_3d_cone a x sec cb c = inr hs) ->
  forall colors apex i self w,
    (i <= length colors)%nat ->
    let result := dual_loop colors apex i vrep self w in
    fst (fst result)
    = (if (i + length vrep <=? length colors)%nat
       then inr tt else inl IndexError) /\
    exists log,
      trace (snd result) = trace w ++ log /\
      length log = Nat.min (length vrep) (length colors - i).
Proof.
  intros Hcone.
  induction vrep as [| cone_vertices rest IH]; intros colors apex i self w Hi;
    cbn [TubeDrawer.draw_dual_loop]; cbv zeta.
  - split.
    + cbn [length]. rewrite Nat.add_0_r.
      apply Nat.leb_le in Hi. rewrite Hi. reflexivity.
    + exists []. rewrite app_nil_r. split; reflexivity.
  - cbn [length].
    destruct (colors !! i) as [color | ] eqn:Hcol.
    + pose proof (lookup_lt_Some _ _ _ Hcol) as Hlt.
      match goal with
      | |- context [draw_3d_cone ?a ?x ?sec ?cb ?c] =>
          destruct (Hcone a x sec cb c) as [hs ->]
      end.
      match goal with
      | |- context [TubeDrawer.draw_dual_loop _ _ _ _ _ _ ?s ?x] =>
          destruct (IH colors apex (S i) s x Hlt) as (Hres & log & Hlog & Hlen)
      end.
      split.
      * rewrite Hres. replace (i + S (length rest))%nat
          with (S i + length rest)%nat by lia. reflexivity.
      * exists (EDraw "3d_cone" :: log). split.
        -- rewrite Hlog, emit_trace, <- app_assoc. reflexivity.
        -- cbn [length]. rewrite Hlen. lia.
    + pose proof (lookup_ge_None_1 _ _ Hcol) as Hge.
      split.
      * assert (Hleb : (i + S (length rest) <=? length colors)%nat = false)
          by (apply Nat.leb_gt; lia).
        rewrite Hleb. reflexivity.
      * exists []. rewrite app_nil_r. split; [reflexivity | ].
        cbn [length]. lia.
Qed.

(** X15.  When pymanoid's drawing calls succeed, [draw_primal] returns
    normally exactly when the tube has at most two polytopes, and
    [draw_dual] exactly when it has at most two cones; with more, the
    stage raises [IndexError] after having drawn the first two. *)
Theorem tube_drawer_two_colours (tube : TubeDrawer.Tube)
    (self : TubeDrawer.t H) (w : world) :
  (forall p c sz, exists h, draw_point p c sz = inr h) ->
  (forall vs cb c, exists hs, draw_polyhedron vs cb c = inr hs) ->
  (forall a x sec cb c, exists hs, draw_3d_cone a x sec cb c = inr hs) ->
  (let result := TubeDrawer.draw_primal H draw_point draw_polyhedron
                   tube self w in
   fst (fst result)
   = (if (length (TubeDrawer.primal_vrep tube) <=? 2)%nat
      then inr tt else inl IndexError) /\
   exists log,
     trace (snd result) = trace w ++ log /\
     length log = Nat.min (length (TubeDrawer.primal_vrep tube)) 2) /\
  (let result := TubeDrawer.draw_dual H draw_3d_cone com_p tube self w in
   fst (fst result)
   = (if (length (TubeDrawer.dual_vrep tube) <=? 2)%nat
      then inr tt else inl IndexError) /\
   exists log,
     trace (snd result) = trace w ++ log /\
     length log = Nat.min (length (TubeDrawer.dual_vrep tube)) 2).
Proof.
  intros Hpoint Hpoly Hcone.
  assert (Hcolours : length (TubeDrawer.colours_of tube) = 2%nat).
  { unfold TubeDrawer.colours_of.
    destruct (TubeDrawer.start_stance_is_single_support tube); reflexivity. }
  split.
  - unfold TubeDrawer.draw_primal.
    match goal with
    | |- context [TubeDrawer.draw_primal_loop _ _ _ ?c ?i ?v ?s ?x] =>
        pose proof (draw_primal_loop_outcome v Hpoint Hpoly c i s x) as Hout
    end.
    rewrite Hcolours in Hout. apply Hout. lia.
  - unfold TubeDrawer.draw_dual. cbv zeta.
    match goal with
    | |- context [TubeDrawer.draw_dual_loop _ _ ?c ?a ?i ?v ?s ?x] =>
        pose proof (draw_dual_loop_outcome v Hcone c a i s x) as Hout
    end.
    rewrite Hcolours in Hout. apply Hout. lia.
Qed.

End TubeDrawerFrames.

Lemma tube_drawer_two_colours_witness :
  (forall p c sz, exists h, draw_point_ok p c sz = inr h) /\
  (forall vs cb c, exists hs, draw_polyhedron_ok vs cb c = inr hs) /\
  (forall a x sec cb c, exists hs, draw_3d_cone_ok a x sec cb c = inr hs) /\
  fst (fst (TubeDrawer.draw_primal nat draw_point_ok draw_polyhedron_ok
              tube_three_polytopes tube_drawer_new world_half))
  = inl IndexError.
Proof.
  assert (H1 : forall p c sz, exists h, draw_point_ok p c sz = inr h)
    by (intros; eexists; reflexivity).
  assert (H2 : forall vs cb c, exists hs, draw_polyhedron_ok vs cb c = inr hs)
    by (intros; eexists; reflexivity).
  assert (H3 : forall a x sec cb c,
             exists hs, draw_3d_cone_ok a x sec cb c = inr hs)
    by (intros; eexists; reflexivity).
  split; [exact H1 | ]. split; [exact H2 | ]. split; [exact H3 | ].
  exact (proj1 (proj1 (tube_drawer_two_colours nat draw_point_ok
                         draw_polyhedron_ok draw_3d_cone_ok [0; 0; 0.8]
                         tube_three_polytopes tube_drawer_new world_half
                         H1 H2 H3))).
Defined.

(** ** SEPDrawer.on_tick *)

Lemma lift_spec (sep_height : R) (vertices : list (list R)) :
  forall points,
    SEPDrawer.lift sep_height vertices = inr points ->
    length points = length vertices /\
    Forall (fun pt => pt !! 2%nat = Some sep_height /\ length pt = 3%nat)
           points /\
    forall i pt, points !! i = Some pt ->
      exists x, vertices !! i = Some x /\
                pt !! 0%nat = x !! 0%nat /\ pt !! 1%nat = x !! 1%nat.
Proof.
  induction vertices as [| x rest IH]; intros points Hlift;
    cbn [SEPDrawer.lift] in Hlift.
  - injection Hlift as <-. split; [reflexivity | ].
    split; [constructor | ]. intros i pt Hpt. discriminate.
  - destruct (x !! 0%nat) as [x0 | ] eqn:H0; [ | discriminate].
    destruct (x !! 1%nat) as [x1 | ] eqn:H1; [ | discriminate].
    destruct (SEPDrawer.lift sep_height rest) as [e | lifted];
      [discriminate | ].
    injection Hlift as <-.
    destruct (IH lifted eq_refl) as (Hlen & Hall & Hxy).
    split; [cbn [length]; rewrite Hlen; reflexivity | ].
    split; [constructor; [split; reflexivity | exact Hall] | ].
    intros [| i] pt Hpt.
    + injection Hpt as <-. exists x. rewrite H0, H1. repeat split.
    + apply (Hxy i pt Hpt).
Qed.

Lemma lift_total (sep_height : R) (vertices : list (list R)) :
  Forall (fun x => (2 <= length x)%nat) vertices ->
  exists points, SEPDrawer.lift sep_height vertices = inr points.
Proof.
  induction 1 as [| x rest Hx Hrest [points IH]]; cbn [SEPDrawer.lift].
  - eexists. reflexivity.
  - destruct x as [| x0 [| x1 xs]]; [simpl in Hx; lia | simpl in Hx; lia | ].
    cbn [lookup list_lookup]. rewrite IH. eexists. reflexivity.
Qed.

(** X16.  When every vertex of the two polygons has at least two
    coordinates, [SEPDrawer.on_tick] returns normally with both handles
    set.  The cyan polygon is that of the current stance if it is in
    single support and of the next stance otherwise, the yellow one that
    of the other stance; each keeps the number of vertices and their
    first two coordinates, and puts every vertex at the height
    [com.z - leg_length]. *)
Theorem sep_drawer_polygons (H : Type)
    (draw_polygon : list (list R) -> list R -> string -> H)
    (cur_stance next_stance : SEPDrawer.Stance) (com_z leg_length : R)
    (self : SEPDrawer.t H) (w : world) :
  Forall (fun x => (2 <= length x)%nat) (SEPDrawer.sep cur_stance) ->
  Forall (fun x => (2 <= length x)%nat) (SEPDrawer.sep next_stance) ->
  let ss_stance :=
    if SEPDrawer.is_single_support cur_stance then cur_stance
    else next_stance in
  let ds_stance :=
    if SEPDrawer.is_single_support cur_stance then next_stance
    else cur_stance in
  let flat := fun stance points =>
    length points = length (SEPDrawer.sep stance) /\
    Forall (fun pt => pt !! 2%nat = Some (com_z - leg_length) /\
                      length pt = 3%nat) points /\
    forall i pt, points !! i = Some pt ->
      exists x, SEPDrawer.sep stance !! i = Some x /\
                pt !! 0%nat = x !! 0%nat /\ pt !! 1%nat = x !! 1%nat in
  exists ss_points ds_points,
    SEPDrawer.on_tick H draw_polygon cur_stance next_stance com_z leg_length
      self w
    = (inr tt,
       SEPDrawer.mk (Some (draw_polygon ss_points [0; 0; 1] "c"))
                    (Some (draw_polygon ds_points [0; 0; 1] "y")),
       emit (EDraw "polygon") (emit (EDraw "polygon") w)) /\
    flat ss_stance ss_points /\ flat ds_stance ds_points.
Proof.
  intros Hcur Hnext ss_stance ds_stance flat.
  assert (Hss : Forall (fun x => (2 <= length x)%nat)
                       (SEPDrawer.sep ss_stance)).
  { unfold ss_stance.
    destruct (SEPDrawer.is_single_support cur_stance); assumption. }
  assert (Hds : Forall (fun x => (2 <= length x)%nat)
                       (SEPDrawer.sep ds_stance)).
  { unfold ds_stance.
    destruct (SEPDrawer.is_single_support cur_stance); assumption. }
  destruct (lift_total (com_z - leg_length) _ Hss) as [ss_points Hl1].
  destruct (lift_total (com_z - leg_length) _ Hds) as [ds_points Hl2].
  exists ss_points, ds_points. split.
  - unfold SEPDrawer.on_tick. fold ss_stance ds_stance.
    replace (if SEPDrawer.is_single_support cur_stance
             then (cur_stance, next_stance) else (next_stance, cur_stance))
      with (ss_stance, ds_stance)
      by (unfold ss_stance, ds_stance;
          destruct (SEPDrawer.is_single_support cur_stance); reflexivity).
    cbv zeta. rewrite Hl1, Hl2. reflexivity.
  - split; [apply (lift_spec _ _ _ Hl1) | apply (lift_spec _ _ _ Hl2)].
Qed.

Lemma sep_drawer_polygons_witness :
  Forall (fun x => (2 <= length x)%nat) (SEPDrawer.sep sep_double) /\
  Forall (fun x => (2 <= length x)%nat) (SEPDrawer.sep sep_single) /\
  exists ss_points ds_points,
    SEPDrawer.on_tick (list (list R)) (fun pts _ _ => pts)
      sep_double sep_single 0.8 0.7 (SEPDrawer.mk None None) world_half
    = (inr tt, SEPDrawer.mk (Some ss_points) (Some ds_points),
       emit (EDraw "polygon") (emit (EDraw "polygon") world_half)) /\
    length ss_points = 3%nat /\ length ds_points = 4%nat.
Proof.
  assert (H1 : Forall (fun x => (2 <= length x)%nat)
                      (SEPDrawer.sep sep_double))
    by (repeat constructor).
  assert (H2 : Forall (fun x => (2 <= length x)%nat)
                      (SEPDrawer.sep sep_single))
    by (repeat constructor).
  split; [exact H1 | ]. split; [exact H2 | ].
  destruct (sep_drawer_polygons (list (list R)) (fun pts _ _ => pts)
              sep_double sep_single 0.8 0.7 (SEPDrawer.mk None None)
              world_half H1 H2)
    as (ss_points & ds_points & Hrun & (Hl1 & _) & (Hl2 & _)).
  exists ss_points, ds_points. split; [exact Hrun | ].
  split; [exact Hl1 | exact Hl2].
Defined.

(** ** PreviewDrawer.on_tick *)

Lemma fold_left_ext_in {A B : Type} (f g : A -> B -> A) (l : list B) :
  (forall a b, In b l -> f a b = g a b) ->
  forall a, fold_left f l a = fold_left g l a.
Proof.
  induction l as [| b rest IH]; intros Hext a; [reflexivity | ].
  cbn [fold_left]. rewrite Hext by (left; reflexivity).
  apply IH. intros a' b' Hin. apply Hext. right. exact Hin.
Qed.

Section PreviewTicks.

Variable H : Type.
Variable draw_point : list R -> string -> R -> H.
Variable draw_line : list R -> list R -> string -> Z -> H.
Variables (com_p com_pd : list R) (pd_shared : bool).

Local Abbreviation loop_body :=
  (PreviewDrawer.loop_body H draw_point draw_line).
Local Abbreviation on_tick :=
  (PreviewDrawer.on_tick H draw_point draw_line com_p com_pd).

Lemma preview_loop_count (preview : PreviewDrawer.Preview)
    (self : PreviewDrawer.t H) (l : list nat) :
  forall st,
    length (snd (fst (fold_left
                        (fun st k => loop_body preview pd_shared self k st)
                        l st)))
    = (length (snd (fst st))
       + (if PreviewDrawer.draw_free_traj self then 4 else 2) * length l)%nat.
Proof.
  induction l as [| k rest IH]; intros st; cbn [fold_left].
  - cbn [length]. lia.
  - rewrite IH. destruct st as [[v hs] w].
    unfold PreviewDrawer.loop_body. cbv zeta.
    destruct (PreviewDrawer.draw_free_traj self);
      cbn [fst snd length]; rewrite !length_app; cbn [length]; lia.
Qed.

(** X17.  After a tick the preview drawer holds one handle for the COM
    and, for each of the [len(U) / 3] whole steps of the preview, two
    handles (a point and a segment), or four when the free trajectory is
    drawn too; the handles of the tick before are gone and the flag is
    unchanged. *)
Theorem preview_drawer_handle_count (preview : PreviewDrawer.Preview)
    (self : PreviewDrawer.t H) (w : world) :
  let self' := fst (fst (on_tick preview pd_shared self w)) in
  length (PreviewDrawer.handles self')
  = (1 + (if PreviewDrawer.draw_free_traj self then 4 else 2)
         * (length (PreviewDrawer.U preview) / 3))%nat /\
  PreviewDrawer.draw_free_traj self' = PreviewDrawer.draw_free_traj self.
Proof.
  cbv zeta. unfold PreviewDrawer.on_tick. cbv zeta.
  match goal with
  | |- context [fold_left ?f ?l ?st] =>
      pose proof (preview_loop_count preview self l st) as Hcount;
      destruct (fold_left f l st) as [[v hs] w']
  end.
  cbn [fst snd PreviewDrawer.handles PreviewDrawer.draw_free_traj length]
    in *.
  rewrite Hcount, length_seq. split; [lia | reflexivity].
Qed.

(** X18.  Entries of [U] beyond the last whole group of three play no
    part: the tick is the same as on [U] cut to [3 * (len(U) / 3)]
    entries. *)
Theorem preview_drawer_ignores_stray_entries
    (dT : R) (U : list R) (switch : option Z)
    (self : PreviewDrawer.t H) (w : world) :
  on_tick (PreviewDrawer.mkPreview dT U switch) pd_shared self w
  = on_tick (PreviewDrawer.mkPreview dT (take (3 * (length U / 3)) U) switch)
            pd_shared self w.
Proof.
  unfold PreviewDrawer.on_tick. cbv zeta. cbn [PreviewDrawer.U].
  assert (Hle : (3 * (length U / 3) <= length U)%nat)
    by (apply Nat.Div0.mul_div_le).
  assert (Hn : (length (take (3 * (length U / 3)) U) / 3
                = length U / 3)%nat).
  { rewrite length_take_le by exact Hle.
    rewrite Nat.mul_comm. apply Nat.div_mul. lia. }
  rewrite Hn.
  rewrite (fold_left_ext_in
             (fun st k => loop_body (PreviewDrawer.mkPreview dT U switch)
                            pd_shared self k st)
             (fun st k => loop_body
                            (PreviewDrawer.mkPreview dT
                               (take (3 * (length U / 3)) U) switch)
                            pd_shared self k st)); [reflexivity | ].
  intros [[v hs] w0] k Hin. apply in_seq in Hin.
  unfold PreviewDrawer.loop_body.
  cbn [PreviewDrawer.U PreviewDrawer.timestep PreviewDrawer.switch_step].
  assert (Hslice : take 3 (drop (3 * k) (take (3 * (length U / 3)) U))
                   = take 3 (drop (3 * k) U)).
  { rewrite !take_drop_commute, take_take. f_equal. f_equal. lia. }
  rewrite Hslice. reflexivity.
Qed.

End PreviewTicks.

(** The preview of two steps, drawn with the free trajectory: nine
    handles, and the stray entries 7, 7 of [U] are not used. *)
Example preview_drawer_run :
  length (PreviewDrawer.handles
            (fst (fst (PreviewDrawer.on_tick nat (fun _ _ _ => 1%nat)
                    (fun _ _ _ _ => 2%nat) [0; 0; 0.8] [0.1; 0; 0]
                    preview_two_steps false
                    (PreviewDrawer.mk true [9%nat]) world_half))))
  = 9%nat.
Proof. reflexivity. Qed.

(** ** ScreenshotTaker.on_tick: the file names *)

Lemma string_app_cons (a : Ascii.ascii) (s t : string) :
  (String a s ++ t)%string = String a (s ++ t)%string.
Proof. reflexivity. Qed.

Lemma string_app_nil (t : string) : ("" ++ t)%string = t.
Proof. reflexivity. Qed.

Lemma string_length_app (s t : string) :
  String.length (s ++ t)%string = (String.length s + String.length t)%nat.
Proof.
  induction s as [| a s IH]; [reflexivity | ].
  rewrite string_app_cons. cbn [String.length]. rewrite IH. reflexivity.
Qed.

Lemma string_app_inv_head (s t1 t2 : string) :
  (s ++ t1 = s ++ t2)%string -> t1 = t2.
Proof.
  induction s as [| a s IH]; intros Heq; [exact Heq | ].
  rewrite !string_app_cons in Heq. injection Heq as Heq. apply IH. exact Heq.
Qed.

Lemma string_app_inv_tail (t : string) :
  forall s1 s2, (s1 ++ t = s2 ++ t)%string -> s1 = s2.
Proof.
  induction s1 as [| a s1 IH]; intros [| b s2] Heq.
  - reflexivity.
  - apply (f_equal String.length) in Heq.
    rewrite string_app_nil, string_app_cons in Heq.
    cbn [String.length] in Heq. rewrite string_length_app in Heq. lia.
  - apply (f_equal String.length) in Heq.
    rewrite string_app_nil, string_app_cons in Heq.
    cbn [String.length] in Heq. rewrite string_length_app in Heq. lia.
  - rewrite !string_app_cons in Heq. injection Heq as -> Heq.
    f_equal. apply IH. exact Heq.
Qed.

Lemma zeros_length (k : nat) :
  String.length (ScreenshotTaker.zeros k) = k.
Proof. induction k as [| k IH]; [reflexivity | ]. simpl. rewrite IH. reflexivity. Qed.

Lemma frame_of_digits_zeros (k : nat) (s : string) :
  ScreenshotTaker.frame_of_digits (ScreenshotTaker.zeros k ++ s)
  = ScreenshotTaker.frame_of_digits s.
Proof.
  induction k as [| k IH]; [reflexivity | ].
  rewrite <- IH. unfold ScreenshotTaker.frame_of_digits.
  cbn [ScreenshotTaker.zeros]. rewrite string_app_cons.
  cbn [DecimalString.NilEmpty.uint_of_string].
  destruct (DecimalString.NilEmpty.uint_of_string
              (ScreenshotTaker.zeros k ++ s)) as [d | ]; reflexivity.
Qed.

Lemma frame_of_digits_decimal (n : nat) :
  ScreenshotTaker.frame_of_digits (ScreenshotTaker.decimal n) = Some n.
Proof.
  unfold ScreenshotTaker.frame_of_digits, ScreenshotTaker.decimal.
  rewrite DecimalString.NilEmpty.usu. cbn [option_map].
  rewrite DecimalNat.Unsigned.of_to. reflexivity.
Qed.

(** X19.  The frame number can be read back from the five-digit field of
    a screenshot's file name, so that different frames go to different
    files; the field is five characters wide, or as wide as the number
    when that has more than five digits. *)
Theorem screenshot_names_distinct :
  (forall n,
      ScreenshotTaker.frame_of_digits (ScreenshotTaker.format_05d n)
      = Some n) /\
  (forall n m, ScreenshotTaker.fname n = ScreenshotTaker.fname m -> n = m) /\
  (forall n,
      String.length (ScreenshotTaker.format_05d n)
      = Nat.max 5 (String.length (ScreenshotTaker.decimal n))).
Proof.
  assert (Hback : forall n,
             ScreenshotTaker.frame_of_digits (ScreenshotTaker.format_05d n)
             = Some n).
  { intros n. unfold ScreenshotTaker.format_05d.
    rewrite frame_of_digits_zeros. apply frame_of_digits_decimal. }
  split; [exact Hback | ]. split.
  - intros n m Heq. unfold ScreenshotTaker.fname in Heq.
    apply string_app_inv_head in Heq. apply string_app_inv_tail in Heq.
    pose proof (Hback n) as Hn. rewrite Heq, Hback in Hn.
    injection Hn as ->. reflexivity.
  - intros n. unfold ScreenshotTaker.format_05d.
    rewrite string_length_app, zeros_length. lia.
Qed.

Lemma screenshot_names_distinct_witness :
  ScreenshotTaker.fname 7 = "./recording/camera/00007.png" /\
  ScreenshotTaker.fname 7 = ScreenshotTaker.fname 7 /\
  7%nat = 7%nat.
Proof.
  assert (H : ScreenshotTaker.fname 7 = ScreenshotTaker.fname 7)
    by reflexivity.
  split; [reflexivity | ]. split; [exact H | ].
  exact (proj1 (proj2 screenshot_names_distinct) 7%nat 7%nat H).
Defined.

Lemma screenshot_commands_lookup (n : nat) :
  forall self k,
    (k < n)%nat ->
    ScreenshotTaker.commands n self !! k
    = Some ("import -window " ++ ScreenshotTaker.window_id self ++ " "
            ++ ScreenshotTaker.fname (ScreenshotTaker.frame_index self + k))%string.
Proof.
  induction n as [| n IH]; intros self k Hk; [lia | ].
  cbn [ScreenshotTaker.commands ScreenshotTaker.on_tick].
  destruct k as [| k].
  - rewrite Nat.add_0_r. reflexivity.
  - cbn [lookup list_lookup]. rewrite IH by lia.
    cbn [ScreenshotTaker.window_id ScreenshotTaker.frame_index].
    do 5 f_equal. lia.
Qed.

Lemma screenshot_commands_length (n : nat) :
  forall self, length (ScreenshotTaker.commands n self) = n.
Proof.
  induction n as [| n IH]; intros self; [reflexivity | ].
  cbn [ScreenshotTaker.commands ScreenshotTaker.on_tick length].
  rewrite IH. reflexivity.
Qed.

(** X20.  Over [n] successive ticks the screenshot taker issues [n]
    commands, the [k]-th one for the window it was created with and for
    frame [frame_index + k]; no two of them write the same file. *)
Theorem screenshot_commands_sequence (n : nat) (self : ScreenshotTaker.t) :
  length (ScreenshotTaker.commands n self) = n /\
  (forall k, (k < n)%nat ->
     ScreenshotTaker.commands n self !! k
     = Some ("import -window " ++ ScreenshotTaker.window_id self ++ " "
             ++ ScreenshotTaker.fname
                  (ScreenshotTaker.frame_index self + k))%string) /\
  NoDup (ScreenshotTaker.commands n self).
Proof.
  split; [apply screenshot_commands_length | ].
  split; [intros k Hk; apply screenshot_commands_lookup; exact Hk | ].
  apply NoDup_alt. intros i j cmd Hi Hj.
  pose proof (lookup_lt_Some _ _ _ Hi) as Li.
  pose proof (lookup_lt_Some _ _ _ Hj) as Lj.
  rewrite screenshot_commands_length in Li, Lj.
  rewrite screenshot_commands_lookup in Hi by exact Li.
  rewrite screenshot_commands_lookup in Hj by exact Lj.
  rewrite <- Hj in Hi. injection Hi as Heq.
  do 3 apply string_app_inv_head in Heq.
  unfold ScreenshotTaker.fname in Heq.
  apply string_app_inv_head in Heq. apply string_app_inv_tail in Heq.
  assert (Hback : forall m,
             ScreenshotTaker.frame_of_digits (ScreenshotTaker.format_05d m)
             = Some m).
  { intros m. unfold ScreenshotTaker.format_05d.
    rewrite frame_of_digits_zeros. apply frame_of_digits_decimal. }
  pose proof (Hback (ScreenshotTaker.frame_index self + i)%nat) as Hn.
  rewrite Heq, Hback in Hn. injection Hn as Hn. lia.
Qed.

Example screenshot_commands_run :
  ScreenshotTaker.commands 2 (ScreenshotTaker.mk 99 "0x3a00007")
  = ["import -window 0x3a00007 ./recording/camera/00099.png";
     "import -window 0x3a00007 ./recording/camera/00100.png"].
Proof. reflexivity. Qed.

(** ** SEPDrawer.on_tick: a malformed polygon *)

Lemma lift_short (sep_height : R) (vertices : list (list R)) :
  Exists (fun x => (length x < 2)%nat) vertices ->
  SEPDrawer.lift sep_height vertices = inl IndexError.
Proof.
  induction 1 as [x rest Hx | x rest Hrest IH]; cbn [SEPDrawer.lift].
  - destruct x as [| x0 [| x1 xs]]; [reflexivity | reflexivity | ].
    simpl in Hx. lia.
  - destruct (x !! 0%nat); [ | reflexivity].
    destruct (x !! 1%nat); [ | reflexivity].
    rewrite IH. reflexivity.
Qed.

(** X21.  If a vertex of the polygon drawn first (the cyan one) has fewer
    than two coordinates, [SEPDrawer.on_tick] raises [IndexError] before
    anything is drawn: the drawer keeps both of its handles and the
    viewer sees nothing. *)
Theorem sep_drawer_short_vertex (H : Type)
    (draw_polygon : list (list R) -> list R -> string -> H)
    (cur_stance next_stance : SEPDrawer.Stance) (com_z leg_length : R)
    (self : SEPDrawer.t H) (w : world) :
  Exists (fun x => (length x < 2)%nat)
         (SEPDrawer.sep (if SEPDrawer.is_single_support cur_stance
                         then cur_stance else next_stance)) ->
  SEPDrawer.on_tick H draw_polygon cur_stance next_stance com_z leg_length
    self w
  = (inl IndexError, self, w).
Proof.
  intros Hshort. unfold SEPDrawer.on_tick.
  destruct (SEPDrawer.is_single_support cur_stance); cbv zeta;
    rewrite (lift_short _ _ Hshort); reflexivity.
Qed.

Lemma sep_drawer_short_vertex_witness :
  Exists (fun x => (length x < 2)%nat)
         (SEPDrawer.sep (SEPDrawer.mkStance true [[0; 0]; [0.2]])) /\
  SEPDrawer.on_tick nat (fun _ _ _ => 1%nat)
    (SEPDrawer.mkStance true [[0; 0]; [0.2]]) sep_double 0.8 0.7
    (SEPDrawer.mk (Some 3%nat) (Some 4%nat)) world_half
  = (inl IndexError, SEPDrawer.mk (Some 3%nat) (Some 4%nat), world_half).
Proof.
  assert (Hs : Exists (fun x => (length x < 2)%nat)
                 (SEPDrawer.sep (SEPDrawer.mkStance true [[0; 0]; [0.2]]))).
  { apply Exists_cons_tl. apply Exists_cons_hd. simpl. lia. }
  split; [exact Hs | ].
  exact (sep_drawer_short_vertex nat (fun _ _ _ => 1%nat)
           (SEPDrawer.mkStance true [[0; 0]; [0.2]]) sep_double 0.8 0.7
           (SEPDrawer.mk (Some 3%nat) (Some 4%nat)) world_half Hs).
Defined.

(** ** PreviewDrawer.on_tick: the shared velocity array *)

Section PreviewSharing.

Variable H : Type.
Variable draw_point : list R -> string -> R -> H.
Variable draw_line : list R -> list R -> string -> Z -> H.
Variables (com_p com_pd : list R) (preview : PreviewDrawer.Preview).

Lemma preview_step_sharing (self : PreviewDrawer.t H) (k : nat)
    (v1 v2 : PreviewDrawer.vars) (hs : list H) (w : world) :
  PreviewDrawer.draw_free_traj self = false ->
  PreviewDrawer.com_pre v1 = PreviewDrawer.com_pre v2 ->
  PreviewDrawer.comd_pre v1 = PreviewDrawer.comd_pre v2 ->
  exists v1' v2' hs' w',
    PreviewDrawer.loop_body H draw_point draw_line preview true self k
      (v1, hs, w) = (v1', hs', w') /\
    PreviewDrawer.loop_body H draw_point draw_line preview false self k
      (v2, hs, w) = (v2', hs', w') /\
    PreviewDrawer.com_pre v1' = PreviewDrawer.com_pre v2' /\
    PreviewDrawer.comd_pre v1' = PreviewDrawer.comd_pre v2'.
Proof.
  intros Hflag Hc Hd. unfold PreviewDrawer.loop_body. cbv zeta.
  rewrite Hflag, Hc, Hd. do 4 eexists. repeat split.
Qed.

Lemma preview_loop_sharing (self : PreviewDrawer.t H) (l : list nat) :
  PreviewDrawer.draw_free_traj self = false ->
  forall v1 v2 hs w,
    PreviewDrawer.com_pre v1 = PreviewDrawer.com_pre v2 ->
    PreviewDrawer.comd_pre v1 = PreviewDrawer.comd_pre v2 ->
    snd (fst (fold_left
                (fun st k => PreviewDrawer.loop_body H draw_point draw_line
                               preview true self k st) l (v1, hs, w)))
    = snd (fst (fold_left
                  (fun st k => PreviewDrawer.loop_body H draw_point draw_line
                                 preview false self k st) l (v2, hs, w))) /\
    snd (fold_left
           (fun st k => PreviewDrawer.loop_body H draw_point draw_line
                          preview true self k st) l (v1, hs, w))
    = snd (fold_left
             (fun st k => PreviewDrawer.loop_body H draw_point draw_line
                            preview false self k st) l (v2, hs, w)).
Proof.
  intros Hflag. induction l as [| k rest IH]; intros v1 v2 hs w Hc Hd;
    cbn [fold_left].
  - split; reflexivity.
  - destruct (preview_step_sharing self k v1 v2 hs w Hflag Hc Hd)
      as (v1' & v2' & hs' & w' & -> & -> & Hc' & Hd').
    apply IH; assumption.
Qed.

(** X22.  As long as the free trajectory is not drawn (the setting that
    [__init__] chooses), it makes no difference to the handles or to the
    viewer whether [com.pd] hands out the stored velocity array or a
    copy; and with a copy the tick leaves the stored velocity alone. *)
Theorem preview_drawer_sharing_unseen (self : PreviewDrawer.t H) (w : world) :
  PreviewDrawer.draw_free_traj self = false ->
  fst (PreviewDrawer.on_tick H draw_point draw_line com_p com_pd preview true
         self w)
  = fst (PreviewDrawer.on_tick H draw_point draw_line com_p com_pd preview
           false self w) /\
  snd (PreviewDrawer.on_tick H draw_point draw_line com_p com_pd preview
         false self w) = com_pd.
Proof.
  intros Hflag. unfold PreviewDrawer.on_tick. cbv zeta.
  match goal with
  | |- context [fold_left _ ?l (?v, ?hs, ?x)] =>
      pose proof (preview_loop_sharing self l Hflag v v hs x eq_refl eq_refl)
        as Hsame
  end.
  destruct Hsame as [Hhs Hw].
  destruct (fold_left
              (fun st k => PreviewDrawer.loop_body H draw_point draw_line
                             preview true self k st) _ _)
    as [[va ha] wa].
  destruct (fold_left
              (fun st k => PreviewDrawer.loop_body H draw_point draw_line
                             preview false self k st) _ _)
    as [[vb hb] wb].
  cbn [fst snd] in *. subst. split; reflexivity.
Qed.

End PreviewSharing.

Lemma preview_drawer_sharing_unseen_witness :
  PreviewDrawer.draw_free_traj (PreviewDrawer.mk false [9%nat]) = false /\
  fst (PreviewDrawer.on_tick nat (fun _ _ _ => 1%nat) (fun _ _ _ _ => 2%nat)
         [0; 0; 0.8] [0.1; 0; 0] preview_two_steps true
         (PreviewDrawer.mk false [9%nat]) world_half)
  = fst (PreviewDrawer.on_tick nat (fun _ _ _ => 1%nat)
           (fun _ _ _ _ => 2%nat) [0; 0; 0.8] [0.1; 0; 0] preview_two_steps
           false (PreviewDrawer.mk false [9%nat]) world_half).
Proof.
  split; [reflexivity | ].
  exact (proj1 (preview_drawer_sharing_unseen nat (fun _ _ _ => 1%nat)
                  (fun _ _ _ _ => 2%nat) [0; 0; 0.8] [0.1; 0; 0]
                  preview_two_steps (PreviewDrawer.mk false [9%nat])
                  world_half eq_refl)).
Defined.

(** ** Test points for the stage frames and the screenshot commands *)

Lemma tube_drawer_stage_frames_witness :
  fst (fst (TubeDrawer.draw_comdd nat draw_line_broken draw_points_ok
              [0; 0; 0] tube_drawer_busy world_half))
    = inl (DrawError "no viewer") /\
  TubeDrawer.comdd_handle
    (snd (fst (TubeDrawer.draw_comdd nat draw_line_broken draw_points_ok
                 [0; 0; 0] tube_drawer_busy world_half)))
    = [5%nat; 6%nat].
Proof.
  assert (Hfail : fst (fst (TubeDrawer.draw_comdd nat draw_line_broken
                              draw_points_ok [0; 0; 0] tube_drawer_busy
                              world_half))
                  = inl (DrawError "no viewer")) by reflexivity.
  split; [exact Hfail | ].
  destruct (tube_drawer_stage_frames nat draw_point_ok draw_polyhedron_ok
              draw_3d_cone_ok draw_line_broken draw_points_ok [0; 0; 0.8]
              [0; 0; 0] tube_three_polytopes tube_drawer_busy world_half)
    as (_ & _ & _ & _ & _ & _ & Hkeep).
  exact (Hkeep (DrawError "no viewer") Hfail).
Defined.

Lemma screenshot_commands_sequence_witness :
  (1 < 2)%nat /\
  ScreenshotTaker.commands 2 (ScreenshotTaker.mk 99 "0x3a00007") !! 1%nat
  = Some ("import -window " ++ "0x3a00007" ++ " "
          ++ ScreenshotTaker.fname (99 + 1))%string.
Proof.
  assert (Hk : (1 < 2)%nat) by lia.
  split; [exact Hk | ].
  exact (proj1 (proj2 (screenshot_commands_sequence 2
                         (ScreenshotTaker.mk 99 "0x3a00007"))) 1%nat Hk).
Defined.
